(** * Verset de l'année: the draw ledger, the verse store and the e-mail check

    A shallow embedding of [database.py] and of the JSON routes of
    [app.py] (the draw route and the routes of the administrator), with
    the properties of the one-verse-per-e-mail draw.

    Modelling conventions.
    - A Python [str] is a list of code points.  The model covers the code
      points below 256 (the type [ascii] read as Latin-1); on these
      [str.lower()] works character by character and [str.strip()] removes
      the twelve characters for which [str.isspace()] holds.  Every string
      that passes [is_valid_email] is plain ASCII.
    - The SQLite file is a record of tables, each table a list of rows in
      insertion order.  [INTEGER PRIMARY KEY AUTOINCREMENT] picks one more
      than the largest rowid the table ever held; a table does not fill
      up, so the rowids it issues are not bounded.  An [int] that a caller
      passes is bound as SQLite binds it: outside 64 bits with a sign it
      raises [OverflowError].  [UNIQUE] makes an insert raise
      [IntegrityError].  The [FOREIGN KEY] clause is not enforced: no
      connection issues [PRAGMA foreign_keys = ON].
    - The body of a request is what [request.get_json()] makes of it: an
      exception of werkzeug when there is no JSON to read, and else a
      value of Python ([None], a number, a string, a list, a dict), on
      which [not], [in], [[...]] and [.strip()] act as in Python.  Two
      library calls are parameters: [check_password_hash], and what
      sqlite3 and werkzeug do with a login member that is not a string.
    - [CURRENT_TIMESTAMP] and the output of the random generator are inputs
      of the operations that use them.
    - A Python call either returns a value or raises; the database after a
      raise is the one before the failed statement.

    The claims of the specification and their theorems:
    - C1 [draw_twice_same_verse], C4 [variants_one_assignment],
      C5 [empty_store_unavailable], C6 [first_draw_uniform],
      C7 [ledger_append_only] hold as stated, and C9
      [verse_store_round_trip] for the ids that are integers of SQLite;
    - C2 [concurrent_first_draws], C3 [unique_violation_raises] and
      C8 [orphaned_row_draw] hold in an amended form, next to the runs
      [race_loser_raises], [unique_violation_not_caught] and
      [orphan_draw_empty_store] on which the stated form fails;
    - C10 [is_valid_email_exact] holds on every string that reaches
      [is_valid_email], which the route strips first.

    The last part, X1 to X21, covers the rest of the code: the verse
    store, [init_db], [verify_admin] (over a parameter for werkzeug's
    [check_password_hash]), the session and the routes of the
    administrator, the counts of [get_draw_stats], and draws of different
    addresses, one after the other and at the same time. *)

From Stdlib Require Import Ascii QArith.
From Stdlib Require SpecFloat.
From stdpp Require Import base list strings sorting relations.

Local Open Scope Z_scope.

(** ** Python strings *)

Definition str := list ascii.

Definition lit (s : string) : str := String.list_ascii_of_string s.

Module pystr.

Definition code (c : ascii) : nat := nat_of_ascii c.

(** The line feed, ["\n"]. *)
Definition LF : ascii := ascii_of_nat 10.

Definition in_range (lo hi : nat) (c : ascii) : bool :=
  (Nat.leb lo (code c)) && (Nat.leb (code c) hi).

(** Characters with an upper-case mapping below 256: [A-Z], and
    U+00C0..U+00DE except the multiplication sign U+00D7. *)
Definition is_upper (c : ascii) : bool :=
  in_range 65 90 c
  || (in_range 192 222 c && negb (Nat.eqb (code c) 215)).

Definition lower_char (c : ascii) : ascii :=
  if is_upper c then ascii_of_nat (code c + 32) else c.

(** [str.lower()] *)
Definition lower (s : str) : str := map lower_char s.

(** [str.isspace()] on one character: TAB LF VT FF CR, FS GS RS US,
    SPACE, NEL (U+0085) and NBSP (U+00A0). *)
Definition is_space (c : ascii) : bool :=
  in_range 9 13 c || in_range 28 32 c
  || Nat.eqb (code c) 133 || Nat.eqb (code c) 160.

Fixpoint lstrip (s : str) : str :=
  match s with
  | [] => []
  | c :: s' => if is_space c then lstrip s' else s
  end.

Definition rstrip (s : str) : str := reverse (lstrip (reverse s)).

(** [str.strip()] *)
Definition strip (s : str) : str := rstrip (lstrip s).

(** Two characters that differ at most by letter case: one is the lower
    case of the other, an upper-case letter. *)
Definition case_variant (c1 c2 : ascii) : Prop :=
  c1 = c2
  ∨ (is_upper c1 = true ∧ c2 = lower_char c1)
  ∨ (is_upper c2 = true ∧ c1 = lower_char c2).

(** [sub in s]: [sub] occurs in [s]. *)
Fixpoint contains (sub s : str) : bool :=
  bool_decide (sub `prefix_of` s)
  || match s with
     | [] => false
     | _ :: s' => contains sub s'
     end.

(** A predicate on characters that does not look at the case. *)
Definition caseless (p : ascii → bool) : Prop :=
  ∀ c, p (lower_char c) = p c.

(** Two strings that differ only by letter case and by the white space
    around them. *)
Definition variant (a b : str) : Prop :=
  ∃ w1 a' w2 w3 b' w4 : str,
    a = w1 ++ a' ++ w2 ∧ b = w3 ++ b' ++ w4
    ∧ Forall (λ c, is_space c = true) (w1 ++ w2 ++ w3 ++ w4)
    ∧ Forall2 case_variant a' b'.

End pystr.

(** ** Regular expressions, as far as [re.match] is used *)

Module re.

Inductive regex : Type :=
| Void
| Eps
| Class (p : ascii → bool)
| Cat (r1 r2 : regex)
| Alt (r1 r2 : regex)
| Star (r : regex).

(** [r+] and [r{2,}] *)
Definition plus (r : regex) : regex := Cat r (Star r).
Definition at_least_two (r : regex) : regex := Cat r (Cat r (Star r)).

Fixpoint nullable (r : regex) : bool :=
  match r with
  | Void => false
  | Eps => true
  | Class _ => false
  | Cat r1 r2 => nullable r1 && nullable r2
  | Alt r1 r2 => nullable r1 || nullable r2
  | Star _ => true
  end.

Fixpoint deriv (c : ascii) (r : regex) : regex :=
  match r with
  | Void => Void
  | Eps => Void
  | Class p => if p c then Eps else Void
  | Cat r1 r2 =>
      if nullable r1
      then Alt (Cat (deriv c r1) r2) (deriv c r2)
      else Cat (deriv c r1) r2
  | Alt r1 r2 => Alt (deriv c r1) (deriv c r2)
  | Star r1 => Cat (deriv c r1) (Star r1)
  end.

(** The whole of [s] matches [r]. *)
Fixpoint fullmatch (r : regex) (s : str) : bool :=
  match s with
  | [] => nullable r
  | c :: s' => fullmatch (deriv c r) s'
  end.

(** [s] without its last character when that is a line feed. *)
Definition chop_newline (s : str) : option str :=
  match reverse s with
  | c :: s' => if Nat.eqb (pystr.code c) 10 then Some (reverse s') else None
  | [] => None
  end.

(** [re.match('^' r '$', s) is not None] with the default flags: [^]
    holds at position 0, and [$] holds at the end of the string and also
    just before a line feed that ends the string. *)
Definition match_anchored (r : regex) (s : str) : bool :=
  fullmatch r s
  || match chop_newline s with
     | Some s' => fullmatch r s'
     | None => false
     end.

(** The language of a regular expression. *)
Inductive lang : regex → str → Prop :=
| lang_eps : lang Eps []
| lang_class p c : p c = true → lang (Class p) [c]
| lang_cat r1 r2 s1 s2 : lang r1 s1 → lang r2 s2 → lang (Cat r1 r2) (s1 ++ s2)
| lang_alt_l r1 r2 s : lang r1 s → lang (Alt r1 r2) s
| lang_alt_r r1 r2 s : lang r2 s → lang (Alt r1 r2) s
| lang_star_nil r : lang (Star r) []
| lang_star_cons r s1 s2 : lang r s1 → lang (Star r) s2 → lang (Star r) (s1 ++ s2).

End re.

(** ** Results of Python calls *)

Inductive exn : Type :=
| IntegrityError   (* sqlite3.IntegrityError: a UNIQUE constraint failed *)
| IndexError       (* random.choice on an empty sequence *)
| AttributeError   (* a method of [str] called on a value that is not one *)
| OverflowError    (* an [int] too large for an SQLite INTEGER *)
| TypeError        (* [in] or [[...]] on a value that does not have it *)
| KeyError         (* [d[key]] on a dict without the key *)
| BadRequest       (* werkzeug: the body is not the JSON it is said to be *)
| UnsupportedMediaType   (* werkzeug: the content type is not JSON *)
| Other (name : string). (* any other exception, by the name of its class *)

Inductive outcome (A : Type) : Type :=
| Returned (a : A)
| Raised (e : exn).
Arguments Returned {A} a.
Arguments Raised {A} e.

#[global] Instance outcome_ret : MRet outcome := @Returned.

#[global] Instance outcome_bind : MBind outcome := λ A B f m,
  match m with
  | Returned a => f a
  | Raised e => Raised e
  end.

#[global] Instance outcome_fmap : FMap outcome := λ A B f m,
  match m with
  | Returned a => Returned (f a)
  | Raised e => Raised e
  end.

#[global] Instance exn_eq_dec : EqDecision exn.
Proof. solve_decision. Defined.

#[global] Instance outcome_eq_dec {A} `{EqDecision A} : EqDecision (outcome A).
Proof. solve_decision. Defined.

(** ** The random module *)

Module random.

(** [Random._randbelow(n)]: an integer in [range(n)], the same chance for
    each.  The generator is an input of the model: [g] is the number it
    delivers for this call, brought into [range(n)]; an index [i] of
    [range(n)] is what [g = i] gives. *)
Definition randbelow (g n : nat) : nat := (g `mod` n)%nat.

(** [random.choice(seq)] is [seq[randbelow(len(seq))]]; it raises
    [IndexError] on an empty sequence. *)
Definition choice {A : Type} (g : nat) (seq : list A) : outcome A :=
  match seq !! randbelow g (length seq) with
  | Some x => Returned x
  | None => Raised IndexError
  end.

(** The chance of an event [E] of the index when [randbelow n] is uniform
    on [range(n)]: favourable indices over [n]. *)
Definition probability (n : nat) (E : nat → bool) : Q :=
  Z.of_nat (length (filter (λ i, E i = true) (seq 0 n))) # Pos.of_nat n.

End random.

(** ** database.py *)

Definition timestamp := str.

Module database.

(** *** Tables *)

Record verse_row : Type := {
  v_id : Z;
  v_text : str;
  v_reference : str;
  v_created_at : timestamp
}.

Record draw_row : Type := {
  ud_id : Z;
  ud_email : str;
  ud_verse_id : Z;
  ud_drawn_at : timestamp
}.

Record admin_row : Type := {
  a_id : Z;
  a_username : str;
  a_password_hash : str
}.

(** The three tables with the [sqlite_sequence] entry of each. *)
Record db : Type := {
  verses : list verse_row;
  verses_seq : Z;
  user_draws : list draw_row;
  user_draws_seq : Z;
  admin : list admin_row;
  admin_seq : Z
}.

(** A database file on which only the [CREATE TABLE]s have run. *)
Definition empty_db : db :=
  {| verses := []; verses_seq := 0;
     user_draws := []; user_draws_seq := 0;
     admin := []; admin_seq := 0 |}.

(** The integers SQLite stores have 64 bits with a sign.  sqlite3 raises
    [OverflowError] when a Python [int] outside this range is bound to a
    [?] of a statement. *)
Definition sqlite_int (z : Z) : Prop := - 2 ^ 63 ≤ z < 2 ^ 63.

#[global] Instance sqlite_int_dec z : Decision (sqlite_int z).
Proof. unfold sqlite_int. apply _. Defined.

Definition bind_int (z : Z) : outcome Z :=
  if decide (sqlite_int z) then Returned z else Raised OverflowError.

(** The rowid [AUTOINCREMENT] gives to a new row. *)
Definition next_rowid (seq : Z) (ids : list Z) : Z :=
  Z.max seq (foldr Z.max 0 ids) + 1.

(** [INSERT INTO verses (text, reference) VALUES (?, ?)] *)
Definition insert_verse (text reference : str) (now : timestamp) (d : db)
  : Z * db :=
  let rowid := next_rowid (verses_seq d) (v_id <$> verses d) in
  (rowid,
   {| verses := verses d ++
        [ {| v_id := rowid; v_text := text; v_reference := reference;
             v_created_at := now |} ];
      verses_seq := rowid;
      user_draws := user_draws d; user_draws_seq := user_draws_seq d;
      admin := admin d; admin_seq := admin_seq d |}).

(** [INSERT INTO admin (username, password_hash) VALUES (?, ?)];
    [username] is [UNIQUE]. *)
Definition insert_admin (username password_hash : str) (d : db)
  : outcome unit * db :=
  if decide (username ∈ a_username <$> admin d)
  then (Raised IntegrityError, d)
  else
    let rowid := next_rowid (admin_seq d) (a_id <$> admin d) in
    (Returned (),
     {| verses := verses d; verses_seq := verses_seq d;
        user_draws := user_draws d; user_draws_seq := user_draws_seq d;
        admin := admin d ++
          [ {| a_id := rowid; a_username := username;
               a_password_hash := password_hash |} ];
        admin_seq := rowid |}).

(** [INSERT INTO user_draws (email, verse_id) VALUES (?, ?)];
    [email] is [UNIQUE], the reference to [verses] is not checked. *)
Definition insert_user_draw (email : str) (verse_id : Z) (now : timestamp)
    (d : db) : outcome unit * db :=
  if decide (email ∈ ud_email <$> user_draws d)
  then (Raised IntegrityError, d)
  else
    let rowid := next_rowid (user_draws_seq d) (ud_id <$> user_draws d) in
    (Returned (),
     {| verses := verses d; verses_seq := verses_seq d;
        user_draws := user_draws d ++
          [ {| ud_id := rowid; ud_email := email; ud_verse_id := verse_id;
               ud_drawn_at := now |} ];
        user_draws_seq := rowid;
        admin := admin d; admin_seq := admin_seq d |}).

(** *** Rows as the functions return them: [dict(row)] *)

Record verse_dict : Type := {
  d_id : Z;
  d_text : str;
  d_reference : str;
  d_created_at : option timestamp;
  d_drawn_at : option timestamp
}.

(** [SELECT id, text, reference FROM verses ...] *)
Definition dict_of_verse (v : verse_row) : verse_dict :=
  {| d_id := v_id v; d_text := v_text v; d_reference := v_reference v;
     d_created_at := None; d_drawn_at := None |}.

Record draw_result : Type := {
  verse : verse_dict;
  already_drawn : bool
}.

#[global] Instance verse_dict_eq_dec : EqDecision verse_dict.
Proof. solve_decision. Defined.

#[global] Instance draw_result_eq_dec : EqDecision draw_result.
Proof. solve_decision. Defined.

(** *** init_db *)

Fixpoint insert_verses (rows : list (str * str)) (now : timestamp) (d : db)
  : db :=
  match rows with
  | [] => d
  | (text, reference) :: rows' =>
      insert_verses rows' now (insert_verse text reference now d).2
  end.

(** [password_hash] is [generate_password_hash('admin123')] and
    [sample_verses] the eight verses listed in the source. *)
Definition init_db (password_hash : str) (sample_verses : list (str * str))
    (now : timestamp) (d : db) : outcome unit * db :=
  let '(r, d1) :=
    if decide (length (admin d) = 0%nat)
    then insert_admin (lit "admin") password_hash d
    else (Returned (), d) in
  match r with
  | Raised e => (Raised e, d)
  | Returned _ =>
      if decide (length (verses d1) = 0%nat)
      then (Returned (), insert_verses sample_verses now d1)
      else (Returned (), d1)
  end.

(** *** Verse operations *)

(** [ORDER BY id DESC] *)
Definition id_desc (v1 v2 : verse_row) : Prop := v_id v2 ≤ v_id v1.

#[global] Instance id_desc_dec : RelDecision id_desc :=
  λ v1 v2, Z_le_dec (v_id v2) (v_id v1).

Definition get_all_verses (d : db) : list verse_dict :=
  (λ v, {| d_id := v_id v; d_text := v_text v; d_reference := v_reference v;
           d_created_at := Some (v_created_at v); d_drawn_at := None |})
    <$> merge_sort id_desc (verses d).

Definition add_verse (text reference : str) (now : timestamp) (d : db)
  : Z * db :=
  insert_verse text reference now d.

(** [DELETE FROM verses WHERE id = ?], with its [rowcount] *)
Definition delete_from_verses (verse_id : Z) (d : db) : nat * db :=
  (length (filter (λ v, v_id v = verse_id) (verses d)),
   {| verses := filter (λ v, v_id v ≠ verse_id) (verses d);
      verses_seq := verses_seq d;
      user_draws := user_draws d; user_draws_seq := user_draws_seq d;
      admin := admin d; admin_seq := admin_seq d |}).

Definition delete_verse (verse_id : Z) (d : db) : outcome bool * db :=
  match bind_int verse_id with
  | Raised e => (Raised e, d)
  | Returned verse_id =>
      let '(rowcount, d') := delete_from_verses verse_id d in
      (Returned (bool_decide (0 < rowcount)%nat), d')
  end.

(** [SELECT id, text, reference FROM verses WHERE id = ?] and
    [fetchone()] *)
Definition select_verse (verse_id : Z) (d : db) : option verse_dict :=
  head (dict_of_verse <$> filter (λ v, v_id v = verse_id) (verses d)).

Definition get_verse_by_id (verse_id : Z) (d : db)
  : outcome (option verse_dict) :=
  match bind_int verse_id with
  | Raised e => Raised e
  | Returned verse_id => Returned (select_verse verse_id d)
  end.

(** *** User draw operations *)

(** [SELECT v.id, v.text, v.reference, ud.drawn_at] *)
Definition dict_of_draw (ud : draw_row) (v : verse_row) : verse_dict :=
  {| d_id := v_id v; d_text := v_text v; d_reference := v_reference v;
     d_created_at := None; d_drawn_at := Some (ud_drawn_at ud) |}.

(** The join of [user_draws] with [verses], one dict per pair of rows;
    [fetchone()] takes the first. *)
Definition check_user_draw (email : str) (d : db) : option verse_dict :=
  head (ud ← filter (λ ud, ud_email ud = pystr.lower email) (user_draws d);
        v ← filter (λ v, v_id v = ud_verse_id ud) (verses d);
        [dict_of_draw ud v]).

Definition draw_verse_for_user (email : str) (g : nat) (now : timestamp)
    (d : db) : outcome (option draw_result) * db :=
  let email := pystr.strip (pystr.lower email) in
  match check_user_draw email d with
  | Some existing =>
      (Returned (Some {| verse := existing; already_drawn := true |}), d)
  | None =>
      let verses := verses d in
      match verses with
      | [] => (Returned None, d)
      | _ =>
          match random.choice g verses with
          | Raised e => (Raised e, d)
          | Returned chosen =>
              match insert_user_draw email (v_id chosen) now d with
              | (Raised e, d') => (Raised e, d')
              | (Returned _, d') =>
                  (Returned (Some {| verse := dict_of_verse chosen;
                                     already_drawn := false |}), d')
              end
          end
      end
  end.

(** *** Statistics *)

Definition get_draw_stats (d : db) : nat * nat :=
  (length (user_draws d), length (verses d)).

(** *** What the schema guarantees

    [PRIMARY KEY] on the three [id] columns, [UNIQUE] on
    [user_draws.email] and on [admin.username]. *)
Record schema_ok (d : db) : Prop := {
  verses_pk : NoDup (v_id <$> verses d);
  user_draws_pk : NoDup (ud_id <$> user_draws d);
  user_draws_email_unique : NoDup (ud_email <$> user_draws d);
  admin_pk : NoDup (a_id <$> admin d);
  admin_username_unique : NoDup (a_username <$> admin d)
}.

(** The identity of an e-mail address: the key under which
    [draw_verse_for_user] looks it up and stores it. *)
Definition identity (email : str) : str :=
  pystr.strip (pystr.lower email).

(** The ledger rows of an identity. *)
Definition draws_of (email : str) (d : db) : list draw_row :=
  filter (λ ud, ud_email ud = email) (user_draws d).

(** Two dicts show the same verse; the dict of [check_user_draw] has the
    key [drawn_at] on top. *)
Definition same_verse (a b : verse_dict) : Prop :=
  d_id a = d_id b ∧ d_text a = d_text b ∧ d_reference a = d_reference b.

(** *** The operations that write

    The functions that only read ([get_all_verses], [get_verse_by_id],
    [check_user_draw], [get_draw_stats]) leave the database as it is. *)
Inductive op : Type :=
| Init (password_hash : str) (sample_verses : list (str * str))
       (now : timestamp)
| AddVerse (text reference : str) (now : timestamp)
| DeleteVerse (verse_id : Z)
| Draw (email : str) (g : nat) (now : timestamp).

Definition exec (o : op) (d : db) : db :=
  match o with
  | Init password_hash sample_verses now =>
      (init_db password_hash sample_verses now d).2
  | AddVerse text reference now => (add_verse text reference now d).2
  | DeleteVerse verse_id => (delete_verse verse_id d).2
  | Draw email g now => (draw_verse_for_user email g now d).2
  end.

Definition exec_all (ops : list op) (d : db) : db :=
  foldl (λ d o, exec o d) d ops.

(** The operations of the administrator. *)
Definition admin_op (o : op) : Prop :=
  match o with Draw _ _ _ => False | _ => True end.

(** The ledger with one more row. *)
Definition with_draw (d : db) (row : draw_row) : db :=
  {| verses := verses d; verses_seq := verses_seq d;
     user_draws := user_draws d ++ [row]; user_draws_seq := ud_id row;
     admin := admin d; admin_seq := admin_seq d |}.

(** *** Admin operations *)

Section password.

(** [werkzeug.security.check_password_hash(pwhash, password)] *)
Variable check_password_hash : str → str → bool.

(** The row of the user name, when there is one and the password matches
    its hash: [fetchone()] and [row and check_password_hash(...)]. *)
Definition verify_admin (username password : str) (d : db) : option Z :=
  match head (filter (λ a, a_username a = username) (admin d)) with
  | Some row =>
      if check_password_hash (a_password_hash row) password
      then Some (a_id row)
      else None
  | None => None
  end.

End password.

(** *** What the operations keep besides the schema *)

(** Every address in the ledger is in the form [draw_verse_for_user]
    stores: lower case, no white space around it. *)
Definition normalized_ledger (d : db) : Prop :=
  Forall (λ ud, identity (ud_email ud) = ud_email ud) (user_draws d).

End database.

(** ** app.py: the e-mail check and the routes *)

Module app.
Import database.

(** *** Email validation *)

Definition letter (c : ascii) : bool :=
  pystr.in_range 97 122 c || pystr.in_range 65 90 c.      (* a-zA-Z *)

Definition digit (c : ascii) : bool := pystr.in_range 48 57 c.  (* 0-9 *)

Definition one_of (cs : str) (c : ascii) : bool := bool_decide (c ∈ cs).

(** [[a-zA-Z0-9._%+-]] *)
Definition local_class (c : ascii) : bool :=
  letter c || digit c || one_of (lit "._%+-") c.

(** [[a-zA-Z0-9.-]] *)
Definition domain_class (c : ascii) : bool :=
  letter c || digit c || one_of (lit ".-") c.

(** [[a-zA-Z0-9._%+-]+@[a-zA-Z0-9.-]+\.[a-zA-Z]{2,}], between [^] and [$] *)
Definition pattern : re.regex :=
  re.Cat (re.plus (re.Class local_class))
    (re.Cat (re.Class (one_of (lit "@")))
       (re.Cat (re.plus (re.Class domain_class))
          (re.Cat (re.Class (one_of (lit ".")))
             (re.at_least_two (re.Class letter))))).

Definition is_valid_email (email : str) : bool :=
  re.match_anchored pattern email.

(** The shape the specification describes: local-part characters, an at
    sign, a domain with a dot in it, and a last label of two or more
    letters. *)
Definition email_shape (s : str) : Prop :=
  ∃ local host tld : str,
    s = local ++ lit "@" ++ host ++ lit "." ++ tld
    ∧ local ≠ [] ∧ Forall (λ c, local_class c = true) local
    ∧ host ≠ [] ∧ Forall (λ c, domain_class c = true) host
    ∧ (2 ≤ length tld)%nat ∧ Forall (λ c, letter c = true) tld.

(** *** The body of a request

    What [json.loads] makes of a body: [None], a [bool], an [int], a
    [float], a [str], a [list], or a [dict] with strings as keys. *)
#[warnings="-register-all"]
Inductive json : Type :=
| JNull
| JBool (b : bool)
| JInt (n : Z)
| JFloat (x : SpecFloat.spec_float)
| JString (s : str)
| JArray (items : list json)
| JObject (members : list (str * json)).   (* the items, each key once *)

(** [bool(v)], which [not v] negates. *)
Definition truthy (v : json) : bool :=
  match v with
  | JNull => false
  | JBool b => b
  | JInt n => negb (n =? 0)
  | JFloat (SpecFloat.S754_zero _) => false
  | JFloat _ => true
  | JString s => match s with [] => false | _ => true end
  | JArray items => match items with [] => false | _ => true end
  | JObject members => match members with [] => false | _ => true end
  end.

(** [key in v]: a key of a dict, an item of a list, a part of a string;
    the other values are not containers. *)
Definition contains (key : str) (v : json) : outcome bool :=
  match v with
  | JObject members => Returned (bool_decide (key ∈ members.*1))
  | JArray items =>
      Returned
        (existsb (λ item, match item with
                          | JString s => bool_decide (s = key)
                          | _ => false
                          end) items)
  | JString s => Returned (pystr.contains key s)
  | JNull | JBool _ | JInt _ | JFloat _ => Raised TypeError
  end.

(** [v[key]] for a string [key]: only a dict takes it. *)
Definition getitem (v : json) (key : str) : outcome json :=
  match v with
  | JObject members =>
      match head (filter (λ m, m.1 = key) members) with
      | Some m => Returned m.2
      | None => Raised KeyError
      end
  | _ => Raised TypeError
  end.

(** [v.strip()]: only a [str] has the method. *)
Definition strip (v : json) : outcome str :=
  match v with
  | JString s => Returned (pystr.strip s)
  | _ => Raised AttributeError
  end.

(** [key1 not in data or key2 not in data or ...] *)
Fixpoint lacks (keys : list str) (data : json) : outcome bool :=
  match keys with
  | [] => Returned false
  | key :: keys =>
      has ← contains key data;
      if has : bool then lacks keys data else Returned true
  end.

(** [not data or key1 not in data or ...] *)
Definition missing (keys : list str) (data : json) : outcome bool :=
  if truthy data then lacks keys data else Returned true.

(** A request, as far as [request.get_json()] reads it. *)
Inductive request : Type :=
| NotJson             (* the content type is not JSON *)
| Malformed           (* the content type is JSON, the body is not *)
| Json (data : json).

(** [request.get_json()] of Flask 3: it raises the exception that Flask
    answers with 415 or 400 when there is no JSON to return. *)
Definition get_json (r : request) : outcome json :=
  match r with
  | NotJson => Raised UnsupportedMediaType
  | Malformed => Raised BadRequest
  | Json data => Returned data
  end.

(** The body [{"email": v}]. *)
Definition Email (v : json) : request :=
  Json (JObject [(lit "email", v)]).

(** The body [{"username": ..., "password": ...}]. *)
Definition Credentials (username password : json) : request :=
  Json (JObject [(lit "username", username); (lit "password", password)]).

(** The body [{"text": ..., "reference": ...}]. *)
Definition Verse (text reference : json) : request :=
  Json (JObject [(lit "text", text); (lit "reference", reference)]).

(** *** The draw route *)

(** [jsonify({...}), status] *)
Record response : Type := {
  status : Z;
  success : bool;
  r_verse : option verse_dict;
  r_already_drawn : option bool;
  error : option str
}.

Definition failure (code : Z) (message : string) : response :=
  {| status := code; success := false; r_verse := None;
     r_already_drawn := None; error := Some (lit message) |}.

(** The first lines of [draw_verse]: the member [email] of the body,
    stripped; [None] when the first test answers. *)
Definition requested_email (r : request) : outcome (option str) :=
  data ← get_json r;
  absent ← missing [lit "email"] data;
  if absent : bool then Returned None
  else
    v ← getitem data (lit "email");
    email ← strip v;
    Returned (Some email).

Definition draw_verse (r : request) (g : nat) (now : timestamp) (d : db)
  : outcome response * db :=
  match requested_email r with
  | Raised e => (Raised e, d)
  | Returned None => (Returned (failure 400 "Email requis"), d)
  | Returned (Some email) =>
      if negb (is_valid_email email)
      then (Returned (failure 400 "Format d'email invalide"), d)
      else
        match draw_verse_for_user email g now d with
        | (Raised e, d') => (Raised e, d')
        | (Returned None, d') =>
            (Returned
               (failure 404
                  "Aucun verset disponible. Contactez l'administrateur."),
             d')
        | (Returned (Some result), d') =>
            (Returned
               {| status := 200; success := true;
                  r_verse := Some (verse result);
                  r_already_drawn := Some (already_drawn result);
                  error := None |},
             d')
        end
  end.

(** *** The admin routes *)

(** The session of a client, as far as the routes use it: the keys
    [admin_id] and [admin_logged_in] of Flask's [session]. *)
Record session : Type := {
  admin_id : option Z;
  admin_logged_in : option bool
}.

Definition no_session : session :=
  {| admin_id := None; admin_logged_in := None |}.

(** [session.get('admin_logged_in')], read as a condition. *)
Definition logged_in (s : session) : bool :=
  match admin_logged_in s with
  | Some b => b
  | None => false
  end.

(** The JSON bodies of the answers. *)
Inductive reply : Type :=
| Failure (message : str)                  (* success: False, error *)
| Success                                  (* success: True *)
| SuccessMessage (message : str)           (* success: True, message *)
| VerseAdded (verse_id : Z) (message : str) (* success: True, verse_id, message *)
| LoggedIn (logged : bool)                 (* logged_in *)
| Verses (verses : list verse_dict) (stats : nat * nat).
                                           (* success: True, verses, stats *)

(** The accented letters of the messages. *)
Definition e_acute : ascii := ascii_of_nat 233.
Definition e_grave : ascii := ascii_of_nat 232.
Definition e_circumflex : ascii := ascii_of_nat 234.

Definition unauthorized : reply * Z :=
  (Failure (lit "Non autoris" ++ [e_acute]), 401).

(** The first lines of [admin_login]: the members [username] and
    [password] of the body; [None] when the first test answers. *)
Definition credentials (r : request) : outcome (option (json * json)) :=
  data ← get_json r;
  absent ← missing [lit "username"; lit "password"] data;
  if absent : bool then Returned None
  else
    username ← getitem data (lit "username");
    password ← getitem data (lit "password");
    Returned (Some (username, password)).

Section password.

Variable check_password_hash : str → str → bool.

(** What the two library calls of [verify_admin] do with a value that is
    not a string: the [SELECT] with the value bound to [username = ?],
    which returns a row of the table or none, or raises (SQLite compares
    a number with the text of the column, sqlite3 refuses a list or a
    dict); and [check_password_hash] with the value as the password. *)
Variable select_admin_other :
  json → list admin_row → outcome (option admin_row).
Variable check_password_other : str → json → outcome bool.

(** [database.verify_admin(data['username'], data['password'])]: the
    members of a body need not be strings.  For two strings this is
    [verify_admin]. *)
Definition verify_admin_values (username password : json) (d : db)
  : outcome (option Z) :=
  row ← match username with
        | JString username =>
            Returned (head (filter (λ a, a_username a = username) (admin d)))
        | _ => select_admin_other username (admin d)
        end;
  match row with
  | None => Returned None
  | Some row =>
      ok ← match password with
           | JString password =>
               Returned (check_password_hash (a_password_hash row) password)
           | _ => check_password_other (a_password_hash row) password
           end;
      Returned (if ok : bool then Some (a_id row) else None)
  end.

(** [/api/admin/login]; [if admin_id:] fails for [None] and for the
    id 0. *)
Definition admin_login (r : request) (s : session) (d : db)
  : outcome (reply * Z) * session :=
  match credentials r with
  | Raised e => (Raised e, s)
  | Returned None =>
      (Returned
         (Failure (lit "Nom d'utilisateur et mot de passe requis"), 400), s)
  | Returned (Some (username, password)) =>
      match verify_admin_values username password d with
      | Raised e => (Raised e, s)
      | Returned (Some i) =>
          if decide (i = 0)
          then (Returned (Failure (lit "Identifiants incorrects"), 401), s)
          else
            (Returned
               (SuccessMessage
                  (lit "Connexion r" ++ [e_acute] ++ lit "ussie"), 200),
             {| admin_id := Some i; admin_logged_in := Some true |})
      | Returned None =>
          (Returned (Failure (lit "Identifiants incorrects"), 401), s)
      end
  end.

End password.

(** [/api/admin/logout] *)
Definition admin_logout (s : session) : (reply * Z) * session :=
  ((Success, 200), no_session).

(** [/api/admin/check] *)
Definition admin_check (s : session) : reply * Z :=
  (LoggedIn (logged_in s), 200).

(** [GET /api/admin/verses] *)
Definition get_verses (s : session) (d : db) : reply * Z :=
  if negb (logged_in s)
  then unauthorized
  else (Verses (get_all_verses d) (get_draw_stats d), 200).

(** The lines of [add_verse] that read the body: the members [text] and
    [reference], stripped; [None] when the first test answers. *)
Definition verse_fields (r : request) : outcome (option (str * str)) :=
  data ← get_json r;
  absent ← missing [lit "text"; lit "reference"] data;
  if absent : bool then Returned None
  else
    text ← getitem data (lit "text") ≫= strip;
    reference ← getitem data (lit "reference") ≫= strip;
    Returned (Some (text, reference)).

(** [POST /api/admin/verses] *)
Definition add_verse (r : request) (now : timestamp) (s : session) (d : db)
  : outcome (reply * Z) * db :=
  if negb (logged_in s)
  then (Returned unauthorized, d)
  else
    match verse_fields r with
    | Raised e => (Raised e, d)
    | Returned None =>
        (Returned
           (Failure
              (lit "Texte et r" ++ [e_acute] ++ lit "f" ++ [e_acute]
                 ++ lit "rence requis"), 400), d)
    | Returned (Some (text, reference)) =>
        if bool_decide (text = []) || bool_decide (reference = [])
        then
          (Returned
             (Failure
                (lit "Le texte et la r" ++ [e_acute]
                   ++ lit "f" ++ [e_acute]
                   ++ lit "rence ne peuvent pas " ++ [e_circumflex]
                   ++ lit "tre vides"), 400), d)
        else
          let '(verse_id, d') := database.add_verse text reference now d in
          (Returned
             (VerseAdded verse_id
                (lit "Verset ajout" ++ [e_acute] ++ lit " avec succ"
                   ++ [e_grave] ++ lit "s"), 200), d')
    end.

(** [DELETE /api/admin/verses/<int:verse_id>] *)
Definition delete_verse (verse_id : Z) (s : session) (d : db)
  : outcome (reply * Z) * db :=
  if negb (logged_in s)
  then (Returned unauthorized, d)
  else
    match database.delete_verse verse_id d with
    | (Raised e, d') => (Raised e, d')
    | (Returned deleted, d') =>
        if deleted : bool
        then
          (Returned (SuccessMessage (lit "Verset supprim" ++ [e_acute]), 200),
           d')
        else
          (Returned (Failure (lit "Verset non trouv" ++ [e_acute]), 404), d')
    end.

(** *** A client

    The requests one client sends, one after the other, with its session
    carried from each answer to the next request. *)
Inductive action : Type :=
| PostLogin (data : request)
| PostLogout
| GetCheck
| GetVerses
| PostVerse (data : request) (now : timestamp)
| DeleteVerseById (verse_id : Z)
| PostDraw (data : request) (g : nat) (now : timestamp).

Section client.

Variable check_password_hash : str → str → bool.
Variable select_admin_other :
  json → list admin_row → outcome (option admin_row).
Variable check_password_other : str → json → outcome bool.

(** The session and the database after a request. *)
Definition handle (a : action) (c : session * db) : session * db :=
  match a with
  | PostLogin data =>
      ((admin_login check_password_hash select_admin_other
          check_password_other data c.1 c.2).2, c.2)
  | PostLogout => ((admin_logout c.1).2, c.2)
  | GetCheck => c
  | GetVerses => c
  | PostVerse data now => (c.1, (add_verse data now c.1 c.2).2)
  | DeleteVerseById verse_id => (c.1, (delete_verse verse_id c.1 c.2).2)
  | PostDraw data g now => (c.1, (draw_verse data g now c.2).2)
  end.

Definition serve (actions : list action) (c : session * db)
  : session * db :=
  foldl (λ c a, handle a c) c actions.

(** A login request whose credentials [verify_admin] accepts. *)
Definition accepted_login (d : db) (a : action) : Prop :=
  match a with
  | PostLogin data =>
      match credentials data with
      | Returned (Some (username, password)) =>
          match verify_admin_values check_password_hash select_admin_other
                  check_password_other username password d with
          | Returned (Some _) => True
          | _ => False
          end
      | _ => False
      end
  | _ => False
  end.

End client.

End app.

(** ** Requests served at the same time

    Each request runs [draw_verse_for_user] on a connection of its own.
    SQLite executes one statement at a time, so a run of several requests
    is an interleaving of their statements: the join of [check_user_draw],
    the [SELECT] with [random.choice], and the [INSERT] with its commit. *)

Module concurrent.
Import database.

(** Where a request stands in [draw_verse_for_user]. *)
Inductive thread : Type :=
| Start (email : str)
| Checked (email : str)
| Chosen (email : str) (chosen : verse_row)
| Finished (r : outcome (option draw_result)).

(** The next statement of a request. *)
Definition thread_step (g : nat) (now : timestamp) (t : thread) (d : db)
  : thread * db :=
  match t with
  | Start email =>
      let email := pystr.strip (pystr.lower email) in
      match check_user_draw email d with
      | Some existing =>
          (Finished
             (Returned (Some {| verse := existing; already_drawn := true |})),
           d)
      | None => (Checked email, d)
      end
  | Checked email =>
      match verses d with
      | [] => (Finished (Returned None), d)
      | _ =>
          match random.choice g (verses d) with
          | Raised e => (Finished (Raised e), d)
          | Returned chosen => (Chosen email chosen, d)
          end
      end
  | Chosen email chosen =>
      match insert_user_draw email (v_id chosen) now d with
      | (Raised e, d') => (Finished (Raised e), d')
      | (Returned _, d') =>
          (Finished
             (Returned (Some {| verse := dict_of_verse chosen;
                                already_drawn := false |})),
           d')
      end
  | Finished r => (t, d)
  end.

Definition finished (t : thread) : Prop :=
  match t with Finished _ => True | _ => False end.

#[global] Instance finished_dec t : Decision (finished t).
Proof. destruct t; simpl; apply _. Defined.

(** One statement of one unfinished request. *)
Inductive step : list thread * db → list thread * db → Prop :=
| step_thread ts1 t ts2 d g now t' d' :
    ¬ finished t →
    thread_step g now t d = (t', d') →
    step (ts1 ++ t :: ts2, d) (ts1 ++ t' :: ts2, d').

(** A schedule names, statement by statement, the request that runs
    next, with the clock and the random number it sees. *)
Definition schedule := list (nat * nat * timestamp).

Definition run_one (s : nat * nat * timestamp) (c : list thread * db)
  : list thread * db :=
  let '(i, g, now) := s in
  match c.1 !! i with
  | Some t =>
      let '(t', d') := thread_step g now t c.2 in (<[i := t']> c.1, d')
  | None => c
  end.

Definition run (sched : schedule) (c : list thread * db)
  : list thread * db :=
  foldl (λ c s, run_one s c) c sched.

(** The responses with [already_drawn = false]: the requests that
    created a row. *)
Definition created (t : thread) : Prop :=
  match t with
  | Finished (Returned (Some r)) => already_drawn r = false
  | _ => False
  end.

#[global] Instance created_dec t : Decision (created t).
Proof. destruct t as [| | |[[r|]|]]; simpl; apply _. Defined.

(** A schedule that only names requests that exist and have statements
    left. *)
Fixpoint valid (sched : schedule) (c : list thread * db) : bool :=
  match sched with
  | [] => true
  | s :: sched' =>
      match c.1 !! s.1.1 with
      | Some t => bool_decide (¬ finished t) && valid sched' (run_one s c)
      | None => false
      end
  end.

(** The statements a request has left. *)
Definition remaining (t : thread) : nat :=
  match t with
  | Start _ => 3
  | Checked _ => 2
  | Chosen _ _ => 1
  | Finished _ => 0
  end.

(** *** The states of a race for one identity

    [e] is the identity, [vs] the verses of the store.  Before any insert
    every request is under way; after the insert of [row], bound to the
    verse [w], a request is under way or has finished in one of three
    ways. *)
Definition pending (e : str) (vs : list verse_row) (t : thread) : Prop :=
  match t with
  | Start email => identity email = e
  | Checked email => email = e
  | Chosen email chosen => email = e ∧ chosen ∈ vs
  | Finished _ => False
  end.

Definition response (row : draw_row) (w : verse_row)
    (r : outcome (option draw_result)) : Prop :=
  r = Returned (Some {| verse := dict_of_verse w; already_drawn := false |})
  ∨ r = Returned (Some {| verse := dict_of_draw row w;
                          already_drawn := true |})
  ∨ r = Raised IntegrityError.

Definition settled (e : str) (vs : list verse_row) (row : draw_row)
    (w : verse_row) (t : thread) : Prop :=
  match t with
  | Finished r => response row w r
  | _ => pending e vs t
  end.

Definition race_inv (e : str) (d0 : db) (c : list thread * db) : Prop :=
  (c.2 = d0 ∧ Forall (pending e (verses d0)) c.1)
  ∨ ∃ row w,
      c.2 = with_draw d0 row
      ∧ ud_email row = e
      ∧ (ud_id row ∉ ud_id <$> user_draws d0)
      ∧ w ∈ verses d0
      ∧ ud_verse_id row = v_id w
      ∧ Forall (settled e (verses d0) row w) c.1
      ∧ length (filter created c.1) = 1%nat.

(** *** Requests for different identities

    The request for the identity [e] is under way and the ledger has no
    row for [e], or it has finished with a first draw and the ledger has
    the row. *)
Definition served (vs : list verse_row) (d : db) (e : str) (t : thread)
  : Prop :=
  match t with
  | Finished r =>
      ∃ w row,
        w ∈ vs ∧ row ∈ user_draws d
        ∧ ud_email row = e ∧ ud_verse_id row = v_id w
        ∧ r = Returned (Some {| verse := dict_of_verse w;
                                already_drawn := false |})
  | _ => pending e vs t ∧ e ∉ ud_email <$> user_draws d
  end.

Definition crowd_inv (es : list str) (d0 : db) (c : list thread * db)
  : Prop :=
  verses c.2 = verses d0
  ∧ schema_ok c.2
  ∧ Forall2 (served (verses d0) c.2) es c.1
  ∧ length (user_draws c.2)
    = (length (user_draws d0) + length (filter finished c.1))%nat.

End concurrent.

(** ** A small database to run the operations on *)

Module examples.
Import database.

(** ["L'Éternel est mon berger: je ne manquerai de rien."], with the
    capital E acute as the code point 201. *)
Definition psalm_text : str :=
  lit "L'" ++ [ascii_of_nat 201]
    ++ lit "ternel est mon berger: je ne manquerai de rien.".

Definition clock : timestamp := lit "2024-01-01 00:00:00".

Definition psalm_row : verse_row :=
  {| v_id := 1; v_text := psalm_text; v_reference := lit "Psaume 23:1";
     v_created_at := clock |}.

(** The database after [init_db] with the one verse of Psalm 23. *)
Definition psalm_db : db :=
  exec (Init (lit "pbkdf2") [(psalm_text, lit "Psaume 23:1")] clock)
    empty_db.

(** A store of two verses. *)
Definition two_verses_db : db :=
  exec (AddVerse (lit "Je puis tout par celui qui me fortifie.")
          (lit "Philippiens 4:13") clock)
    psalm_db.

(** [test@example.com] has drawn the psalm, and the psalm is then
    deleted, once from [psalm_db] and once from [two_verses_db]. *)
Definition orphan_empty_db : db :=
  exec_all [Draw (lit "test@example.com") 0 clock; DeleteVerse 1] psalm_db.

Definition orphan_db : db :=
  exec_all [Draw (lit "test@example.com") 0 clock; DeleteVerse 1]
    two_verses_db.

(** Two requests for [test@example.com] whose checks both run before
    either insert. *)
Definition race_start : list concurrent.thread * db :=
  ([concurrent.Start (lit "Test@Example.com");
    concurrent.Start (lit "test@example.com ")],
   two_verses_db).

Definition race_schedule : concurrent.schedule :=
  [ (0, 0, clock); (1, 0, clock);
    (0, 0, clock); (1, 1, clock);
    (0, 0, clock); (1, 0, clock) ]%nat.

(** Two requests for different addresses, statement by statement in
    turn. *)
Definition crowd : list str := [lit "a@b.co"; lit "B@C.de "].

Definition crowd_schedule : concurrent.schedule :=
  [ (0, 1, clock); (1, 0, clock);
    (0, 1, clock); (1, 0, clock);
    (1, 0, clock); (0, 1, clock) ]%nat.

(** What stands for [check_password_hash] when the operations are run:
    a hash is the password itself. *)
Definition plain_hash (pwhash password : str) : bool :=
  bool_decide (pwhash = password).

(** What stands for the two library calls on a value that is not a
    string: the [SELECT] finds no row, the hash check raises. *)
Definition no_row (v : app.json) (rows : list admin_row)
  : outcome (option admin_row) := Returned None.

Definition not_a_string (pwhash : str) (v : app.json) : outcome bool :=
  Raised AttributeError.

(** A client without the password. *)
Definition intruder : list app.action :=
  [ app.PostLogin
      (app.Credentials (app.JString (lit "admin"))
         (app.JString (lit "guess")));
    app.PostLogin (app.Json (app.JArray [app.JString (lit "username")]));
    app.PostVerse
      (app.Verse (app.JString (lit "t")) (app.JString (lit "r"))) clock;
    app.DeleteVerseById 1;
    app.DeleteVerseById (2 ^ 63);
    app.PostDraw (app.Email (app.JString (lit "a@b.co"))) 0 clock;
    app.PostDraw app.NotJson 0 clock ].

(** The session of a client that has logged in as the admin 1. *)
Definition admin_session : app.session :=
  {| app.admin_id := Some 1; app.admin_logged_in := Some true |}.

End examples.

(** * Properties *)

(** ** Strings *)

Section pystr_facts.
Import pystr.

Lemma lower_char_idemp c : lower_char (lower_char c) = lower_char c.
Proof. by destruct c as [[] [] [] [] [] [] [] []]. Qed.

Lemma is_space_lower_char c : is_space (lower_char c) = is_space c.
Proof. by destruct c as [[] [] [] [] [] [] [] []]. Qed.

Lemma lower_idemp s : lower (lower s) = lower s.
Proof.
  unfold lower. rewrite <-list_fmap_compose.
  apply list_fmap_ext; intros ? c _; simpl. apply lower_char_idemp.
Qed.

Lemma lower_reverse s : lower (reverse s) = reverse (lower s).
Proof. apply fmap_reverse. Qed.

Lemma lower_lstrip s : lower (lstrip s) = lstrip (lower s).
Proof.
  induction s as [|c s IH]; [done|]. simpl.
  rewrite is_space_lower_char. by destruct (is_space c).
Qed.

Lemma lower_rstrip s : lower (rstrip s) = rstrip (lower s).
Proof. unfold rstrip. by rewrite lower_reverse, lower_lstrip, lower_reverse. Qed.

Lemma lower_strip s : lower (strip s) = strip (lower s).
Proof. unfold strip. by rewrite lower_rstrip, lower_lstrip. Qed.

(** What [draw_verse_for_user] stores is a fixed point of the [lower()]
    that [check_user_draw] applies again. *)
Lemma lower_normalized s : lower (strip (lower s)) = strip (lower s).
Proof. by rewrite lower_strip, lower_idemp. Qed.

Lemma lstrip_spaces w s :
  Forall (λ c, is_space c = true) w → lstrip (w ++ s) = lstrip s.
Proof. induction 1 as [|c w Hc _ IH]; [done|]. simpl. by rewrite Hc. Qed.

Lemma lstrip_all_spaces w :
  Forall (λ c, is_space c = true) w → lstrip w = [].
Proof.
  intros Hw. rewrite <-(app_nil_r w). by rewrite lstrip_spaces.
Qed.

Lemma lstrip_app_spaces s w :
  Forall (λ c, is_space c = true) w →
  lstrip (s ++ w) = lstrip s ++ w ∨ (lstrip (s ++ w) = [] ∧ lstrip s = []).
Proof.
  intros Hw. induction s as [|c s IH]; simpl.
  - right. by rewrite lstrip_all_spaces.
  - destruct (is_space c); [done|by left].
Qed.

Lemma rstrip_spaces s w :
  Forall (λ c, is_space c = true) w → rstrip (s ++ w) = rstrip s.
Proof.
  intros Hw. unfold rstrip. rewrite reverse_app, lstrip_spaces; [done|].
  by apply Forall_reverse.
Qed.

(** Adding white space around a string does not change what [strip()]
    returns. *)
Lemma strip_padding w1 s w2 :
  Forall (λ c, is_space c = true) w1 →
  Forall (λ c, is_space c = true) w2 →
  strip (w1 ++ s ++ w2) = strip s.
Proof.
  intros H1 H2. unfold strip. rewrite lstrip_spaces by done.
  destruct (lstrip_app_spaces s w2 H2) as [-> | [-> ->]]; [|done].
  by apply rstrip_spaces.
Qed.

Lemma lstrip_no_space c s : is_space c = false → lstrip (c :: s) = c :: s.
Proof. simpl. by intros ->. Qed.

Lemma lstrip_snoc s1 c s2 :
  is_space c = false → lstrip (s1 ++ c :: s2) = lstrip s1 ++ c :: s2.
Proof.
  intros Hc. induction s1 as [|x s1 IH]; simpl; [by rewrite Hc|].
  by destruct (is_space x).
Qed.

Lemma rstrip_cons c s : is_space c = false → rstrip (c :: s) = c :: rstrip s.
Proof.
  intros Hc. unfold rstrip.
  by rewrite reverse_cons, lstrip_snoc, reverse_app.
Qed.

Lemma lstrip_lstrip s : lstrip (lstrip s) = lstrip s.
Proof.
  induction s as [|c s IH]; [done|]. simpl.
  destruct (is_space c) eqn:Hc; [done|]. by apply lstrip_no_space.
Qed.

Lemma rstrip_rstrip s : rstrip (rstrip s) = rstrip s.
Proof. unfold rstrip. by rewrite reverse_involutive, lstrip_lstrip. Qed.

Lemma lstrip_rstrip_lstrip s : lstrip (rstrip (lstrip s)) = rstrip (lstrip s).
Proof.
  induction s as [|c s IH]; [done|]. simpl.
  destruct (is_space c) eqn:Hc; [done|].
  rewrite rstrip_cons by done. by apply lstrip_no_space.
Qed.

Lemma strip_idemp s : strip (strip s) = strip s.
Proof. unfold strip. by rewrite lstrip_rstrip_lstrip, rstrip_rstrip. Qed.

End pystr_facts.

(** ** The matcher decides the language *)

Section regex_facts.
Import re.

Lemma lang_void_inv s : ¬ lang Void s.
Proof. inversion 1. Qed.

Lemma lang_eps_inv s : lang Eps s ↔ s = [].
Proof. split; [by inversion 1|intros ->; constructor]. Qed.

Lemma lang_class_inv p s : lang (Class p) s ↔ ∃ c, s = [c] ∧ p c = true.
Proof.
  split; [inversion 1; eauto|]. intros (c & -> & Hc). by constructor.
Qed.

Lemma lang_cat_inv r1 r2 s :
  lang (Cat r1 r2) s ↔ ∃ s1 s2, s = s1 ++ s2 ∧ lang r1 s1 ∧ lang r2 s2.
Proof.
  split; [inversion 1; eauto|]. intros (s1 & s2 & -> & H1 & H2).
  by constructor.
Qed.

Lemma lang_alt_inv r1 r2 s : lang (Alt r1 r2) s ↔ lang r1 s ∨ lang r2 s.
Proof.
  split; [inversion 1; eauto|].
  intros [H|H]; [by apply lang_alt_l|by apply lang_alt_r].
Qed.

(** A non-empty word of [r*] starts with a non-empty word of [r]. *)
Lemma lang_star_cons_inv r c s :
  lang (Star r) (c :: s) →
  ∃ s1 s2, s = s1 ++ s2 ∧ lang r (c :: s1) ∧ lang (Star r) s2.
Proof.
  intros H. remember (Star r) as r' eqn:Hr. remember (c :: s) as w eqn:Hw.
  revert Hr Hw.
  induction H as [| | | | | |r0 s1 s2 H1 _ H2 IH2]; try discriminate.
  intros [= ->] Hw. destruct s1 as [|c1 s1]; simpl in Hw.
  - by apply IH2.
  - injection Hw as -> <-. eauto.
Qed.

Lemma nullable_lang r : nullable r = true ↔ lang r [].
Proof.
  induction r as [| |p|r1 IH1 r2 IH2|r1 IH1 r2 IH2|r IH]; simpl.
  - split; [done|]. intros H. by apply lang_void_inv in H.
  - split; [constructor|done].
  - split; [done|]. intros (c & ? & _)%lang_class_inv. done.
  - rewrite andb_true_iff, IH1, IH2, lang_cat_inv. split.
    + intros [H1 H2]. by exists [], [].
    + intros (s1 & s2 & Hs & H1 & H2).
      symmetry in Hs. apply app_eq_nil in Hs as [-> ->]. done.
  - by rewrite orb_true_iff, IH1, IH2, lang_alt_inv.
  - split; [constructor|done].
Qed.

Lemma deriv_lang c r s : lang (deriv c r) s ↔ lang r (c :: s).
Proof.
  revert s.
  induction r as [| |p|r1 IH1 r2 IH2|r1 IH1 r2 IH2|r IH]; intros s; simpl.
  - split; intros H; by apply lang_void_inv in H.
  - split; intros H; [by apply lang_void_inv in H|].
    by apply lang_eps_inv in H.
  - destruct (p c) eqn:Hp.
    + rewrite lang_eps_inv, lang_class_inv. split.
      * intros ->. eauto.
      * intros (c' & [= -> ->] & _). done.
    + split; intros H; [by apply lang_void_inv in H|].
      apply lang_class_inv in H as (c' & [= -> ->] & ?). congruence.
  - assert (lang (Cat (deriv c r1) r2) s ↔
            ∃ s1 s2, s = s1 ++ s2 ∧ lang r1 (c :: s1) ∧ lang r2 s2) as Hcat.
    { rewrite lang_cat_inv. by setoid_rewrite IH1. }
    destruct (nullable r1) eqn:Hn.
    + rewrite lang_alt_inv, Hcat, IH2, lang_cat_inv. split.
      * intros [(s1 & s2 & -> & H1 & H2)|H2].
        -- by exists (c :: s1), s2.
        -- exists [], (c :: s). by rewrite <-nullable_lang.
      * intros ([|c1 s1] & s2 & Hs & H1 & H2); simpl in Hs.
        -- right. by rewrite Hs.
        -- injection Hs as -> ->. left. eauto.
    + rewrite Hcat, lang_cat_inv. split.
      * intros (s1 & s2 & -> & H1 & H2). by exists (c :: s1), s2.
      * intros ([|c1 s1] & s2 & Hs & H1 & H2); simpl in Hs.
        -- apply nullable_lang in H1. congruence.
        -- injection Hs as -> ->. eauto.
  - by rewrite !lang_alt_inv, IH1, IH2.
  - rewrite lang_cat_inv. split.
    + intros (s1 & s2 & -> & H1 & H2). apply IH in H1.
      by apply (lang_star_cons r (c :: s1) s2).
    + intros (s1 & s2 & -> & H1 & H2)%lang_star_cons_inv.
      exists s1, s2. by rewrite IH.
Qed.

Lemma fullmatch_lang r s : fullmatch r s = true ↔ lang r s.
Proof.
  revert r. induction s as [|c s IH]; intros r; simpl.
  - apply nullable_lang.
  - by rewrite IH, deriv_lang.
Qed.

Lemma lang_star_class p s :
  lang (Star (Class p)) s ↔ Forall (λ c, p c = true) s.
Proof.
  split.
  - induction s as [|c s IH]; [constructor|].
    intros (s1 & s2 & -> & H1 & H2)%lang_star_cons_inv.
    apply lang_class_inv in H1 as (c' & [= -> ->] & Hc). auto.
  - induction 1 as [|c s Hc _ IH]; [constructor|].
    apply (lang_star_cons _ [c] s); [by constructor|done].
Qed.

Lemma lang_plus_class p s :
  lang (plus (Class p)) s ↔ s ≠ [] ∧ Forall (λ c, p c = true) s.
Proof.
  unfold plus. rewrite lang_cat_inv. split.
  - intros (s1 & s2 & -> & (c & -> & Hc)%lang_class_inv & H2%lang_star_class).
    split; [done|by constructor].
  - intros [Hne Hs]. destruct Hs as [|c s Hc Hs]; [done|].
    exists [c], s. split; [done|]. split; [by constructor|].
    by apply lang_star_class.
Qed.

Lemma lang_at_least_two_class p s :
  lang (at_least_two (Class p)) s ↔
  (2 ≤ length s)%nat ∧ Forall (λ c, p c = true) s.
Proof.
  unfold at_least_two. rewrite lang_cat_inv. split.
  - intros (s1 & s2 & -> & (c & -> & Hc)%lang_class_inv & H2).
    apply (lang_plus_class p) in H2 as [Hne H2].
    split; [destruct s2; simpl; [done|lia]|by constructor].
  - intros [Hlen Hs]. destruct Hs as [|c s Hc Hs]; [simpl in Hlen; lia|].
    exists [c], s. split; [done|]. split; [by constructor|].
    apply (lang_plus_class p). split; [|done].
    destruct s; simpl in Hlen; [lia|done].
Qed.

Lemma chop_newline_Some s s' :
  chop_newline s = Some s' ↔ s = s' ++ [pystr.LF].
Proof.
  unfold chop_newline. split.
  - destruct (reverse s) as [|c t] eqn:Hr; [done|].
    destruct (Nat.eqb (pystr.code c) 10) eqn:Hc; [|done].
    intros [= <-]. apply Nat.eqb_eq in Hc.
    rewrite <-(reverse_involutive s), Hr, reverse_cons.
    do 2 f_equal. unfold pystr.code in Hc. unfold pystr.LF.
    by rewrite <-Hc, ascii_nat_embedding.
  - intros ->. by rewrite reverse_snoc, reverse_involutive.
Qed.

(** [re.match] on an anchored pattern accepts the words of the language
    and those words followed by one line feed. *)
Lemma match_anchored_spec r s :
  match_anchored r s = true ↔
  lang r s ∨ ∃ s', s = s' ++ [pystr.LF] ∧ lang r s'.
Proof.
  unfold match_anchored. rewrite orb_true_iff, fullmatch_lang. split.
  - intros [H|H]; [by left|right].
    destruct (chop_newline s) as [s'|] eqn:Hs; [|done].
    apply chop_newline_Some in Hs. apply fullmatch_lang in H. eauto.
  - intros [H|(s' & Hs & H)]; [by left|right].
    apply chop_newline_Some in Hs. rewrite Hs. by apply fullmatch_lang.
Qed.

End regex_facts.

(** ** The e-mail check *)

Section email_facts.
Import app.

Lemma one_of_single (x : string) c a :
  lit x = [a] → one_of (lit x) c = true ↔ c = a.
Proof.
  intros ->. unfold one_of. rewrite bool_decide_eq_true.
  by rewrite list_elem_of_singleton.
Qed.

(** The pattern of the source denotes the shape of the specification. *)
Lemma pattern_lang s : re.lang pattern s ↔ email_shape s.
Proof.
  unfold pattern, email_shape. rewrite lang_cat_inv.
  setoid_rewrite lang_plus_class. setoid_rewrite lang_cat_inv.
  setoid_rewrite lang_class_inv. setoid_rewrite lang_cat_inv.
  setoid_rewrite lang_plus_class. setoid_rewrite lang_cat_inv.
  setoid_rewrite lang_class_inv. setoid_rewrite lang_at_least_two_class.
  split.
  - intros (local & ? & -> & [Hl1 Hl2] & ? & ? & -> & (c1 & -> & Hc1)
            & host & ? & -> & [Hh1 Hh2] & ? & tld & -> & (c2 & -> & Hc2)
            & Ht1 & Ht2).
    apply (one_of_single "@" _ "@"%char) in Hc1 as ->; [|done].
    apply (one_of_single "." _ "."%char) in Hc2 as ->; [|done].
    by exists local, host, tld.
  - intros (local & host & tld & -> & Hl1 & Hl2 & Hh1 & Hh2 & Ht1 & Ht2).
    exists local, (lit "@" ++ host ++ lit "." ++ tld).
    split; [done|]. split; [done|].
    exists (lit "@"), (host ++ lit "." ++ tld).
    split; [done|]. split; [by exists "@"%char|].
    exists host, (lit "." ++ tld).
    split; [done|]. split; [done|].
    exists (lit "."), tld. split; [done|]. split; [by exists "."%char|done].
Qed.

(** What [is_valid_email] accepts, exactly. *)
Lemma is_valid_email_spec s :
  is_valid_email s = true ↔
  email_shape s ∨ ∃ s', s = s' ++ [pystr.LF] ∧ email_shape s'.
Proof.
  unfold is_valid_email. rewrite match_anchored_spec, pattern_lang.
  by setoid_rewrite pattern_lang.
Qed.

Lemma email_shape_last s :
  email_shape s → ∃ s' c, s = s' ++ [c] ∧ letter c = true.
Proof.
  intros (local & host & tld & -> & _ & _ & _ & _ & Hlen & Htld).
  destruct (decide (tld = [])) as [->|Hne]; [simpl in Hlen; lia|].
  apply exists_last in Hne as (t & c & ->).
  apply Forall_app in Htld as [_ Hc]. rewrite Forall_singleton in Hc.
  exists (local ++ lit "@" ++ host ++ lit "." ++ t), c.
  split; [by rewrite <-!(assoc_L (++))|done].
Qed.

Lemma lstrip_head c s s' :
  pystr.lstrip s = c :: s' → pystr.is_space c = false.
Proof.
  induction s as [|x s IH]; [done|]. simpl.
  destruct (pystr.is_space x) eqn:Hx; [done|]. by intros [= <- _].
Qed.

Lemma rstrip_last s s' c :
  pystr.rstrip s = s' ++ [c] → pystr.is_space c = false.
Proof.
  unfold pystr.rstrip. intros H.
  apply (f_equal reverse) in H.
  rewrite reverse_involutive, reverse_snoc in H.
  by apply lstrip_head in H.
Qed.

(** On what the route passes to it, the check is the shape. *)
Lemma is_valid_email_strip s :
  is_valid_email (pystr.strip s) = true ↔ email_shape (pystr.strip s).
Proof.
  rewrite is_valid_email_spec. split; [|by left].
  intros [H|(s' & Hs & _)]; [done|].
  by apply rstrip_last in Hs.
Qed.

End email_facts.

(** ** Tables and keys *)

Section key_facts.
Context {A K : Type} `{EqDecision K} (f : A → K).

Lemma filter_key_absent (l : list A) k :
  k ∉ f <$> l → filter (λ y, f y = k) l = [].
Proof.
  induction l as [|a l IH]; [done|]. rewrite fmap_cons, not_elem_of_cons.
  intros [Hne Hl]. rewrite filter_cons_False by congruence. auto.
Qed.

Lemma filter_key_present (l : list A) k :
  k ∈ f <$> l → filter (λ y, f y = k) l ≠ [].
Proof.
  intros (x & -> & Hx)%list_elem_of_fmap Hnil.
  by apply (filter_nil_not_elem_of _ _ x) in Hnil.
Qed.

(** A key column without duplicates selects one row. *)
Lemma filter_key_unique (l : list A) x :
  NoDup (f <$> l) → x ∈ l → filter (λ y, f y = f x) l = [x].
Proof.
  induction l as [|a l IH]; [by intros _ ?%elem_of_nil|].
  rewrite fmap_cons, NoDup_cons. intros [Ha Hl] [->|Hx]%elem_of_cons.
  - rewrite filter_cons_True by done. by rewrite filter_key_absent.
  - rewrite filter_cons_False; [by apply IH|].
    intros Heq. apply Ha. rewrite Heq. by apply list_elem_of_fmap_2.
Qed.

End key_facts.

Lemma next_rowid_fresh seq ids : database.next_rowid seq ids ∉ ids.
Proof.
  unfold database.next_rowid. intros Hin.
  assert (∀ i, i ∈ ids → i ≤ foldr Z.max 0 ids) as Hmax.
  { clear. induction ids as [|j ids IH]; intros i; [by intros ?%elem_of_nil|].
    intros [->|Hi]%elem_of_cons; simpl; [lia|]. specialize (IH i Hi). lia. }
  apply Hmax in Hin. lia.
Qed.

(** ** The statements of the ledger *)

Section database_facts.
Import database.

Lemma bind_int_in_range z : sqlite_int z → bind_int z = Returned z.
Proof. intros Hz. unfold bind_int. by rewrite decide_True. Qed.

Lemma bind_int_overflow z : ¬ sqlite_int z → bind_int z = Raised OverflowError.
Proof. intros Hz. unfold bind_int. by rewrite decide_False. Qed.

Lemma delete_verse_in_range verse_id d :
  sqlite_int verse_id →
  delete_verse verse_id d =
    (Returned (bool_decide (0 < (delete_from_verses verse_id d).1)%nat),
     (delete_from_verses verse_id d).2).
Proof. intros Hz. unfold delete_verse. by rewrite bind_int_in_range. Qed.

Lemma delete_verse_overflow verse_id d :
  ¬ sqlite_int verse_id → delete_verse verse_id d = (Raised OverflowError, d).
Proof. intros Hz. unfold delete_verse. by rewrite bind_int_overflow. Qed.

Lemma delete_verse_cases verse_id d :
  (delete_verse verse_id d).2 = d
  ∨ (delete_verse verse_id d).2 = (delete_from_verses verse_id d).2.
Proof.
  destruct (decide (sqlite_int verse_id)).
  - right. by rewrite delete_verse_in_range.
  - left. by rewrite delete_verse_overflow.
Qed.

Lemma delete_verse_user_draws verse_id d :
  user_draws (delete_verse verse_id d).2 = user_draws d.
Proof. by destruct (delete_verse_cases verse_id d) as [-> | ->]. Qed.

Lemma delete_verse_admin verse_id d :
  admin (delete_verse verse_id d).2 = admin d.
Proof. by destruct (delete_verse_cases verse_id d) as [-> | ->]. Qed.

Lemma delete_verse_verses_seq verse_id d :
  verses_seq (delete_verse verse_id d).2 = verses_seq d.
Proof. by destruct (delete_verse_cases verse_id d) as [-> | ->]. Qed.

Lemma get_verse_by_id_in_range verse_id d :
  sqlite_int verse_id →
  get_verse_by_id verse_id d = Returned (select_verse verse_id d).
Proof. intros Hz. unfold get_verse_by_id. by rewrite bind_int_in_range. Qed.

Lemma get_verse_by_id_overflow verse_id d :
  ¬ sqlite_int verse_id → get_verse_by_id verse_id d = Raised OverflowError.
Proof. intros Hz. unfold get_verse_by_id. by rewrite bind_int_overflow. Qed.

Lemma same_verse_draw ud v : same_verse (dict_of_verse v) (dict_of_draw ud v).
Proof. done. Qed.

Lemma identity_lower email : pystr.lower (identity email) = identity email.
Proof. apply lower_normalized. Qed.

Lemma insert_user_draw_fresh email vid now d :
  email ∉ ud_email <$> user_draws d →
  insert_user_draw email vid now d =
    (Returned (),
     with_draw d
       {| ud_id := next_rowid (user_draws_seq d) (ud_id <$> user_draws d);
          ud_email := email; ud_verse_id := vid; ud_drawn_at := now |}).
Proof. intros H. unfold insert_user_draw. by rewrite decide_False. Qed.

Lemma insert_user_draw_taken email vid now d :
  email ∈ ud_email <$> user_draws d →
  insert_user_draw email vid now d = (Raised IntegrityError, d).
Proof. intros H. unfold insert_user_draw. by rewrite decide_True. Qed.

Lemma check_user_draw_inv email d r :
  check_user_draw email d = Some r →
  ∃ ud v, ud ∈ user_draws d ∧ ud_email ud = pystr.lower email
          ∧ v ∈ verses d ∧ v_id v = ud_verse_id ud ∧ r = dict_of_draw ud v.
Proof.
  unfold check_user_draw. intros H%head_Some_elem_of.
  apply list_elem_of_bind in H as (ud & H & [Hmail Hud]%list_elem_of_filter).
  apply list_elem_of_bind in H as (v & H & [Hid Hv]%list_elem_of_filter).
  apply list_elem_of_singleton in H. eauto 10.
Qed.

Lemma check_user_draw_hit email d ud v :
  schema_ok d →
  ud ∈ user_draws d → ud_email ud = pystr.lower email →
  v ∈ verses d → v_id v = ud_verse_id ud →
  check_user_draw email d = Some (dict_of_draw ud v).
Proof.
  intros [Hpk _ Huniq _ _] Hud Hmail Hv Hid. unfold check_user_draw.
  rewrite <-Hmail, (filter_key_unique ud_email) by done.
  rewrite bind_singleton.
  by rewrite <-Hid, (filter_key_unique v_id) by done.
Qed.

Lemma check_user_draw_no_row email d :
  pystr.lower email ∉ ud_email <$> user_draws d →
  check_user_draw email d = None.
Proof.
  intros H. unfold check_user_draw.
  by rewrite (filter_key_absent ud_email) by done.
Qed.

(** A ledger row whose verse is gone does not show in the join. *)
Lemma check_user_draw_no_verse email d :
  (∀ ud, ud ∈ user_draws d → ud_email ud = pystr.lower email →
         ud_verse_id ud ∉ v_id <$> verses d) →
  check_user_draw email d = None.
Proof.
  intros H. destruct (check_user_draw email d) as [r|] eqn:Hr; [|done].
  apply check_user_draw_inv in Hr as (ud & v & Hud & Hmail & Hv & Hid & _).
  destruct (H ud Hud Hmail). rewrite <-Hid. by apply list_elem_of_fmap_2.
Qed.

Lemma choice_nonempty {A} g (l : list A) :
  l ≠ [] → ∃ x, l !! random.randbelow g (length l) = Some x
                ∧ random.choice g l = Returned x.
Proof.
  intros Hl. unfold random.choice.
  destruct (lookup_lt_is_Some_2 l (random.randbelow g (length l))) as [x Hx].
  - unfold random.randbelow. apply Nat.mod_upper_bound.
    by destruct l.
  - exists x. by rewrite Hx.
Qed.

(** The four ways through [draw_verse_for_user]. *)

Lemma draw_repeat email g now d ud v :
  schema_ok d →
  ud ∈ user_draws d → ud_email ud = identity email →
  v ∈ verses d → v_id v = ud_verse_id ud →
  draw_verse_for_user email g now d =
    (Returned (Some {| verse := dict_of_draw ud v; already_drawn := true |}),
     d).
Proof.
  intros Hok Hud Hmail Hv Hid. unfold draw_verse_for_user.
  fold (identity email).
  rewrite (check_user_draw_hit _ d ud v); [done..| |done|done].
  by rewrite identity_lower.
Qed.

Lemma draw_empty email g now d :
  verses d = [] → draw_verse_for_user email g now d = (Returned None, d).
Proof.
  intros Hv. unfold draw_verse_for_user.
  rewrite check_user_draw_no_verse; [by rewrite Hv|].
  intros ud _ _. rewrite Hv. by intros ?%elem_of_nil.
Qed.

Lemma draw_first email g now d :
  identity email ∉ ud_email <$> user_draws d →
  verses d ≠ [] →
  ∃ chosen,
    verses d !! random.randbelow g (length (verses d)) = Some chosen
    ∧ draw_verse_for_user email g now d =
        (Returned (Some {| verse := dict_of_verse chosen;
                           already_drawn := false |}),
         with_draw d
           {| ud_id := next_rowid (user_draws_seq d)
                         (ud_id <$> user_draws d);
              ud_email := identity email; ud_verse_id := v_id chosen;
              ud_drawn_at := now |}).
Proof.
  intros Hnew Hv. destruct (choice_nonempty g (verses d) Hv) as (c & Hc & Hch).
  exists c. split; [done|]. unfold draw_verse_for_user.
  fold (identity email).
  rewrite check_user_draw_no_row by (by rewrite identity_lower).
  rewrite Hch, insert_user_draw_fresh by done.
  by destruct (verses d).
Qed.

Lemma draw_dangling email g now d :
  identity email ∈ ud_email <$> user_draws d →
  (∀ ud, ud ∈ user_draws d → ud_email ud = identity email →
         ud_verse_id ud ∉ v_id <$> verses d) →
  verses d ≠ [] →
  draw_verse_for_user email g now d = (Raised IntegrityError, d).
Proof.
  intros Hrow Hgone Hv.
  destruct (choice_nonempty g (verses d) Hv) as (c & Hc & Hch).
  unfold draw_verse_for_user. fold (identity email).
  rewrite check_user_draw_no_verse
    by (intros ud; rewrite identity_lower; apply Hgone).
  rewrite Hch, insert_user_draw_taken by done.
  by destruct (verses d).
Qed.

End database_facts.

(** ** The schema holds in every state *)

Section schema_facts.
Import database.

Lemma schema_ok_empty : schema_ok empty_db.
Proof. split; simpl; constructor. Qed.

Lemma NoDup_snoc_fresh {A} (l : list A) x : NoDup l → x ∉ l → NoDup (l ++ [x]).
Proof.
  intros Hl Hx. apply NoDup_app. split; [done|]. split.
  - intros y Hy ->%list_elem_of_singleton. done.
  - apply NoDup_singleton.
Qed.

Lemma insert_verse_ok text reference now d :
  schema_ok d → schema_ok (insert_verse text reference now d).2.
Proof.
  intros [H1 H2 H3 H4 H5]. split; simpl; try done.
  rewrite fmap_app. apply NoDup_snoc_fresh; [done|]. apply next_rowid_fresh.
Qed.

Lemma insert_verses_ok rows now d :
  schema_ok d → schema_ok (insert_verses rows now d).
Proof.
  revert d. induction rows as [|[text reference] rows IH]; intros d Hd;
    [done|]. simpl. by apply IH, insert_verse_ok.
Qed.

Lemma insert_verses_user_draws rows now d :
  user_draws (insert_verses rows now d) = user_draws d.
Proof.
  revert d. induction rows as [|[text reference] rows IH]; intros d; [done|].
  simpl. by rewrite IH.
Qed.

Lemma insert_admin_ok username password_hash d :
  schema_ok d → schema_ok (insert_admin username password_hash d).2.
Proof.
  intros [H1 H2 H3 H4 H5]. unfold insert_admin.
  destruct (decide _) as [|Hnew]; [done|]. split; simpl; try done.
  - rewrite fmap_app. apply NoDup_snoc_fresh; [done|]. apply next_rowid_fresh.
  - rewrite fmap_app. by apply NoDup_snoc_fresh.
Qed.

Lemma insert_admin_user_draws username password_hash d :
  user_draws (insert_admin username password_hash d).2 = user_draws d.
Proof. unfold insert_admin. by destruct (decide _). Qed.

Lemma init_db_ok password_hash sample_verses now d :
  schema_ok d → schema_ok (init_db password_hash sample_verses now d).2.
Proof.
  intros Hd. unfold init_db.
  destruct (decide (length (admin d) = 0%nat)).
  - pose proof (insert_admin_ok (lit "admin") password_hash d Hd) as Ha.
    destruct (insert_admin _ _ d) as [[[]|err] d1]; simpl in *; [|done].
    destruct (decide _); simpl; [by apply insert_verses_ok|done].
  - destruct (decide _); simpl; [by apply insert_verses_ok|done].
Qed.

Lemma init_db_user_draws password_hash sample_verses now d :
  user_draws (init_db password_hash sample_verses now d).2 = user_draws d.
Proof.
  unfold init_db. destruct (decide (length (admin d) = 0%nat)).
  - pose proof (insert_admin_user_draws (lit "admin") password_hash d) as Ha.
    destruct (insert_admin _ _ d) as [[[]|err] d1]; simpl in *; [|done].
    destruct (decide _); simpl; [by rewrite insert_verses_user_draws|done].
  - destruct (decide _); simpl; [by rewrite insert_verses_user_draws|done].
Qed.

Lemma delete_verse_ok verse_id d :
  schema_ok d → schema_ok (delete_verse verse_id d).2.
Proof.
  destruct (delete_verse_cases verse_id d) as [-> | ->]; [done|].
  intros [H1 H2 H3 H4 H5]. split; simpl; try done.
  apply (NoDup_fmap_2_strong v_id).
  - intros x y [_ Hx]%list_elem_of_filter [_ Hy]%list_elem_of_filter Heq.
    apply list_elem_of_lookup in Hx as [i Hi].
    apply list_elem_of_lookup in Hy as [j Hj].
    assert (i = j) as ->; [|congruence].
    eapply (NoDup_lookup (v_id <$> verses d)); [done|..];
      rewrite list_lookup_fmap; [by rewrite Hi|by rewrite Hj, Heq].
  - apply NoDup_filter. by apply NoDup_fmap_1 in H1.
Qed.

Lemma with_draw_ok d row :
  schema_ok d →
  ud_email row ∉ ud_email <$> user_draws d →
  ud_id row ∉ ud_id <$> user_draws d →
  schema_ok (with_draw d row).
Proof.
  intros [H1 H2 H3 H4 H5] Hmail Hid. split; simpl; try done.
  - rewrite fmap_app. by apply NoDup_snoc_fresh.
  - rewrite fmap_app. by apply NoDup_snoc_fresh.
Qed.

(** What a draw does to the database: nothing, or one new row for the
    identity, which had none. *)
Lemma draw_effect email g now d :
  (draw_verse_for_user email g now d).2 = d
  ∨ ∃ row, (draw_verse_for_user email g now d).2 = with_draw d row
           ∧ ud_email row = identity email
           ∧ (ud_email row ∉ ud_email <$> user_draws d)
           ∧ (ud_id row ∉ ud_id <$> user_draws d).
Proof.
  unfold draw_verse_for_user. fold (identity email).
  destruct (check_user_draw _ d); [by left|].
  destruct (verses d) as [|v vs] eqn:Hv; [by left|].
  destruct (random.choice g (v :: vs)) as [chosen|]; [|by left].
  destruct (decide (identity email ∈ ud_email <$> user_draws d)).
  - rewrite insert_user_draw_taken by done. by left.
  - rewrite insert_user_draw_fresh by done. right. eexists. split; [done|].
    simpl. split; [done|]. split; [done|]. apply next_rowid_fresh.
Qed.

Lemma draw_ok email g now d :
  schema_ok d → schema_ok (draw_verse_for_user email g now d).2.
Proof.
  intros Hd. destruct (draw_effect email g now d)
    as [->|(row & -> & _ & Hmail & Hid)]; [done|]. by apply with_draw_ok.
Qed.

Lemma exec_ok o d : schema_ok d → schema_ok (exec o d).
Proof.
  destruct o; simpl.
  - apply init_db_ok.
  - apply insert_verse_ok.
  - apply delete_verse_ok.
  - apply draw_ok.
Qed.

Lemma exec_all_ok ops d : schema_ok d → schema_ok (exec_all ops d).
Proof.
  revert d. induction ops as [|o ops IH]; intros d Hd; [done|].
  simpl. by apply IH, exec_ok.
Qed.

(** The ledger only grows, and only at its end. *)
Lemma exec_user_draws o d : user_draws d `prefix_of` user_draws (exec o d).
Proof.
  destruct o; simpl.
  - by rewrite init_db_user_draws.
  - done.
  - by rewrite delete_verse_user_draws.
  - destruct (draw_effect email g now d) as [->|(row & -> & _)]; [done|].
    simpl. by apply prefix_app_r.
Qed.

Lemma exec_all_user_draws ops d :
  user_draws d `prefix_of` user_draws (exec_all ops d).
Proof.
  revert d. induction ops as [|o ops IH]; intros d; [done|].
  simpl. etrans; [apply (exec_user_draws o)|apply IH].
Qed.

Lemma admin_op_user_draws o d :
  admin_op o → user_draws (exec o d) = user_draws d.
Proof.
  destruct o; simpl;
    [by rewrite init_db_user_draws|done|by rewrite delete_verse_user_draws
    |done].
Qed.

Lemma admin_ops_user_draws ops d :
  Forall admin_op ops → user_draws (exec_all ops d) = user_draws d.
Proof.
  intros Hops. revert d.
  induction Hops as [|o ops Ho _ IH]; intros d; [done|].
  simpl. by rewrite IH, admin_op_user_draws.
Qed.

(** [UNIQUE] on the e-mail column: an identity has at most one row. *)
Lemma draws_of_at_most_one email d :
  schema_ok d → (length (draws_of email d) ≤ 1)%nat.
Proof.
  intros [_ _ Huniq _ _]. unfold draws_of.
  destruct (decide (email ∈ ud_email <$> user_draws d)) as [Hin|Hout].
  - apply list_elem_of_fmap in Hin as (ud & -> & Hud).
    by rewrite (filter_key_unique ud_email).
  - rewrite (filter_key_absent ud_email) by done. simpl. lia.
Qed.

Lemma draws_of_nil email d :
  draws_of email d = [] ↔ email ∉ ud_email <$> user_draws d.
Proof.
  unfold draws_of. split.
  - intros Hnil (ud & -> & Hud)%list_elem_of_fmap.
    by apply (filter_nil_not_elem_of _ _ ud) in Hnil.
  - apply filter_key_absent.
Qed.

End schema_facts.

(** ** Drawing twice *)

Section draw_twice.
Import database.

Lemma identity_strip s : identity (pystr.strip s) = identity s.
Proof. unfold identity. by rewrite lower_strip, strip_idemp. Qed.

Lemma draws_of_with_draw email d row :
  draws_of email (with_draw d row) =
    draws_of email d ++ (if decide (ud_email row = email) then [row] else []).
Proof.
  unfold draws_of. simpl. by rewrite filter_app.
Qed.

(** A first draw under one spelling of an identity, then a draw under
    another spelling of it. *)
Lemma draw_then_draw email1 email2 g1 now1 g2 now2 d :
  identity email1 = identity email2 →
  schema_ok d → verses d ≠ [] → draws_of (identity email1) d = [] →
  ∃ row chosen,
    chosen ∈ verses d
    ∧ draw_verse_for_user email1 g1 now1 d =
        (Returned (Some {| verse := dict_of_verse chosen;
                           already_drawn := false |}), with_draw d row)
    ∧ draw_verse_for_user email2 g2 now2 (with_draw d row) =
        (Returned (Some {| verse := dict_of_draw row chosen;
                           already_drawn := true |}), with_draw d row)
    ∧ draws_of (identity email1) (with_draw d row) = [row].
Proof.
  intros Hid Hok Hv Hnew.
  destruct (draw_first email1 g1 now1 d) as (chosen & Hc & Hdraw);
    [by apply draws_of_nil|done|].
  apply list_elem_of_lookup_2 in Hc.
  eexists _, chosen. split; [done|]. split; [exact Hdraw|].
  split.
  - apply draw_repeat; simpl; try done.
    + apply with_draw_ok; simpl; [done|by apply draws_of_nil|].
      apply next_rowid_fresh.
    + apply elem_of_app. right. by apply list_elem_of_singleton.
  - rewrite draws_of_with_draw, Hnew. simpl. by rewrite decide_True.
Qed.

End draw_twice.

(** C1.  For an identity that has not drawn yet and a store that is not
    empty, the first [draw_verse_for_user] returns a verse of the store with
    [already_drawn = False] and adds the one ledger row of the identity; the
    second returns the same verse (the same id, text and reference) with
    [already_drawn = True] and leaves the database as it is. *)
Theorem draw_twice_same_verse email g1 now1 g2 now2 d :
  database.schema_ok d →
  database.verses d ≠ [] →
  database.draws_of (database.identity email) d = [] →
  ∃ v1 v2 d1,
    database.draw_verse_for_user email g1 now1 d =
      (Returned (Some {| database.verse := v1;
                         database.already_drawn := false |}), d1)
    ∧ database.draw_verse_for_user email g2 now2 d1 =
      (Returned (Some {| database.verse := v2;
                         database.already_drawn := true |}), d1)
    ∧ database.same_verse v1 v2
    ∧ length (database.draws_of (database.identity email) d1) = 1%nat
    ∧ length (database.user_draws d1) = S (length (database.user_draws d)).
Proof.
  intros Hok Hv Hnew.
  destruct (draw_then_draw email email g1 now1 g2 now2 d)
    as (row & chosen & Hc & H1 & H2 & Hrows); [done..|].
  eexists _, _, _. split; [exact H1|]. split; [exact H2|].
  split; [apply same_verse_draw|]. split; [by rewrite Hrows|].
  simpl. rewrite length_app. simpl. lia.
Qed.

(** The example of the specification: the store holds the psalm,
    [draw("Test@Example.com")] returns it as a first draw and
    [draw("test@example.com ")] returns it as already drawn. *)
Example draw_psalm_first :
  (database.draw_verse_for_user (lit "Test@Example.com") 0 examples.clock
     examples.psalm_db).1
  = Returned (Some {| database.verse :=
                        database.dict_of_verse examples.psalm_row;
                      database.already_drawn := false |}).
Proof. reflexivity. Qed.

Example draw_psalm_again :
  (database.draw_verse_for_user (lit "test@example.com ") 5 examples.clock
     (database.exec (database.Draw (lit "Test@Example.com") 0 examples.clock)
        examples.psalm_db)).1
  = Returned
      (Some {| database.verse :=
                 {| database.d_id := 1;
                    database.d_text := examples.psalm_text;
                    database.d_reference := lit "Psaume 23:1";
                    database.d_created_at := None;
                    database.d_drawn_at := Some examples.clock |};
               database.already_drawn := true |}).
Proof. reflexivity. Qed.

Lemma schema_ok_examples :
  database.schema_ok examples.psalm_db
  ∧ database.schema_ok examples.two_verses_db
  ∧ database.schema_ok examples.orphan_db
  ∧ database.schema_ok examples.orphan_empty_db.
Proof.
  assert (database.schema_ok examples.psalm_db) as H1
    by apply exec_ok, schema_ok_empty.
  assert (database.schema_ok examples.two_verses_db) as H2
    by by apply exec_ok.
  split; [done|]. split; [done|]. split; by apply exec_all_ok.
Qed.

Lemma draw_twice_same_verse_witness :
  ∃ v1 v2 d1,
    database.draw_verse_for_user (lit "Test@Example.com") 0 examples.clock
        examples.psalm_db =
      (Returned (Some {| database.verse := v1;
                         database.already_drawn := false |}), d1)
    ∧ database.draw_verse_for_user (lit "Test@Example.com") 7 examples.clock
        d1 =
      (Returned (Some {| database.verse := v2;
                         database.already_drawn := true |}), d1)
    ∧ database.same_verse v1 v2
    ∧ length (database.draws_of (database.identity (lit "Test@Example.com"))
                d1) = 1%nat
    ∧ length (database.user_draws d1) =
        S (length (database.user_draws examples.psalm_db)).
Proof.
  apply draw_twice_same_verse.
  - apply schema_ok_examples.
  - vm_compute. discriminate.
  - vm_compute. reflexivity.
Defined.

(** ** Spellings of one address *)

Section variant_facts.
Import pystr.

Lemma case_variant_lower c1 c2 :
  case_variant c1 c2 → lower_char c1 = lower_char c2.
Proof.
  intros [->|[[_ ->]|[_ ->]]]; [done|..]; by rewrite lower_char_idemp.
Qed.

Lemma case_variant_sym c1 c2 : case_variant c1 c2 → case_variant c2 c1.
Proof. intros [->|[H|H]]; [by left|right; by right|right; by left]. Qed.

Lemma caseless_variant p c1 c2 : caseless p → case_variant c1 c2 → p c1 = p c2.
Proof. intros Hp [->|[[_ ->]|[_ ->]]]; by rewrite ?Hp. Qed.

Lemma caseless_is_space : caseless is_space.
Proof. intros c. apply is_space_lower_char. Qed.

Lemma caseless_letter : caseless app.letter.
Proof. by intros [[] [] [] [] [] [] [] []]. Qed.

Lemma caseless_local_class : caseless app.local_class.
Proof. by intros [[] [] [] [] [] [] [] []]. Qed.

Lemma caseless_domain_class : caseless app.domain_class.
Proof. by intros [[] [] [] [] [] [] [] []]. Qed.

Lemma caseless_one_of_at : caseless (app.one_of (lit "@")).
Proof. by intros [[] [] [] [] [] [] [] []]. Qed.

Lemma caseless_one_of_dot : caseless (app.one_of (lit ".")).
Proof. by intros [[] [] [] [] [] [] [] []]. Qed.

Lemma variant_lower s1 s2 : Forall2 case_variant s1 s2 → lower s1 = lower s2.
Proof.
  induction 1 as [|c1 c2 s1 s2 Hc _ IH]; [done|]. simpl.
  by rewrite (case_variant_lower c1 c2), IH.
Qed.

Lemma variant_lstrip s1 s2 :
  Forall2 case_variant s1 s2 → Forall2 case_variant (lstrip s1) (lstrip s2).
Proof.
  induction 1 as [|c1 c2 s1 s2 Hc Hs IH]; [constructor|]. simpl.
  rewrite (caseless_variant _ c1 c2 caseless_is_space Hc).
  destruct (is_space c2); [done|by constructor].
Qed.

Lemma variant_strip s1 s2 :
  Forall2 case_variant s1 s2 → Forall2 case_variant (strip s1) (strip s2).
Proof.
  intros H. unfold strip, rstrip.
  by apply Forall2_reverse, variant_lstrip, Forall2_reverse, variant_lstrip.
Qed.

Lemma variant_cores a b :
  variant a b →
  ∃ a' b', strip a = strip a' ∧ strip b = strip b'
           ∧ Forall2 case_variant a' b'.
Proof.
  intros (w1 & a' & w2 & w3 & b' & w4 & -> & -> & Hw & Hv).
  rewrite !Forall_app in Hw. destruct Hw as (? & ? & ? & ?).
  exists a', b'. by rewrite !strip_padding.
Qed.

Lemma variant_identity a b :
  variant a b → database.identity a = database.identity b.
Proof.
  intros (a' & b' & Ha & Hb & Hv)%variant_cores. unfold database.identity.
  by rewrite <-!lower_strip, Ha, Hb, !lower_strip, (variant_lower a' b').
Qed.

Lemma Forall_variant (p : ascii → bool) s1 s2 :
  caseless p → Forall2 case_variant s1 s2 →
  Forall (λ c, p c = true) s1 → Forall (λ c, p c = true) s2.
Proof.
  intros Hp Hv Hs. eapply Forall2_Forall_r; [exact Hv|].
  eapply Forall_impl; [exact Hs|]. intros c1 Hc1 c2 Hc.
  by rewrite <-(caseless_variant p c1 c2).
Qed.

Lemma variant_single (x : string) a s :
  lit x = [a] → caseless (app.one_of (lit x)) →
  Forall2 case_variant (lit x) s → s = lit x.
Proof.
  intros Hx Hp Hv. rewrite Hx in Hv |- *.
  apply Forall2_cons_inv_l in Hv as (c & ? & Hc & ->%Forall2_nil_inv_l & ->).
  f_equal. apply (caseless_variant _ _ _ Hp) in Hc.
  rewrite Hx in Hc. unfold app.one_of in Hc.
  rewrite (bool_decide_eq_true_2 (a ∈ [a])) in Hc by left. symmetry in Hc.
  apply bool_decide_eq_true in Hc. by apply list_elem_of_singleton in Hc.
Qed.

(** The shape of an address does not depend on the case of its letters. *)
Lemma email_shape_variant s1 s2 :
  Forall2 case_variant s1 s2 → app.email_shape s1 → app.email_shape s2.
Proof.
  intros Hv (local & host & tld & -> & Hl1 & Hl2 & Hh1 & Hh2 & Ht1 & Ht2).
  apply Forall2_app_inv_l in Hv as (local' & ? & Hvl & Hv & ->).
  apply Forall2_app_inv_l in Hv as (at' & ? & Hva & Hv & ->).
  apply Forall2_app_inv_l in Hv as (host' & ? & Hvh & Hv & ->).
  apply Forall2_app_inv_l in Hv as (dot' & tld' & Hvd & Hvt & ->).
  apply (variant_single "@" "@"%char) in Hva as ->;
    [|done|apply caseless_one_of_at].
  apply (variant_single "." "."%char) in Hvd as ->;
    [|done|apply caseless_one_of_dot].
  exists local', host', tld'. split; [done|].
  split; [by intros ->; apply Forall2_nil_inv_r in Hvl|].
  split; [by apply (Forall_variant _ local _ caseless_local_class)|].
  split; [by intros ->; apply Forall2_nil_inv_r in Hvh|].
  split; [by apply (Forall_variant _ host _ caseless_domain_class)|].
  split; [by rewrite <-(Forall2_length _ _ _ Hvt)|].
  by apply (Forall_variant _ tld _ caseless_letter).
Qed.

Lemma variant_is_valid_email a b :
  variant a b →
  app.is_valid_email (strip a) = app.is_valid_email (strip b).
Proof.
  intros (a' & b' & -> & -> & Hv%variant_strip)%variant_cores.
  apply eq_true_iff_eq. rewrite !is_valid_email_strip. split.
  - by apply email_shape_variant.
  - apply email_shape_variant. eapply Forall2_flip, Forall2_impl; [done|].
    apply case_variant_sym.
Qed.

End variant_facts.

(** ** The body of a draw request *)

Section body_facts.
Import database app.

Lemma requested_email_Email v :
  requested_email (Email v) = Some <$> strip v.
Proof. by destruct v. Qed.

(** The route reads the member [email] of an object and nothing else of
    it: every object with this member is served as [Email] of it. *)
Lemma requested_email_object members m :
  head (filter (λ m, m.1 = lit "email") members) = Some m →
  requested_email (Json (JObject members)) = requested_email (Email m.2).
Proof.
  intros Hm. rewrite requested_email_Email.
  assert (m ∈ filter (λ m, m.1 = lit "email") members) as Hin
    by (destruct (filter _ members); simplify_eq/=; by left).
  apply list_elem_of_filter in Hin as [Hkey Hin].
  unfold requested_email, missing. cbn [get_json mbind outcome_bind].
  replace (truthy (JObject members)) with true
    by (destruct members; [by apply elem_of_nil in Hin|done]).
  cbn [lacks contains mbind outcome_bind].
  rewrite bool_decide_true by (rewrite <-Hkey; by apply list_elem_of_fmap_2).
  cbn [getitem]. by rewrite Hm.
Qed.

Lemma draw_verse_object members m g now d :
  head (filter (λ m, m.1 = lit "email") members) = Some m →
  draw_verse (Json (JObject members)) g now d
  = draw_verse (Email m.2) g now d.
Proof.
  intros Hm. unfold draw_verse. by rewrite (requested_email_object _ m).
Qed.


Lemma draw_verse_Email s g now d :
  draw_verse (Email (JString s)) g now d =
    if negb (is_valid_email (pystr.strip s))
    then (Returned (failure 400 "Format d'email invalide"), d)
    else
      match draw_verse_for_user (pystr.strip s) g now d with
      | (Raised e, d') => (Raised e, d')
      | (Returned None, d') =>
          (Returned
             (failure 404
                "Aucun verset disponible. Contactez l'administrateur."), d')
      | (Returned (Some result), d') =>
          (Returned
             {| status := 200; success := true;
                r_verse := Some (verse result);
                r_already_drawn := Some (already_drawn result);
                error := None |}, d')
      end.
Proof. unfold draw_verse. by rewrite requested_email_Email. Qed.

End body_facts.

Lemma draw_identity a b g now d :
  database.identity a = database.identity b →
  database.draw_verse_for_user a g now d =
  database.draw_verse_for_user b g now d.
Proof.
  unfold database.draw_verse_for_user, database.identity. by intros ->.
Qed.

(** C4.  Two e-mail strings that differ only by letter case and surrounding
    white space have the same identity; the route and [draw_verse_for_user]
    answer both in the same way in every state; drawing with one and then
    with the other returns the same verse, the second time as already
    drawn, and the ledger holds one row for them, created by the first draw
    or already there. *)
Theorem variants_one_assignment a b :
  pystr.variant a b →
  database.identity a = database.identity b
  ∧ (∀ g now d,
       app.draw_verse (app.Email (app.JString a)) g now d =
       app.draw_verse (app.Email (app.JString b)) g now d)
  ∧ (∀ g now d,
       database.draw_verse_for_user a g now d =
       database.draw_verse_for_user b g now d)
  ∧ (∀ g1 now1 g2 now2 d,
       database.schema_ok d → database.verses d ≠ [] →
       database.draws_of (database.identity a) d = [] →
       ∃ v1 v2 d1,
         database.draw_verse_for_user a g1 now1 d =
           (Returned (Some {| database.verse := v1;
                              database.already_drawn := false |}), d1)
         ∧ database.draw_verse_for_user b g2 now2 d1 =
           (Returned (Some {| database.verse := v2;
                              database.already_drawn := true |}), d1)
         ∧ database.same_verse v1 v2
         ∧ length (database.draws_of (database.identity a) d1) = 1%nat
         ∧ length (database.user_draws d1) =
             S (length (database.user_draws d)))
  ∧ (∀ g1 now1 g2 now2 d ud v,
       database.schema_ok d →
       ud ∈ database.user_draws d →
       database.ud_email ud = database.identity a →
       v ∈ database.verses d →
       database.v_id v = database.ud_verse_id ud →
       database.draw_verse_for_user a g1 now1 d =
         (Returned (Some {| database.verse := database.dict_of_draw ud v;
                            database.already_drawn := true |}), d)
       ∧ database.draw_verse_for_user b g2 now2 d =
         (Returned (Some {| database.verse := database.dict_of_draw ud v;
                            database.already_drawn := true |}), d)
       ∧ length (database.draws_of (database.identity a) d) = 1%nat).
Proof.
  intros Hv. pose proof (variant_identity a b Hv) as Hid.
  split; [done|]. split; [|split; [|split]].
  - intros g now d. rewrite !draw_verse_Email.
    rewrite (variant_is_valid_email a b Hv).
    rewrite (draw_identity (pystr.strip a) (pystr.strip b)); [done|].
    by rewrite !identity_strip.
  - intros g now d. by apply draw_identity.
  - intros g1 now1 g2 now2 d Hok Hne Hnew.
    destruct (draw_then_draw a b g1 now1 g2 now2 d)
      as (row & chosen & Hc & H1 & H2 & Hrows); [done..|].
    eexists _, _, _. split; [exact H1|]. split; [exact H2|].
    split; [apply same_verse_draw|]. split; [by rewrite Hrows|].
    simpl. rewrite length_app. simpl. lia.
  - intros g1 now1 g2 now2 d ud v Hok Hud Hmail Hin Hvid.
    split; [by apply draw_repeat|]. split.
    + apply draw_repeat; [done..| |done|done]. by rewrite <-Hid.
    + unfold database.draws_of. rewrite <-Hmail.
      rewrite (filter_key_unique database.ud_email); [done| |done].
      apply Hok.
Qed.

Lemma variant_example : pystr.variant (lit " A@B.com ") (lit "a@b.com").
Proof.
  exists (lit " "), (lit "A@B.com"), (lit " "), [], (lit "a@b.com"), [].
  split; [done|]. split; [done|]. split.
  - repeat constructor.
  - repeat constructor; by (right; left).
Qed.

Lemma variants_one_assignment_witness :
  database.identity (lit " A@B.com ") = database.identity (lit "a@b.com")
  ∧ ∀ g now d,
      database.draw_verse_for_user (lit " A@B.com ") g now d =
      database.draw_verse_for_user (lit "a@b.com") g now d.
Proof.
  destruct (variants_one_assignment (lit " A@B.com ") (lit "a@b.com")
              variant_example) as (H1 & _ & H2 & _).
  split; [exact H1|exact H2].
Defined.

(** ** The verse store *)

Section verse_store.
Import database.

Lemma get_all_verses_elem d entry :
  entry ∈ get_all_verses d ↔
  ∃ v, v ∈ verses d
       ∧ entry = {| d_id := v_id v; d_text := v_text v;
                    d_reference := v_reference v;
                    d_created_at := Some (v_created_at v);
                    d_drawn_at := None |}.
Proof.
  unfold get_all_verses. rewrite list_elem_of_fmap.
  setoid_rewrite merge_sort_Permutation.
  split; intros (v & ? & ?); by exists v.
Qed.

Lemma delete_from_verses_gone verse_id d :
  verse_id ∉ v_id <$> verses (delete_from_verses verse_id d).2.
Proof.
  simpl. intros (v & -> & Hv)%list_elem_of_fmap.
  by apply list_elem_of_filter in Hv as [Hne _].
Qed.

Lemma delete_verse_gone verse_id d :
  sqlite_int verse_id →
  verse_id ∉ v_id <$> verses (delete_verse verse_id d).2.
Proof.
  intros Hz. rewrite delete_verse_in_range by done.
  apply delete_from_verses_gone.
Qed.

(** [delete_verse] adds no verse. *)
Lemma delete_verse_subseteq verse_id d :
  verses (delete_verse verse_id d).2 ⊆ verses d.
Proof.
  destruct (delete_verse_cases verse_id d) as [-> | ->]; [done|].
  simpl. by intros v [_ Hv]%list_elem_of_filter.
Qed.

Lemma delete_verse_returns verse_id d :
  sqlite_int verse_id →
  (delete_verse verse_id d).1
  = Returned (bool_decide (verse_id ∈ v_id <$> verses d)).
Proof.
  intros Hz. rewrite delete_verse_in_range by done. simpl. f_equal.
  apply bool_decide_ext. split.
  - intros Hlen. destruct (decide (verse_id ∈ v_id <$> verses d))
      as [|Hout]; [done|].
    rewrite (filter_key_absent v_id) in Hlen by done. simpl in Hlen. lia.
  - intros Hin%(filter_key_present v_id).
    destruct (filter _ _); [done|simpl; lia].
Qed.

Lemma select_verse_None verse_id d :
  select_verse verse_id d = None ↔ verse_id ∉ v_id <$> verses d.
Proof.
  unfold select_verse. split.
  - intros Hnil%head_None%fmap_nil_inv (v & -> & Hv)%list_elem_of_fmap.
    by apply (filter_nil_not_elem_of _ _ v) in Hnil.
  - intros Hout. by rewrite (filter_key_absent v_id).
Qed.

Lemma get_verse_by_id_None verse_id d :
  sqlite_int verse_id →
  get_verse_by_id verse_id d = Returned None ↔
  verse_id ∉ v_id <$> verses d.
Proof.
  intros Hz. rewrite get_verse_by_id_in_range by done.
  rewrite <-select_verse_None. split; [by intros [= ->]|by intros ->].
Qed.

End verse_store.

(** C9.  [add_verse] returns an id that no verse of the store had, and
    [get_all_verses] then lists an entry with this id and the given text and
    reference.  For an id that is an integer of SQLite (64 bits with a
    sign, as every id of the store is): [delete_verse] returns, with [True]
    exactly when the store had a verse with the id, and after it the lookup
    [get_verse_by_id] of the id returns [None].  For an [int] beyond that
    range both functions raise [OverflowError] when they bind it, and the
    store is as it was. *)
Theorem verse_store_round_trip text reference now verse_id d :
  database.sqlite_int verse_id →
  (∃ entry,
     entry ∈ database.get_all_verses (database.add_verse text reference now d).2
     ∧ database.d_id entry = (database.add_verse text reference now d).1
     ∧ database.d_text entry = text
     ∧ database.d_reference entry = reference)
  ∧ ((database.add_verse text reference now d).1
       ∉ database.v_id <$> database.verses d)
  ∧ database.get_verse_by_id verse_id (database.delete_verse verse_id d).2
    = Returned None
  ∧ (database.delete_verse verse_id d).1
    = Returned (bool_decide (verse_id ∈ database.v_id <$> database.verses d))
  ∧ ((database.delete_verse verse_id d).1 = Returned true ↔
     verse_id ∈ database.v_id <$> database.verses d)
  ∧ ((database.delete_verse verse_id d).1 = Returned true ↔
     database.get_verse_by_id verse_id d ≠ Returned None)
  ∧ (∀ i, ¬ database.sqlite_int i →
       database.delete_verse i d = (Raised OverflowError, d)
       ∧ database.get_verse_by_id i d = Raised OverflowError).
Proof.
  intros Hz.
  assert ((database.delete_verse verse_id d).1 = Returned true ↔
          verse_id ∈ database.v_id <$> database.verses d) as Htrue.
  { rewrite delete_verse_returns by done. split.
    - by intros [= ?%bool_decide_eq_true].
    - intros Hin. by rewrite bool_decide_true. }
  split; [|split; [|split; [|split; [|split; [|split]]]]].
  - eexists. split.
    + apply get_all_verses_elem. eexists. split; [|done]. simpl.
      apply elem_of_app. right. by apply list_elem_of_singleton.
    + done.
  - apply next_rowid_fresh.
  - by apply get_verse_by_id_None, delete_verse_gone.
  - by apply delete_verse_returns.
  - done.
  - rewrite Htrue, get_verse_by_id_None by done.
    destruct (decide (verse_id ∈ database.v_id <$> database.verses d));
      tauto.
  - intros i Hi. by rewrite delete_verse_overflow, get_verse_by_id_overflow.
Qed.

Lemma verse_store_round_trip_witness :
  database.get_verse_by_id 1
    (database.delete_verse 1 examples.two_verses_db).2 = Returned None
  ∧ (database.delete_verse 1 examples.two_verses_db).1 = Returned true
  ∧ (database.delete_verse 7 examples.two_verses_db).1 = Returned false.
Proof.
  destruct (verse_store_round_trip [] [] examples.clock 1
              examples.two_verses_db) as (_ & _ & H1 & H2 & _);
    [by vm_compute|].
  split; [exact H1|]. split; [exact H2|].
  by destruct (verse_store_round_trip [] [] examples.clock 7
                 examples.two_verses_db) as (_ & _ & _ & H3 & _);
    [by vm_compute|].
Defined.

(** ** The ledger is append-only *)

Section ledger.
Import database.

Lemma draws_of_prefix email d d' :
  user_draws d `prefix_of` user_draws d' →
  draws_of email d `prefix_of` draws_of email d'.
Proof.
  intros [k Hk]. unfold draws_of. rewrite Hk, filter_app.
  by apply prefix_app_r.
Qed.

Lemma draws_of_stable email d d' row :
  schema_ok d' → user_draws d `prefix_of` user_draws d' →
  row ∈ draws_of email d → draws_of email d' = [row].
Proof.
  intros Hok Hpre Hrow.
  pose proof (draws_of_at_most_one email d' Hok) as Hlen.
  destruct (draws_of_prefix email d d' Hpre) as [k Hk].
  rewrite Hk in Hlen |- *. rewrite length_app in Hlen.
  destruct (draws_of email d) as [|r [|r' rs]]; simpl in *;
    [by apply elem_of_nil in Hrow| |lia].
  apply list_elem_of_singleton in Hrow as ->.
  destruct k; [done|simpl in Hlen; lia].
Qed.

End ledger.

(** C7.  From a database that satisfies the schema, after any sequence of
    writing operations ([init_db], [add_verse], [delete_verse],
    [draw_verse_for_user]): every identity has at most one ledger row; the
    ledger before is a prefix of the ledger after, so no row was changed or
    removed, and a row an identity had is still its only row; operations of
    the administrator leave the ledger as it was, and so do [add_verse] and
    [delete_verse] one by one. *)
Theorem ledger_append_only ops d :
  database.schema_ok d →
  (∀ email,
     (length (database.draws_of email (database.exec_all ops d)) ≤ 1)%nat)
  ∧ database.user_draws d `prefix_of`
      database.user_draws (database.exec_all ops d)
  ∧ (∀ email row,
       row ∈ database.draws_of email d →
       database.draws_of email (database.exec_all ops d) = [row])
  ∧ (Forall database.admin_op ops →
     database.user_draws (database.exec_all ops d) = database.user_draws d)
  ∧ (∀ text reference now,
       database.user_draws (database.add_verse text reference now d).2
       = database.user_draws d)
  ∧ (∀ verse_id,
       database.user_draws (database.delete_verse verse_id d).2
       = database.user_draws d).
Proof.
  intros Hok. pose proof (exec_all_ok ops d Hok) as Hok'.
  pose proof (exec_all_user_draws ops d) as Hpre.
  split; [intros email; by apply draws_of_at_most_one|].
  split; [done|].
  split; [intros email row; by apply draws_of_stable|].
  split; [apply admin_ops_user_draws|].
  split; [done|intros verse_id; apply delete_verse_user_draws].
Qed.

Lemma ledger_append_only_witness :
  (∀ email,
     (length (database.draws_of email examples.orphan_db) ≤ 1)%nat)
  ∧ database.user_draws examples.two_verses_db `prefix_of`
      database.user_draws examples.orphan_db.
Proof.
  destruct (ledger_append_only
              [database.Draw (lit "test@example.com") 0 examples.clock;
               database.DeleteVerse 1]
              examples.two_verses_db) as (H1 & H2 & _).
  - apply schema_ok_examples.
  - split; [exact H1|exact H2].
Defined.

(** ** An empty store *)

Lemma draw_verse_valid s g now d :
  app.is_valid_email (pystr.strip s) = true →
  app.draw_verse (app.Email (app.JString s)) g now d =
    match database.draw_verse_for_user (pystr.strip s) g now d with
    | (Raised e, d') => (Raised e, d')
    | (Returned None, d') =>
        (Returned
           (app.failure 404
              "Aucun verset disponible. Contactez l'administrateur."), d')
    | (Returned (Some result), d') =>
        (Returned
           {| app.status := 200; app.success := true;
              app.r_verse := Some (database.verse result);
              app.r_already_drawn := Some (database.already_drawn result);
              app.error := None |}, d')
    end.
Proof. intros H. by rewrite draw_verse_Email, H. Qed.

(** C5.  With an empty store the draw route answers a valid address with
    status 404 and [success = False], and the database is the one before:
    no row is created.  When the identity has no ledger row, then after any
    operations of the administrator that leave a verse in the store the
    same request succeeds: status 200, a verse of the store,
    [already_drawn = False], and the identity has its one row. *)
Theorem empty_store_unavailable s g now d :
  app.is_valid_email (pystr.strip s) = true →
  database.verses d = [] →
  database.draws_of (database.identity s) d = [] →
  (∃ r,
     app.draw_verse (app.Email (app.JString s)) g now d = (Returned r, d)
     ∧ app.status r = 404 ∧ app.success r = false ∧ app.r_verse r = None)
  ∧ database.draw_verse_for_user s g now d = (Returned None, d)
  ∧ (∀ ops g' now',
       Forall database.admin_op ops →
       database.verses (database.exec_all ops d) ≠ [] →
       ∃ r v d',
         app.draw_verse (app.Email (app.JString s)) g' now'
           (database.exec_all ops d) = (Returned r, d')
         ∧ app.status r = 200 ∧ app.success r = true
         ∧ v ∈ database.verses (database.exec_all ops d)
         ∧ app.r_verse r = Some (database.dict_of_verse v)
         ∧ app.r_already_drawn r = Some false
         ∧ length (database.draws_of (database.identity s) d') = 1%nat).
Proof.
  intros Hvalid Hempty Hnew. split; [|split].
  - eexists. rewrite draw_verse_valid, draw_empty by done. done.
  - by apply draw_empty.
  - intros ops g' now' Hops Hne.
    destruct (draw_first (pystr.strip s) g' now' (database.exec_all ops d))
      as (v & Hv & Hdraw); [|done|].
    { rewrite identity_strip, admin_ops_user_draws by done.
      by apply draws_of_nil. }
    eexists _, v, _. rewrite draw_verse_valid, Hdraw by done.
    split; [done|]. split; [done|]. split; [done|].
    split; [by apply list_elem_of_lookup_2 in Hv|]. split; [done|].
    split; [done|].
    rewrite draws_of_with_draw. simpl. rewrite identity_strip.
    rewrite decide_True by done. unfold database.draws_of.
    rewrite admin_ops_user_draws by done. fold (database.draws_of (database.identity s) d).
    by rewrite Hnew.
Qed.

Lemma empty_store_unavailable_witness :
  (∃ r,
     app.draw_verse (app.Email (app.JString (lit " Test@Example.com")))
       3 examples.clock database.empty_db = (Returned r, database.empty_db)
     ∧ app.status r = 404 ∧ app.success r = false ∧ app.r_verse r = None).
Proof.
  apply (empty_store_unavailable (lit " Test@Example.com") 3 examples.clock
           database.empty_db); reflexivity.
Defined.

(** ** The choice of the verse *)

Section choice_facts.
Import database.

Lemma filter_ext_elem {A} (P Q : A → Prop) `{∀ x, Decision (P x)}
    `{∀ x, Decision (Q x)} (l : list A) :
  (∀ x, x ∈ l → P x ↔ Q x) → filter P l = filter Q l.
Proof.
  induction l as [|a l IH]; intros Hext; [done|].
  rewrite !filter_cons.
  rewrite IH by (intros x Hx; apply Hext; by right).
  destruct (decide (P a)) as [Hp|Hp], (decide (Q a)) as [Hq|Hq]; try done;
    destruct (Hext a); (by left) || tauto.
Qed.

Lemma filter_seq_unique (P : nat → Prop) `{∀ i, Decision (P i)} n k :
  (k < n)%nat → (∀ i, (i < n)%nat → P i ↔ i = k) →
  filter P (seq 0 n) = [k].
Proof.
  intros Hk HP. rewrite (filter_ext_elem P (λ i, id i = id k)).
  - apply (filter_key_unique id).
    + rewrite list_fmap_id. apply NoDup_seq.
    + apply elem_of_seq. simpl. lia.
  - intros i Hi%elem_of_seq. simpl in Hi. unfold id. apply HP. lia.
Qed.

Lemma randbelow_small i n : (i < n)%nat → random.randbelow i n = i.
Proof. apply Nat.mod_small. Qed.

(** The first draw, as a function of the random index: the verse at the
    index is returned, and the ledger binds the identity to it. *)
Lemma draw_first_index email i now d v :
  draws_of (identity email) d = [] →
  verses d !! i = Some v →
  draw_verse_for_user email i now d =
    (Returned (Some {| verse := dict_of_verse v; already_drawn := false |}),
     with_draw d
       {| ud_id := next_rowid (user_draws_seq d) (ud_id <$> user_draws d);
          ud_email := identity email; ud_verse_id := v_id v;
          ud_drawn_at := now |}).
Proof.
  intros Hnew Hv.
  destruct (draw_first email i now d) as (c & Hc & ->).
  - by apply draws_of_nil.
  - intros Hnil. by rewrite Hnil in Hv.
  - rewrite randbelow_small in Hc by (by eapply lookup_lt_Some).
    by replace c with v by congruence.
Qed.

(** The ledger rows of an identity after its first row was added. *)
Lemma draws_of_first email d row :
  draws_of email d = [] → ud_email row = email →
  draws_of email (with_draw d row) = [row].
Proof.
  intros Hnew Hmail. rewrite draws_of_with_draw, Hnew.
  by rewrite decide_True.
Qed.

End choice_facts.

(** C6.  On a first draw with [n] verses in the store: whatever the
    generator delivers, the verse returned is a row of the store, and the
    ledger row the call inserts, the one row of the identity afterwards,
    binds the identity to this verse; the verse returned and assigned
    depends on the store and the random index only, not on the ledger;
    and when the index [randbelow(n)] is uniform on [range(n)], each verse
    of the store is the one returned and assigned with probability
    [1/n]. *)
Theorem first_draw_uniform email now d :
  database.schema_ok d →
  database.draws_of (database.identity email) d = [] →
  database.verses d ≠ [] →
  (∀ g, ∃ v,
     v ∈ database.verses d
     ∧ database.draw_verse_for_user email g now d =
         (Returned (Some {| database.verse := database.dict_of_verse v;
                            database.already_drawn := false |}),
          database.with_draw d
            {| database.ud_id :=
                 database.next_rowid (database.user_draws_seq d)
                   (database.ud_id <$> database.user_draws d);
               database.ud_email := database.identity email;
               database.ud_verse_id := database.v_id v;
               database.ud_drawn_at := now |})
     ∧ database.ud_verse_id <$>
         database.draws_of (database.identity email)
           (database.draw_verse_for_user email g now d).2
       = [database.v_id v])
  ∧ (∀ d' now' g,
       database.verses d' = database.verses d →
       database.draws_of (database.identity email) d' = [] →
       (database.draw_verse_for_user email g now' d').1 =
       (database.draw_verse_for_user email g now d).1
       ∧ database.ud_verse_id <$>
           database.draws_of (database.identity email)
             (database.draw_verse_for_user email g now' d').2
         = database.ud_verse_id <$>
             database.draws_of (database.identity email)
               (database.draw_verse_for_user email g now d).2)
  ∧ (∀ v,
       v ∈ database.verses d →
       (random.probability (length (database.verses d))
          (λ i, bool_decide
                  ((database.draw_verse_for_user email i now d).1 =
                   Returned
                     (Some {| database.verse := database.dict_of_verse v;
                              database.already_drawn := false |})
                   ∧ database.ud_verse_id <$>
                       database.draws_of (database.identity email)
                         (database.draw_verse_for_user email i now d).2
                     = [database.v_id v]))
        == 1 # Pos.of_nat (length (database.verses d)))%Q).
Proof.
  intros Hok Hnew Hne.
  assert (∀ g now0 d0,
            database.verses d0 = database.verses d →
            database.draws_of (database.identity email) d0 = [] →
            ∃ v, database.verses d
                   !! random.randbelow g (length (database.verses d)) = Some v
                 ∧ database.draw_verse_for_user email g now0 d0 =
                     (Returned
                        (Some {| database.verse := database.dict_of_verse v;
                                 database.already_drawn := false |}),
                      database.with_draw d0
                        {| database.ud_id :=
                             database.next_rowid (database.user_draws_seq d0)
                               (database.ud_id <$> database.user_draws d0);
                           database.ud_email := database.identity email;
                           database.ud_verse_id := database.v_id v;
                           database.ud_drawn_at := now0 |})
                 ∧ database.ud_verse_id <$>
                     database.draws_of (database.identity email)
                       (database.draw_verse_for_user email g now0 d0).2
                   = [database.v_id v]) as Hdraw.
  { intros g now0 d0 Hsame Hnew0.
    destruct (draw_first email g now0 d0) as (v & Hv & Hd);
      [by apply draws_of_nil|by rewrite Hsame|].
    rewrite Hsame in Hv. exists v. split; [done|]. split; [done|].
    rewrite Hd. simpl. by rewrite draws_of_first. }
  split; [|split].
  - intros g. destruct (Hdraw g now d) as (v & Hv & Hd & Hrow); [done..|].
    exists v. split; [by apply list_elem_of_lookup_2 in Hv|done].
  - intros d' now' g Hsame Hnew'.
    destruct (Hdraw g now d) as (v & Hv & Hd & Hrow); [done..|].
    destruct (Hdraw g now' d') as (v' & Hv' & Hd' & Hrow'); [done..|].
    assert (v' = v) as -> by congruence.
    rewrite Hrow, Hrow'. by rewrite Hd, Hd'.
  - intros v [k Hk]%list_elem_of_lookup. unfold random.probability.
    rewrite (filter_seq_unique _ _ k); [done|by eapply lookup_lt_Some|].
    intros i Hi. rewrite bool_decide_eq_true.
    destruct (lookup_lt_is_Some_2 _ _ Hi) as [v' Hv'].
    rewrite (draw_first_index email i now d v') by done. simpl.
    rewrite draws_of_first by done. simpl. split.
    + intros [_ [= Hid]].
      eapply (NoDup_lookup (database.v_id <$> database.verses d));
        [apply Hok|rewrite list_lookup_fmap..].
      * by rewrite Hv'.
      * by rewrite Hk, Hid.
    + intros ->. by replace v' with v by congruence.
Qed.

Lemma first_draw_uniform_witness :
  (random.probability (length (database.verses examples.two_verses_db))
     (λ i, bool_decide
             ((database.draw_verse_for_user (lit "a@b.co") i
                 examples.clock examples.two_verses_db).1 =
              Returned
                (Some {| database.verse :=
                           database.dict_of_verse examples.psalm_row;
                         database.already_drawn := false |})
              ∧ database.ud_verse_id <$>
                  database.draws_of (database.identity (lit "a@b.co"))
                    (database.draw_verse_for_user (lit "a@b.co") i
                       examples.clock examples.two_verses_db).2
                = [database.v_id examples.psalm_row]))
   == 1 # 2)%Q.
Proof.
  apply (first_draw_uniform (lit "a@b.co") examples.clock
           examples.two_verses_db).
  - apply schema_ok_examples.
  - reflexivity.
  - discriminate.
  - vm_compute. by left.
Defined.

(** ** A ledger row whose verse is deleted *)

(** C8, as stated, fails when the deleted verse was the last of the store:
    [test@example.com] has drawn the only verse, the verse is deleted, the
    join hides the row, and the next draw stops at the empty store and
    returns [None]; it does not reach the insert and raises nothing. *)
Lemma orphan_draw_empty_store :
  (∃ ud,
     ud ∈ database.user_draws examples.orphan_empty_db
     ∧ database.ud_email ud = database.identity (lit "test@example.com")
     ∧ (database.ud_verse_id ud
          ∉ database.v_id <$> database.verses examples.orphan_empty_db))
  ∧ database.check_user_draw (database.identity (lit "test@example.com"))
      examples.orphan_empty_db = None
  ∧ database.draw_verse_for_user (lit "test@example.com") 0 examples.clock
      examples.orphan_empty_db = (Returned None, examples.orphan_empty_db).
Proof.
  split; [|done].
  eexists. split; [by apply list_elem_of_singleton|]. split; [done|].
  by intros ?%elem_of_nil.
Qed.

(** C8, amended.  When the verse of an identity's ledger row is no longer
    in the store, [check_user_draw] returns [None] for the identity; the
    next [draw_verse_for_user] then raises [IntegrityError] from the insert
    if the store still has a verse, and returns [None] if the store is
    empty; in both cases the database is unchanged.  [delete_verse] of the
    bound verse leads to such a state. *)
Theorem orphaned_row_draw email g now d ud :
  database.schema_ok d →
  ud ∈ database.user_draws d →
  database.ud_email ud = database.identity email →
  (database.ud_verse_id ud ∉ database.v_id <$> database.verses d) →
  database.check_user_draw (database.identity email) d = None
  ∧ (database.verses d ≠ [] →
     database.draw_verse_for_user email g now d = (Raised IntegrityError, d))
  ∧ (database.verses d = [] →
     database.draw_verse_for_user email g now d = (Returned None, d))
  ∧ (database.ud_verse_id ud
       ∉ database.v_id <$>
           database.verses
             (database.delete_verse (database.ud_verse_id ud) d).2).
Proof.
  intros Hok Hud Hmail Hgone.
  assert (∀ ud', ud' ∈ database.user_draws d →
                 database.ud_email ud' = database.identity email →
                 database.ud_verse_id ud' ∉
                   database.v_id <$> database.verses d) as Hall.
  { intros ud' Hud' Hmail'.
    assert (ud' ∈ filter (λ y, database.ud_email y = database.ud_email ud)
                    (database.user_draws d)) as Hin
      by (apply list_elem_of_filter; split; [congruence|done]).
    rewrite (filter_key_unique database.ud_email) in Hin; [|apply Hok|done].
    by apply list_elem_of_singleton in Hin as ->. }
  split; [|split; [|split]].
  - apply check_user_draw_no_verse. intros ud'. rewrite identity_lower.
    apply Hall.
  - apply draw_dangling; [|done].
    rewrite <-Hmail. by apply list_elem_of_fmap_2.
  - apply draw_empty.
  - intros (v & Hid & Hv%delete_verse_subseteq)%list_elem_of_fmap.
    apply Hgone. rewrite Hid. by apply list_elem_of_fmap_2.
Qed.

Lemma orphaned_row_draw_witness :
  database.check_user_draw (database.identity (lit "Test@Example.com "))
    examples.orphan_db = None
  ∧ (database.verses examples.orphan_db ≠ [] →
     database.draw_verse_for_user (lit "Test@Example.com ") 1 examples.clock
       examples.orphan_db = (Raised IntegrityError, examples.orphan_db)).
Proof.
  destruct (orphaned_row_draw (lit "Test@Example.com ") 1 examples.clock
              examples.orphan_db
              {| database.ud_id := 1;
                 database.ud_email := lit "test@example.com";
                 database.ud_verse_id := 1;
                 database.ud_drawn_at := examples.clock |})
    as (H1 & H2 & _).
  - apply schema_ok_examples.
  - vm_compute. by apply list_elem_of_singleton.
  - reflexivity.
  - vm_compute. intros Hin. apply list_elem_of_singleton in Hin. discriminate.
  - split; [exact H1|exact H2].
Defined.

(** ** The insert and the uniqueness of the e-mail *)

(** C3, as stated, fails: in [orphan_db] the ledger has a row for
    [test@example.com]; the insert of [draw_verse_for_user] meets it and
    the call raises [IntegrityError], which the route passes on.  The same
    happens to a request that chose its verse before another request for
    the identity inserted its row: its insert raises. *)
Lemma unique_violation_not_caught :
  (database.identity (lit "test@example.com")
     ∈ database.ud_email <$> database.user_draws examples.orphan_db)
  ∧ database.draw_verse_for_user (lit "test@example.com") 0 examples.clock
      examples.orphan_db = (Raised IntegrityError, examples.orphan_db)
  ∧ app.draw_verse (app.Email (app.JString (lit "test@example.com"))) 0
      examples.clock examples.orphan_db
    = (Raised IntegrityError, examples.orphan_db)
  ∧ concurrent.thread_step 0 examples.clock
      (concurrent.Chosen (database.identity (lit "test@example.com"))
         examples.psalm_row)
      (database.exec (database.Draw (lit "Test@Example.com") 1 examples.clock)
         examples.two_verses_db)
    = (concurrent.Finished (Raised IntegrityError),
       database.exec (database.Draw (lit "Test@Example.com") 1 examples.clock)
         examples.two_verses_db).
Proof.
  split; [|done]. by apply list_elem_of_singleton.
Qed.

(** C3, amended.  When the ledger has a row for the identity at the time of
    the insert, the insert statement raises [IntegrityError] whatever verse
    was chosen, and leaves the database as it is; a call of
    [draw_verse_for_user] that did not see the row in its check and found a
    verse to choose ends with this exception, and so does the route: the
    violation is not caught and the existing row is not read again. *)
Theorem unique_violation_raises email g now d :
  (database.identity email ∈ database.ud_email <$> database.user_draws d) →
  (∀ chosen,
     concurrent.thread_step g now
       (concurrent.Chosen (database.identity email) chosen) d
     = (concurrent.Finished (Raised IntegrityError), d))
  ∧ (database.check_user_draw (database.identity email) d = None →
     database.verses d ≠ [] →
     database.draw_verse_for_user email g now d = (Raised IntegrityError, d)
     ∧ (app.is_valid_email (pystr.strip email) = true →
        app.draw_verse (app.Email (app.JString email)) g now d
        = (Raised IntegrityError, d))).
Proof.
  intros Hrow. split.
  - intros chosen. simpl. by rewrite insert_user_draw_taken.
  - intros Hcheck Hne.
    assert (∀ e, database.identity e = database.identity email →
                 database.draw_verse_for_user e g now d
                 = (Raised IntegrityError, d)) as Hdraw.
    { intros e He. unfold database.draw_verse_for_user.
      fold (database.identity e). rewrite He, Hcheck.
      destruct (choice_nonempty g (database.verses d) Hne) as (c & _ & ->).
      rewrite insert_user_draw_taken by done.
      by destruct (database.verses d). }
    split; [by apply Hdraw|].
    intros Hvalid. rewrite draw_verse_valid by done.
    by rewrite Hdraw by apply identity_strip.
Qed.

Lemma unique_violation_raises_witness :
  concurrent.thread_step 0 examples.clock
    (concurrent.Chosen (database.identity (lit "test@example.com"))
       examples.psalm_row)
    examples.orphan_db
  = (concurrent.Finished (Raised IntegrityError), examples.orphan_db).
Proof.
  apply (unique_violation_raises (lit "test@example.com") 0 examples.clock
           examples.orphan_db).
  vm_compute. by apply list_elem_of_singleton.
Defined.

(** ** The e-mail check at the route *)




(** Away from the route: [is_valid_email] called on ["a@b.co\n"], which
    is not a stripped string, returns [True]; the [$] of the pattern
    also holds before a final line feed. *)
Lemma is_valid_email_trailing_newline :
  app.is_valid_email (lit "a@b.co" ++ [pystr.LF]) = true
  ∧ ¬ app.email_shape (lit "a@b.co" ++ [pystr.LF]).
Proof.
  split; [reflexivity|].
  intros (s' & c & Heq & Hc)%email_shape_last.
  apply app_inj_tail in Heq as [_ <-]. discriminate.
Qed.

(** ** Requests that race *)

Section race_facts.
Import database concurrent.

Lemma pending_settled e vs row w t : pending e vs t → settled e vs row w t.
Proof. by destruct t. Qed.

Lemma pending_not_created e vs t : pending e vs t → ¬ created t.
Proof. destruct t; simpl; tauto. Qed.

Lemma settled_unfinished e vs row w t :
  settled e vs row w t → ¬ finished t → pending e vs t.
Proof. destruct t; simpl; tauto. Qed.

Lemma filter_created_pending e vs ts :
  Forall (pending e vs) ts → filter created ts = [].
Proof.
  induction 1 as [|t ts Ht _ IH]; [done|].
  rewrite filter_cons_False; [done|by eapply pending_not_created].
Qed.

Lemma thread_step_remaining g now t d :
  ¬ finished t → (remaining (thread_step g now t d).1 < remaining t)%nat.
Proof.
  destruct t as [email|email|email chosen|r]; simpl; [| | |tauto]; intros _.
  - destruct (check_user_draw _ d); simpl; lia.
  - destruct (verses d); [simpl; lia|].
    destruct (random.choice _ _); simpl; lia.
  - destruct (insert_user_draw _ _ _ d) as [[[]|err] d']; simpl; lia.
Qed.

(** A statement that runs while the ledger has no row for [e]. *)
Lemma thread_step_before e d0 g now t t' d' :
  verses d0 ≠ [] → e ∉ ud_email <$> user_draws d0 →
  pending e (verses d0) t →
  thread_step g now t d0 = (t', d') →
  (d' = d0 ∧ pending e (verses d0) t')
  ∨ ∃ row w,
      d' = with_draw d0 row ∧ ud_email row = e
      ∧ (ud_id row ∉ ud_id <$> user_draws d0)
      ∧ w ∈ verses d0 ∧ ud_verse_id row = v_id w
      ∧ t' = Finished (Returned (Some {| verse := dict_of_verse w;
                                         already_drawn := false |})).
Proof.
  intros Hne Hnew Ht.
  destruct t as [email|email|email chosen|r]; simpl in Ht |- *; [| | |done].
  - fold (identity email). rewrite Ht.
    rewrite check_user_draw_no_row
      by (by rewrite <-Ht, identity_lower, Ht).
    intros [= <- <-]. by left.
  - subst email.
    destruct (choice_nonempty g (verses d0) Hne) as (c & Hc & ->).
    apply list_elem_of_lookup_2 in Hc.
    destruct (verses d0); [done|]. intros [= <- <-]. by left.
  - destruct Ht as [-> Hc]. rewrite insert_user_draw_fresh by done.
    intros [= <- <-]. right. eexists _, chosen.
    split; [done|]. split; [done|].
    split; [apply next_rowid_fresh|done].
Qed.

(** A statement that runs once the ledger has the row of [e]. *)
Lemma thread_step_after e d0 row w g now t t' d' :
  schema_ok d0 → verses d0 ≠ [] →
  e ∉ ud_email <$> user_draws d0 →
  ud_email row = e → ud_id row ∉ ud_id <$> user_draws d0 →
  w ∈ verses d0 → ud_verse_id row = v_id w →
  pending e (verses d0) t →
  thread_step g now t (with_draw d0 row) = (t', d') →
  d' = with_draw d0 row
  ∧ settled e (verses d0) row w t' ∧ ¬ created t'.
Proof.
  intros Hok Hne Hnew Hmail Hid Hw Hvid Ht.
  assert (schema_ok (with_draw d0 row)) as Hok'
    by (apply with_draw_ok; [done|by rewrite Hmail|done]).
  assert (row ∈ user_draws (with_draw d0 row)) as Hrow
    by (simpl; apply elem_of_app; right; by apply list_elem_of_singleton).
  destruct t as [email|email|email chosen|r]; simpl in Ht; [| | |done].
  - unfold thread_step. fold (identity email).
    rewrite (check_user_draw_hit _ _ row w);
      [|done|done|by rewrite identity_lower, Hmail|done|done].
    intros [= <- <-]. split; [done|]. split; [|done].
    right. by left.
  - subst email. unfold thread_step.
    change (verses (with_draw d0 row)) with (verses d0).
    destruct (choice_nonempty g (verses d0) Hne) as (c & Hc & ->).
    apply list_elem_of_lookup_2 in Hc.
    destruct (verses d0); [done|]. intros [= <- <-].
    split; [done|]. split; [done|simpl; tauto].
  - destruct Ht as [-> Hc]. unfold thread_step.
    rewrite insert_user_draw_taken.
    + intros [= <- <-]. split; [done|]. split; [|simpl; tauto].
      right. by right.
    + rewrite <-Hmail. by apply list_elem_of_fmap_2.
Qed.

Lemma race_inv_step e d0 c c' :
  schema_ok d0 → verses d0 ≠ [] → e ∉ ud_email <$> user_draws d0 →
  race_inv e d0 c → step c c' → race_inv e d0 c'.
Proof.
  intros Hok Hne Hnew Hinv Hstep.
  destruct Hstep as [ts1 t ts2 d g now t' d' Hrun Ht].
  destruct Hinv as [[Hd Hts]|(row & w & Hd & Hmail & Hid & Hw & Hvid & Hts & Hcount)];
    simpl in *; subst d;
    apply Forall_app in Hts as [Hts1 [Hpt Hts2]%Forall_cons].
  - apply (thread_step_before e) in Ht
      as [[-> Ht']|(row & w & -> & Hmail & Hid & Hw & Hvid & ->)];
      [| |done..].
    + left. split; [done|]. apply Forall_app. split; [done|].
      by apply Forall_cons.
    + right. exists row, w. do 5 (split; [done|]). split.
      * apply Forall_app. split.
        -- eapply Forall_impl; [done|]. intros ?. apply pending_settled.
        -- apply Forall_cons. split; [by left|].
           eapply Forall_impl; [done|]. intros ?. apply pending_settled.
      * simpl. rewrite filter_app, filter_cons_True by done.
        rewrite !(filter_created_pending e (verses d0)) by done. done.
  - assert (pending e (verses d0) t) as Hp
      by by eapply settled_unfinished.
    apply (thread_step_after e d0 row w) in Ht as (-> & Ht' & Hnc);
      [|done..].
    right. exists row, w. do 5 (split; [done|]). simpl. split.
    + apply Forall_app. split; [done|]. by apply Forall_cons.
    + rewrite filter_app, filter_cons_False in Hcount
        by by eapply pending_not_created.
      by rewrite filter_app, filter_cons_False.
Qed.

Lemma race_inv_rtc e d0 c c' :
  schema_ok d0 → verses d0 ≠ [] → e ∉ ud_email <$> user_draws d0 →
  race_inv e d0 c → rtc step c c' → race_inv e d0 c'.
Proof.
  intros Hok Hne Hnew Hinv Hrun.
  induction Hrun as [|c1 c2 c3 Hstep _ IH]; [done|].
  apply IH. by eapply race_inv_step.
Qed.

Lemma race_inv_start e d0 emails :
  Forall (λ email, identity email = e) emails →
  race_inv e d0 (Start <$> emails, d0).
Proof.
  intros H. left. split; [done|]. simpl. by apply Forall_fmap.
Qed.

(** Every request can be run to its end. *)
Lemma thread_finishes n t ts1 ts2 d :
  (remaining t ≤ n)%nat →
  ∃ t' d', finished t'
           ∧ rtc step (ts1 ++ t :: ts2, d) (ts1 ++ t' :: ts2, d').
Proof.
  revert t d. induction n as [|n IH]; intros t d Hn.
  - exists t, d. split; [by destruct t; simpl in *; try lia|done].
  - destruct (decide (finished t)) as [Hf|Hf]; [by exists t, d|].
    pose proof (thread_step_remaining 0 [] t d Hf) as Hlt.
    destruct (thread_step 0 [] t d) as [t1 d1] eqn:Hstep. simpl in Hlt.
    destruct (IH t1 d1) as (t' & d' & Hf' & Hrun); [lia|].
    exists t', d'. split; [done|].
    eapply rtc_l; [|exact Hrun]. by econstructor.
Qed.

Lemma requests_finish done ts d :
  Forall finished done →
  ∃ ts' d', rtc step (done ++ ts, d) (ts', d') ∧ Forall finished ts'.
Proof.
  revert done d. induction ts as [|t ts IH]; intros done d Hdone.
  - exists done, d. by rewrite app_nil_r.
  - destruct (thread_finishes (remaining t) t done ts d)
      as (t' & d' & Hf & Hrun); [done|].
    destruct (IH (done ++ [t']) d') as (ts' & d'' & Hrun' & Hall).
    { apply Forall_app. split; [done|]. by apply Forall_singleton. }
    exists ts', d''. split; [|done].
    etrans; [exact Hrun|]. by rewrite <-(assoc_L (++)) in Hrun'.
Qed.

(** The three statements of one request, run without interruption, are
    [draw_verse_for_user]. *)
Lemma thread_steps_sequential email g now d :
  let '(t1, d1) := thread_step g now (Start email) d in
  let '(t2, d2) := thread_step g now t1 d1 in
  let '(t3, d3) := thread_step g now t2 d2 in
  (t3, d3) =
    (Finished (draw_verse_for_user email g now d).1,
     (draw_verse_for_user email g now d).2).
Proof.
  unfold draw_verse_for_user. simpl.
  destruct (check_user_draw _ d); [done|]. simpl.
  destruct (verses d) as [|v vs]; [done|].
  destruct (random.choice g (v :: vs)) as [chosen|err]; [|done]. simpl.
  by destruct (insert_user_draw _ _ now d) as [[[]|err] d'].
Qed.

Lemma step_length c c' : step c c' → length c.1 = length c'.1.
Proof. intros [ts1 t ts2 d g now t' d' _ _]. simpl. by rewrite !length_app. Qed.

Lemma rtc_length c c' : rtc step c c' → length c.1 = length c'.1.
Proof.
  induction 1 as [|c1 c2 c3 Hstep _ IH]; [done|].
  by rewrite (step_length c1 c2).
Qed.

(** A valid schedule is a run of the system. *)
Lemma valid_run sched c : valid sched c = true → rtc step c (run sched c).
Proof.
  revert c. induction sched as [|[[i g] now] sched IH]; intros [ts d];
    [done|]. simpl.
  destruct (ts !! i) as [t|] eqn:Hi; [|done].
  intros [Hf%bool_decide_eq_true Hv]%andb_true_iff.
  destruct (thread_step g now t d) as [t' d'] eqn:Hstep.
  eapply rtc_l; [|by apply IH].
  rewrite <-(take_drop_middle ts i t) at 1 by done.
  rewrite insert_take_drop by (by eapply lookup_lt_Some).
  by econstructor.
Qed.

End race_facts.

(** C2, as stated, fails: two requests for one identity run their checks
    before either inserts; the first insert creates the row and the second
    raises [IntegrityError], so the second call returns no verse. *)
Lemma race_loser_raises :
  rtc concurrent.step examples.race_start
    (concurrent.run examples.race_schedule examples.race_start)
  ∧ Forall concurrent.finished
      (concurrent.run examples.race_schedule examples.race_start).1
  ∧ (concurrent.run examples.race_schedule examples.race_start).1 !! 1%nat
    = Some (concurrent.Finished (Raised IntegrityError)).
Proof.
  split; [by apply valid_run|]. split; [|done].
  vm_compute. by repeat constructor.
Qed.

(** C2, amended.  Requests for one identity that has no ledger row, served
    at the same time on a store that is not empty: the requests can all
    finish, and however their statements interleave, once all have finished
    the ledger has exactly one new row, the one of the identity, bound to a
    verse of the store; exactly one request created it and returns this
    verse with [already_drawn = False]; every other request either returns
    the same verse with [already_drawn = True] or raises
    [IntegrityError]. *)
Theorem concurrent_first_draws emails e d0 :
  database.schema_ok d0 →
  database.verses d0 ≠ [] →
  emails ≠ [] →
  Forall (λ email, database.identity email = e) emails →
  database.draws_of e d0 = [] →
  (∃ ts d,
     rtc concurrent.step (concurrent.Start <$> emails, d0) (ts, d)
     ∧ Forall concurrent.finished ts)
  ∧ (∀ ts d,
       rtc concurrent.step (concurrent.Start <$> emails, d0) (ts, d) →
       Forall concurrent.finished ts →
       ∃ row w,
         database.user_draws d = database.user_draws d0 ++ [row]
         ∧ database.draws_of e d = [row]
         ∧ w ∈ database.verses d0
         ∧ database.ud_verse_id row = database.v_id w
         ∧ length (filter concurrent.created ts) = 1%nat
         ∧ Forall (λ t, ∃ r, t = concurrent.Finished r
                             ∧ concurrent.response row w r) ts).
Proof.
  intros Hok Hne Hemails Hid Hnew. split.
  - apply (requests_finish []). constructor.
  - intros ts d Hrun Hfin. apply draws_of_nil in Hnew as Hnew'.
    pose proof (race_inv_rtc e d0 _ _ Hok Hne Hnew'
                  (race_inv_start e d0 emails Hid) Hrun) as Hinv.
    destruct Hinv as [[_ Hts]|(row & w & Hd & Hmail & _ & Hw & Hvid & Hts & Hcount)];
      simpl in *.
    + destruct ts as [|t ts].
      * apply rtc_length in Hrun. simpl in Hrun.
        rewrite length_fmap in Hrun. by destruct emails.
      * apply Forall_cons in Hts as [Ht _], Hfin as [Hf _]. by destruct t.
    + exists row, w. subst d. simpl. split; [done|].
      split; [|split; [done|split; [done|split; [done|]]]].
      * rewrite draws_of_with_draw, Hnew. simpl. by rewrite decide_True.
      * apply Forall_forall. intros t Ht.
        rewrite Forall_forall in Hts, Hfin.
        specialize (Hts t Ht). specialize (Hfin t Ht).
        destruct t as [| | |r]; try done. by exists r.
Qed.

Lemma concurrent_first_draws_witness :
  ∃ ts d,
    rtc concurrent.step
      (concurrent.Start <$> [lit "Test@Example.com"; lit "test@example.com "],
       examples.two_verses_db) (ts, d)
    ∧ Forall concurrent.finished ts.
Proof.
  apply (concurrent_first_draws
           [lit "Test@Example.com"; lit "test@example.com "]
           (lit "test@example.com") examples.two_verses_db).
  - apply schema_ok_examples.
  - discriminate.
  - discriminate.
  - by repeat constructor.
  - reflexivity.
Defined.

(** * More of the code *)

(** ** The verse store, operation by operation *)

Section store_facts.
Import database.

Lemma id_desc_transitive : Transitive id_desc.
Proof. intros v1 v2 v3. unfold id_desc. lia. Qed.

Lemma id_desc_total : Total id_desc.
Proof. intros v1 v2. unfold id_desc. lia. Qed.

Lemma get_all_verses_ids d :
  d_id <$> get_all_verses d = v_id <$> merge_sort id_desc (verses d).
Proof.
  unfold get_all_verses. rewrite <-list_fmap_compose.
  by apply list_fmap_ext.
Qed.

Lemma descending_strict (l : list Z) :
  StronglySorted (λ x y, y ≤ x) l → NoDup l →
  StronglySorted (λ x y, y < x) l.
Proof.
  induction 1 as [|x l Hl IH Hx]; [constructor|].
  intros [Hnew Hnd]%NoDup_cons. constructor; [by apply IH|].
  rewrite Forall_forall in Hx |- *. intros y Hy.
  specialize (Hx y Hy). assert (y ≠ x) by (by intros ->). lia.
Qed.

Lemma next_rowid_above seq ids :
  seq < next_rowid seq ids ∧ 0 < next_rowid seq ids
  ∧ Forall (λ i, i < next_rowid seq ids) ids.
Proof.
  unfold next_rowid.
  assert (0 ≤ foldr Z.max 0 ids) as H0
    by (induction ids; simpl; lia).
  split; [lia|]. split; [lia|].
  assert (Forall (λ i, i ≤ foldr Z.max 0 ids) ids) as Hmax.
  { induction ids as [|j ids IH]; [constructor|]. simpl. constructor; [lia|].
    eapply Forall_impl; [apply IH; simpl in H0|].
    - clear. induction ids; simpl; lia.
    - intros i Hi. simpl in Hi. lia. }
  eapply Forall_impl; [exact Hmax|]. intros i Hi. simpl in Hi. lia.
Qed.

Lemma insert_verses_seq rows now d :
  verses_seq d ≤ verses_seq (insert_verses rows now d).
Proof.
  revert d. induction rows as [|[text reference] rows IH]; intros d; [done|].
  simpl. etrans; [|apply IH]. simpl.
  pose proof (next_rowid_above (verses_seq d) (v_id <$> verses d)). lia.
Qed.

Lemma exec_verses_seq o d : verses_seq d ≤ verses_seq (exec o d).
Proof.
  destruct o as [h rows now|text reference now|i|email g now]; simpl.
  - unfold init_db. destruct (decide (length (admin d) = 0%nat)).
    + unfold insert_admin. destruct (decide _); simpl; [done|].
      destruct (decide _); simpl; [|done].
      apply (insert_verses_seq rows now
               {| verses := verses d; verses_seq := verses_seq d;
                  user_draws := user_draws d;
                  user_draws_seq := user_draws_seq d;
                  admin := _; admin_seq := _ |}).
    + destruct (decide _); simpl; [apply insert_verses_seq|done].
  - pose proof (next_rowid_above (verses_seq d) (v_id <$> verses d)). lia.
  - by rewrite delete_verse_verses_seq.
  - destruct (draw_effect email g now d) as [->|(row & -> & _)]; done.
Qed.

Lemma exec_all_verses_seq ops d : verses_seq d ≤ verses_seq (exec_all ops d).
Proof.
  revert d. induction ops as [|o ops IH]; intros d; [done|].
  simpl. etrans; [apply (exec_verses_seq o)|apply IH].
Qed.

Lemma filter_keep_all {A} (P : A → Prop) `{∀ x, Decision (P x)} (l : list A) :
  Forall P l → filter P l = l.
Proof.
  induction 1 as [|x l Hx _ IH]; [done|].
  by rewrite filter_cons_True, IH.
Qed.

Lemma select_verse_added text reference now d :
  select_verse (add_verse text reference now d).1
    (add_verse text reference now d).2
  = Some {| d_id := (add_verse text reference now d).1;
            d_text := text; d_reference := reference;
            d_created_at := None; d_drawn_at := None |}.
Proof.
  unfold select_verse. simpl. rewrite filter_app.
  rewrite (filter_key_absent v_id) by apply next_rowid_fresh.
  by rewrite filter_cons_True.
Qed.

Lemma get_verse_by_id_added text reference now d :
  sqlite_int (add_verse text reference now d).1 →
  get_verse_by_id (add_verse text reference now d).1
    (add_verse text reference now d).2
  = Returned
      (Some {| d_id := (add_verse text reference now d).1;
               d_text := text; d_reference := reference;
               d_created_at := None; d_drawn_at := None |}).
Proof.
  intros Hz. by rewrite get_verse_by_id_in_range, select_verse_added.
Qed.


(** Deleting an id that the table does not have gives the same database. *)
Lemma delete_from_verses_absent i d :
  i ∉ v_id <$> verses d → delete_from_verses i d = (0%nat, d).
Proof.
  intros Hout. unfold delete_from_verses.
  rewrite (filter_key_absent v_id) by done.
  rewrite filter_keep_all; [by destruct d|].
  apply Forall_forall. intros v Hv Heq. apply Hout. rewrite <-Heq.
  by apply list_elem_of_fmap_2.
Qed.

Lemma delete_verse_unchanged i d :
  i ∉ v_id <$> verses d → (delete_verse i d).2 = d.
Proof.
  intros Hout. destruct (delete_verse_cases i d) as [-> | ->]; [done|].
  by rewrite delete_from_verses_absent.
Qed.


Lemma delete_verse_present i d :
  sqlite_int i → i ∈ v_id <$> verses d →
  (delete_verse i d).1 = Returned true.
Proof.
  intros Hz Hin. rewrite delete_verse_returns by done.
  by rewrite bool_decide_true.
Qed.

End store_facts.

(** X1.  [get_all_verses] lists the ids of the table in descending order,
    each row of the table once; with the primary key the order is
    strict. *)
Theorem get_all_verses_sorted d :
  StronglySorted (λ x y, y ≤ x) (database.d_id <$> database.get_all_verses d)
  ∧ database.d_id <$> database.get_all_verses d
      ≡ₚ database.v_id <$> database.verses d
  ∧ length (database.get_all_verses d) = length (database.verses d)
  ∧ (NoDup (database.v_id <$> database.verses d) →
     StronglySorted (λ x y, y < x)
       (database.d_id <$> database.get_all_verses d)).
Proof.
  assert (StronglySorted (λ x y, y ≤ x)
            (database.d_id <$> database.get_all_verses d)) as Hsorted.
  { rewrite get_all_verses_ids.
    apply (StronglySorted_fmap _ database.id_desc); [done|].
    apply (@StronglySorted_merge_sort _ database.id_desc _
             id_desc_transitive id_desc_total). }
  assert (database.d_id <$> database.get_all_verses d
            ≡ₚ database.v_id <$> database.verses d) as Hperm
    by by rewrite get_all_verses_ids, merge_sort_Permutation.
  split; [done|]. split; [done|]. split.
  - unfold database.get_all_verses.
    by rewrite length_fmap, merge_sort_Permutation.
  - intros Hnd. apply descending_strict; [done|]. by rewrite Hperm.
Qed.

(** X2.  The id [add_verse] returns is positive, above every id in the
    table, and above the id of any verse added before, whatever was
    deleted, drawn or added in between: an id is never issued twice. *)
Theorem add_verse_never_reuses_id text reference now ops text' reference'
    now' d :
  0 < (database.add_verse text reference now d).1
  ∧ Forall (λ v, database.v_id v < (database.add_verse text reference now d).1)
      (database.verses d)
  ∧ (database.add_verse text reference now d).1
    < (database.add_verse text' reference' now'
         (database.exec_all ops
            (database.add_verse text reference now d).2)).1.
Proof.
  pose proof (next_rowid_above (database.verses_seq d)
                (database.v_id <$> database.verses d)) as (_ & Hpos & Hall).
  split; [done|]. split; [by rewrite Forall_fmap in Hall|].
  set (d1 := (database.add_verse text reference now d).2).
  pose proof (exec_all_verses_seq ops d1) as Hmono.
  pose proof (next_rowid_above
                (database.verses_seq (database.exec_all ops d1))
                (database.v_id <$> database.verses (database.exec_all ops d1)))
    as (Hseq & _).
  change (database.verses_seq d1)
    with (database.add_verse text reference now d).1 in Hmono.
  unfold database.add_verse in Hmono |- *. simpl in Hmono |- *. lia.
Qed.


(** X4.  After [add_verse] the lookup of the returned id gives the verse
    with the text and the reference that were passed (the id being an
    integer of SQLite, as the ids of a table are), and the lookup of
    every other id is unchanged. *)
Theorem add_verse_lookup text reference now j d :
  (database.sqlite_int (database.add_verse text reference now d).1 →
   database.get_verse_by_id (database.add_verse text reference now d).1
     (database.add_verse text reference now d).2
   = Returned
       (Some {| database.d_id := (database.add_verse text reference now d).1;
                database.d_text := text; database.d_reference := reference;
                database.d_created_at := None;
                database.d_drawn_at := None |}))
  ∧ (j ≠ (database.add_verse text reference now d).1 →
     database.get_verse_by_id j (database.add_verse text reference now d).2
     = database.get_verse_by_id j d).
Proof.
  split; [apply get_verse_by_id_added|].
  unfold database.get_verse_by_id, database.bind_int.
  destruct (decide _); [|done].
  unfold database.select_verse. simpl. rewrite !filter_app.
  intros Hne. rewrite (filter_cons_False _ _ []) by (simpl; congruence).
  by rewrite filter_nil, app_nil_r.
Qed.

(** X5.  [init_db] does not raise; what the tables held stays at the head
    of each table and the ledger is untouched; a database that has an
    admin and a verse is left as it is; and a second [init_db], with any
    other hash and clock, changes nothing. *)
Theorem init_db_idempotent h samples now h' now' d :
  (database.init_db h samples now d).1 = Returned ()
  ∧ database.verses d
      `prefix_of` database.verses (database.init_db h samples now d).2
  ∧ database.admin d
      `prefix_of` database.admin (database.init_db h samples now d).2
  ∧ database.user_draws (database.init_db h samples now d).2
    = database.user_draws d
  ∧ (database.admin d ≠ [] → database.verses d ≠ [] →
     (database.init_db h samples now d).2 = d)
  ∧ database.admin (database.init_db h samples now d).2 ≠ []
  ∧ database.init_db h' samples now' (database.init_db h samples now d).2
    = (Returned (), (database.init_db h samples now d).2).
Proof.
  assert (∀ rows t d0, database.verses d0 `prefix_of`
            database.verses (database.insert_verses rows t d0)
          ∧ database.admin (database.insert_verses rows t d0)
            = database.admin d0) as Hins.
  { intros rows t. induction rows as [|[tx rf] rows IH]; intros d0; [done|].
    change (database.insert_verses ((tx, rf) :: rows) t d0)
      with (database.insert_verses rows t (database.insert_verse tx rf t d0).2).
    destruct (IH (database.insert_verse tx rf t d0).2) as [IH1 IH2].
    split; [|by rewrite IH2].
    etrans; [|exact IH1]. simpl. by apply prefix_app_r. }
  assert (∀ rows t d0, rows ≠ [] →
            database.verses (database.insert_verses rows t d0) ≠ []) as Hne.
  { intros [|[tx rf] rows] t d0 Hrows; [done|].
    change (database.insert_verses ((tx, rf) :: rows) t d0)
      with (database.insert_verses rows t (database.insert_verse tx rf t d0).2).
    destruct (Hins rows t (database.insert_verse tx rf t d0).2) as [[k Hk] _].
    rewrite Hk. simpl. by destruct (database.verses d0). }
  unfold database.init_db.
  destruct (decide (length (database.admin d) = 0%nat)) as [Ha|Ha].
  - apply length_zero_iff_nil in Ha.
    unfold database.insert_admin. rewrite Ha.
    rewrite decide_False by (by intros ?%elem_of_nil). simpl.
    destruct (decide (length (database.verses d) = 0%nat)) as [Hv|Hv]; simpl.
    + apply length_zero_iff_nil in Hv.
      match goal with |- context [database.insert_verses samples now ?d0] =>
        set (d1 := d0) end.
      destruct (Hins samples now d1) as [Hp Hadm].
      split; [done|]. split; [by rewrite Hv; apply prefix_nil|].
      split; [by rewrite Hadm; apply prefix_nil|].
      split; [by rewrite insert_verses_user_draws|].
      split; [done|]. split; [by rewrite Hadm|].
      rewrite Hadm. simpl.
      destruct samples as [|smp samples]; [by simpl; rewrite Hv|].
      destruct (decide _) as [Hlen|]; [|done].
      apply length_zero_iff_nil in Hlen. by apply Hne in Hlen.
    + split; [done|]. split; [done|]. split; [by apply prefix_nil|].
      split; [done|]. split; [done|]. split; [done|].
      by rewrite decide_False.
  - destruct (decide (length (database.verses d) = 0%nat)) as [Hv|Hv]; simpl.
    + apply length_zero_iff_nil in Hv.
      destruct (Hins samples now d) as [Hp Hadm].
      split; [done|]. split; [done|]. split; [by rewrite Hadm|].
      split; [by rewrite insert_verses_user_draws|].
      split; [by intros _ ?|].
      split; [by rewrite Hadm; intros Hnil; rewrite Hnil in Ha|].
      rewrite Hadm. rewrite decide_False by done. simpl.
      destruct samples as [|smp samples]; [by simpl; rewrite Hv|].
      destruct (decide _) as [Hlen|]; [|done].
      apply length_zero_iff_nil in Hlen. by apply Hne in Hlen.
    + split; [done|]. split; [done|]. split; [done|]. split; [done|].
      split; [done|]. split; [by intros Hnil; rewrite Hnil in Ha|].
      by rewrite !decide_False.
Qed.

(** ** The administrator *)

Section admin_facts.
Import database.

Lemma verify_admin_row check username password d row :
  NoDup (a_username <$> admin d) → row ∈ admin d →
  a_username row = username →
  verify_admin check username password d =
    if check (a_password_hash row) password then Some (a_id row) else None.
Proof.
  intros Hnd Hrow <-. unfold verify_admin.
  by rewrite (filter_key_unique a_username).
Qed.

Lemma verify_admin_unknown check username password d :
  username ∉ a_username <$> admin d →
  verify_admin check username password d = None.
Proof.
  intros Hout. unfold verify_admin.
  by rewrite (filter_key_absent a_username).
Qed.

Lemma insert_verses_admin rows now d :
  admin (insert_verses rows now d) = admin d.
Proof.
  revert d. induction rows as [|[text reference] rows IH]; intros d; [done|].
  simpl. by rewrite IH.
Qed.

Lemma init_db_admin h samples now d :
  admin d = [] →
  admin (init_db h samples now d).2 =
    [ {| a_id := next_rowid (admin_seq d) [];
         a_username := lit "admin"; a_password_hash := h |} ].
Proof.
  intros Ha. unfold init_db, insert_admin. rewrite Ha. simpl.
  destruct (decide _); simpl; [|done].
  by rewrite insert_verses_admin.
Qed.

End admin_facts.

(** X6.  With user names unique, [verify_admin] returns an id exactly when
    the admin table has a row with the user name whose hash matches the
    password, and the id is the id of that row; for a user name that is
    not in the table it returns [None] whatever the password. *)
Theorem verify_admin_spec check username password d i :
  database.schema_ok d →
  (database.verify_admin check username password d = Some i ↔
   ∃ row, row ∈ database.admin d
          ∧ database.a_username row = username
          ∧ check (database.a_password_hash row) password = true
          ∧ database.a_id row = i)
  ∧ ((username ∉ database.a_username <$> database.admin d) →
     database.verify_admin check username password d = None).
Proof.
  intros Hok. split; [|apply verify_admin_unknown].
  destruct (decide (username ∈ database.a_username <$> database.admin d))
    as [(row & -> & Hrow)%list_elem_of_fmap|Hout].
  - rewrite (verify_admin_row _ _ _ _ row); [|apply Hok|done|done]. split.
    + destruct (check _ _) eqn:Hc; [|done]. intros [= <-]. by exists row.
    + intros (row' & Hrow' & Hname & Hc & <-).
      assert (row' = row) as ->.
      { assert (row' ∈ filter (λ y, database.a_username y
                                    = database.a_username row)
                         (database.admin d)) as Hin
          by by apply list_elem_of_filter.
        rewrite (filter_key_unique database.a_username) in Hin;
          [|apply Hok|done].
        by apply list_elem_of_singleton in Hin. }
      by rewrite Hc.
  - rewrite verify_admin_unknown by done. split; [done|].
    intros (row & Hrow & <- & _). destruct Hout.
    by apply list_elem_of_fmap_2.
Qed.

Lemma verify_admin_spec_witness :
  database.verify_admin examples.plain_hash (lit "admin") (lit "pbkdf2")
    examples.psalm_db = Some 1
  ↔ ∃ row, row ∈ database.admin examples.psalm_db
           ∧ database.a_username row = lit "admin"
           ∧ examples.plain_hash (database.a_password_hash row) (lit "pbkdf2")
             = true
           ∧ database.a_id row = 1.
Proof.
  apply (verify_admin_spec examples.plain_hash (lit "admin")
           (lit "pbkdf2") examples.psalm_db 1).
  apply schema_ok_examples.
Defined.

(** ** The bodies of the admin routes *)

Section json_facts.
Import database app.

#[local] Arguments lit : simpl never.

Lemma contains_raises key data e :
  contains key data = Raised e → e = TypeError.
Proof. destruct data; simpl; congruence. Qed.

Lemma lacks_raises keys data e : lacks keys data = Raised e → e = TypeError.
Proof.
  induction keys as [|key keys IH]; simpl; [done|].
  destruct (contains key data) as [[]|e'] eqn:Hc; simpl; [done|done|].
  intros [= <-]. by apply contains_raises in Hc.
Qed.

Lemma missing_raises keys data e :
  missing keys data = Raised e → e = TypeError.
Proof.
  unfold missing. destruct (truthy data); [apply lacks_raises|done].
Qed.

Lemma lacks_contains keys data key :
  lacks keys data = Returned false → key ∈ keys →
  contains key data = Returned true.
Proof.
  induction keys as [|k keys IH]; simpl; [by intros _ ?%elem_of_nil|].
  destruct (contains k data) as [[]|e'] eqn:Hc; simpl; [|done..].
  intros Hl [->|Hin]%elem_of_cons; [done|by apply IH].
Qed.

(** After the first test of a route, a body has the members it asks
    for. *)
Lemma missing_contains keys data key :
  missing keys data = Returned false → key ∈ keys →
  contains key data = Returned true.
Proof.
  unfold missing. destruct (truthy data); [apply lacks_contains|done].
Qed.

Lemma missing_falsy keys data :
  truthy data = false → missing keys data = Returned true.
Proof. unfold missing. by intros ->. Qed.

(** [d[key]] raises [KeyError] only for a key that [in] denies. *)
Lemma getitem_raises data key e :
  getitem data key = Raised e →
  e = TypeError ∨ (e = KeyError ∧ contains key data = Returned false).
Proof.
  destruct data as [| | | | | |members]; simpl; try (intros [= <-]; by left).
  destruct (head _) as [m|] eqn:Hm; [done|]. intros [= <-]. right.
  split; [done|]. f_equal. apply bool_decide_eq_false.
  intros (m & -> & Hin)%list_elem_of_fmap.
  apply head_None in Hm.
  by apply (filter_nil_not_elem_of _ _ m) in Hm.
Qed.

Lemma getitem_present keys data key e :
  missing keys data = Returned false → key ∈ keys →
  getitem data key = Raised e → e = TypeError.
Proof.
  intros Hm Hin [->|[_ Hc]]%getitem_raises; [done|].
  by rewrite (missing_contains keys data key) in Hc.
Qed.

Lemma strip_raises v e : strip v = Raised e → e = AttributeError.
Proof. destruct v; simpl; congruence. Qed.

(** An object without one of the members. *)
Lemma missing_member keys members key :
  members ≠ [] → key ∈ keys → key ∉ members.*1 →
  missing keys (JObject members) = Returned true.
Proof.
  intros Hne Hin Hout. unfold missing.
  replace (truthy (JObject members)) with true by by destruct members.
  induction keys as [|k keys IH]; [by apply elem_of_nil in Hin|]. simpl.
  destruct (decide (k ∈ members.*1)) as [Hk|Hk].
  - rewrite bool_decide_true by done. simpl. apply IH.
    apply elem_of_cons in Hin as [->|]; done.
  - by rewrite bool_decide_false.
Qed.

Lemma requested_email_raises r e :
  requested_email r = Raised e →
  e = UnsupportedMediaType ∨ e = BadRequest ∨ e = TypeError
  ∨ e = AttributeError.
Proof.
  unfold requested_email.
  destruct r as [| |data]; simpl; [intros [= <-]; auto..|].
  destruct (missing _ data) as [[]|e'] eqn:Hm; simpl; [done| |].
  - destruct (getitem data (lit "email")) as [v|e'] eqn:Hg; simpl.
    + destruct (strip v) as [email|e'] eqn:Hv; simpl; [done|].
      intros [= <-]. apply strip_raises in Hv. auto.
    + intros [= <-]. eapply getitem_present in Hg; [auto|done|].
      by apply list_elem_of_singleton.
  - intros [= <-]. apply missing_raises in Hm. auto.
Qed.

Lemma credentials_raises r e :
  credentials r = Raised e →
  e = UnsupportedMediaType ∨ e = BadRequest ∨ e = TypeError.
Proof.
  unfold credentials.
  destruct r as [| |data]; simpl; [intros [= <-]; auto..|].
  destruct (missing _ data) as [[]|e'] eqn:Hm; simpl; [done| |].
  - destruct (getitem data (lit "username")) as [u|e'] eqn:Hu; simpl.
    + destruct (getitem data (lit "password")) as [p|e'] eqn:Hp; simpl;
        [done|].
      intros [= <-]. eapply getitem_present in Hp; [auto|done|].
      apply elem_of_cons. right. by apply list_elem_of_singleton.
    + intros [= <-]. eapply getitem_present in Hu; [auto|done|].
      apply elem_of_cons. by left.
  - intros [= <-]. apply missing_raises in Hm. auto.
Qed.

Lemma verse_fields_raises r e :
  verse_fields r = Raised e →
  e = UnsupportedMediaType ∨ e = BadRequest ∨ e = TypeError
  ∨ e = AttributeError.
Proof.
  unfold verse_fields.
  destruct r as [| |data]; simpl; [intros [= <-]; auto..|].
  destruct (missing _ data) as [[]|e'] eqn:Hm; simpl; [done| |].
  - destruct (getitem data (lit "text")) as [t|e'] eqn:Ht; simpl.
    + destruct (strip t) as [text|e'] eqn:Hst; simpl.
      * destruct (getitem data (lit "reference")) as [f|e'] eqn:Hf; simpl.
        -- destruct (strip f) as [reference|e'] eqn:Hsf; simpl; [done|].
           intros [= <-]. apply strip_raises in Hsf. auto.
        -- intros [= <-]. eapply getitem_present in Hf; [auto|done|].
           apply elem_of_cons. right. by apply list_elem_of_singleton.
      * intros [= <-]. apply strip_raises in Hst. auto.
    + intros [= <-]. eapply getitem_present in Ht; [auto|done|].
      apply elem_of_cons. by left.
  - intros [= <-]. apply missing_raises in Hm. auto.
Qed.

Lemma verse_fields_Verse text reference :
  verse_fields (Verse text reference) =
    text ← strip text; reference ← strip reference;
    Returned (Some (text, reference)).
Proof. by destruct text, reference. Qed.

Lemma credentials_Credentials username password :
  credentials (Credentials username password)
  = Returned (Some (username, password)).
Proof. done. Qed.

End json_facts.

Section login_facts.
Import database app.

Variable check : str → str → bool.
Variable select_other : json → list admin_row → outcome (option admin_row).
Variable check_other : str → json → outcome bool.

Lemma verify_admin_values_strings username password d :
  verify_admin_values check select_other check_other
    (JString username) (JString password) d
  = Returned (verify_admin check username password d).
Proof.
  unfold verify_admin_values, verify_admin. simpl.
  destruct (head _); [|done]. simpl. by destruct (check _ _).
Qed.

Lemma verify_admin_values_same_table username password d d' :
  admin d = admin d' →
  verify_admin_values check select_other check_other username password d
  = verify_admin_values check select_other check_other username password d'.
Proof. unfold verify_admin_values. by intros ->. Qed.

(** A login with two strings. *)
Lemma admin_login_strings username password s d :
  admin_login check select_other check_other
    (Credentials (JString username) (JString password)) s d =
    match verify_admin check username password d with
    | Some i =>
        if decide (i = 0)
        then (Returned (Failure (lit "Identifiants incorrects"), 401), s)
        else
          (Returned
             (SuccessMessage (lit "Connexion r" ++ [e_acute] ++ lit "ussie"),
              200),
           {| admin_id := Some i; admin_logged_in := Some true |})
    | None => (Returned (Failure (lit "Identifiants incorrects"), 401), s)
    end.
Proof.
  unfold admin_login.
  by rewrite credentials_Credentials, verify_admin_values_strings.
Qed.

End login_facts.

(** X7.  After [init_db] on a database without admins, the admin table
    holds the one user [admin] with the hash that was passed: a login as
    [admin] succeeds with the passwords that match this hash, and sets the
    session; with any other password, and for any other user name, it is
    answered 401 and the session stays as it was. *)
Theorem init_db_default_admin check select_other check_other h samples now
    d s username password :
  database.admin d = [] →
  (check h password = true →
   ∃ i reply,
     i ≠ 0
     ∧ app.admin_login check select_other check_other
         (app.Credentials (app.JString (lit "admin")) (app.JString password))
         s (database.init_db h samples now d).2
       = (Returned (reply, 200),
          {| app.admin_id := Some i; app.admin_logged_in := Some true |}))
  ∧ (check h password = false ∨ username ≠ lit "admin" →
     ∃ reply,
       app.admin_login check select_other check_other
         (app.Credentials (app.JString username) (app.JString password))
         s (database.init_db h samples now d).2
       = (Returned (reply, 401), s)).
Proof.
  intros Ha. pose proof (init_db_admin h samples now d Ha) as Hadm.
  pose proof (next_rowid_above (database.admin_seq d) []) as (_ & Hpos & _).
  split.
  - intros Hc. rewrite admin_login_strings. unfold database.verify_admin.
    rewrite Hadm. rewrite filter_cons_True by done. simpl. rewrite Hc.
    rewrite decide_False by lia. eexists _, _. split; [|done]. lia.
  - intros Hbad. rewrite admin_login_strings. unfold database.verify_admin.
    rewrite Hadm. rewrite filter_cons, filter_nil.
    destruct (decide _) as [Heq|Hne]; simpl in *.
    + destruct Hbad as [Hc|Hname]; [|by subst]. rewrite Hc. by eexists.
    + by eexists.
Qed.

Lemma init_db_default_admin_witness :
  ∃ i reply,
    i ≠ 0
    ∧ app.admin_login examples.plain_hash examples.no_row
        examples.not_a_string
        (app.Credentials (app.JString (lit "admin"))
           (app.JString (lit "pbkdf2")))
        app.no_session examples.psalm_db
      = (Returned (reply, 200),
         {| app.admin_id := Some i; app.admin_logged_in := Some true |}).
Proof.
  apply (init_db_default_admin examples.plain_hash examples.no_row
           examples.not_a_string (lit "pbkdf2")
           [(examples.psalm_text, lit "Psaume 23:1")] examples.clock
           database.empty_db app.no_session (lit "admin") (lit "pbkdf2"));
    reflexivity.
Defined.

(** ** The routes *)

Section route_facts.
Import database.

Variable check : str → str → bool.
Variable select_other :
  app.json → list admin_row → outcome (option admin_row).
Variable check_other : str → app.json → outcome bool.

(** What the draw route does to the database: nothing, or one new ledger
    row. *)
Lemma draw_verse_effect data g now d :
  (app.draw_verse data g now d).2 = d
  ∨ ∃ row, (app.draw_verse data g now d).2 = with_draw d row.
Proof.
  unfold app.draw_verse.
  destruct (app.requested_email data) as [[email|]|e]; simpl;
    [|by left..].
  destruct (app.is_valid_email _); simpl; [|by left].
  destruct (draw_effect email g now d) as [Hd|(row & Hd & _)];
    destruct (draw_verse_for_user _ g now d) as [[[r|]|e] d']; simpl in *;
    subst; eauto.
Qed.

Lemma delete_verse_route_db i s d :
  (app.delete_verse i s d).2 = d
  ∨ (app.delete_verse i s d).2 = (database.delete_verse i d).2.
Proof.
  unfold app.delete_verse. destruct (negb _); [by left|]. right.
  by destruct (database.delete_verse i d) as [[[]|e] d'].
Qed.

Lemma handle_without_login a s d0 d :
  admin d = admin d0 →
  app.logged_in s = false →
  ¬ app.accepted_login check select_other check_other d0 a →
  app.logged_in (app.handle check select_other check_other a (s, d)).1 = false
  ∧ verses (app.handle check select_other check_other a (s, d)).2 = verses d
  ∧ verses_seq (app.handle check select_other check_other a (s, d)).2
    = verses_seq d
  ∧ admin (app.handle check select_other check_other a (s, d)).2 = admin d.
Proof.
  intros Hadm Hs Hacc.
  destruct a as [data| | | |data now|i|data g now]; simpl.
  - split; [|done]. unfold app.admin_login. simpl in Hacc.
    destruct (app.credentials data) as [[[u p]|]|e]; try done.
    rewrite (verify_admin_values_same_table _ _ _ _ _ d d0) by done.
    destruct (app.verify_admin_values _ _ _ u p d0) as [[i|]|e];
      [by destruct Hacc|done..].
  - done.
  - done.
  - done.
  - unfold app.add_verse. by rewrite Hs.
  - unfold app.delete_verse. by rewrite Hs.
  - split; [done|].
    by destruct (draw_verse_effect data g now d) as [->|(row & ->)].
Qed.

End route_facts.

(** X8.  A client that is not logged in and sends no login request with
    credentials that [verify_admin] accepts stays logged out, and none of
    its requests changes the verse table, its id sequence or the admin
    table: the verse store changes only after a login with valid
    credentials. *)
Theorem store_needs_login check select_other check_other actions s d :
  app.logged_in s = false →
  Forall (λ a, ¬ app.accepted_login check select_other check_other d a)
    actions →
  app.logged_in
    (app.serve check select_other check_other actions (s, d)).1 = false
  ∧ database.verses
      (app.serve check select_other check_other actions (s, d)).2
    = database.verses d
  ∧ database.verses_seq
      (app.serve check select_other check_other actions (s, d)).2
    = database.verses_seq d
  ∧ database.admin
      (app.serve check select_other check_other actions (s, d)).2
    = database.admin d.
Proof.
  intros Hs Hacts.
  set (run := app.serve check select_other check_other actions).
  assert (∀ s' d', database.admin d' = database.admin d →
            app.logged_in s' = false →
            app.logged_in (run (s', d')).1 = false
            ∧ database.verses (run (s', d')).2 = database.verses d'
            ∧ database.verses_seq (run (s', d')).2 = database.verses_seq d'
            ∧ database.admin (run (s', d')).2 = database.admin d') as Hgen;
    [|by apply Hgen].
  subst run. clear s Hs.
  induction Hacts as [|a actions Ha _ IH]; intros s' d' Hadm Hs'; [done|].
  simpl.
  destruct (handle_without_login check select_other check_other a s' d d'
              Hadm Hs' Ha) as (H1 & H2 & H3 & H4).
  destruct (app.handle check select_other check_other a (s', d'))
    as [s1 d1]; simpl in *.
  destruct (IH s1 d1) as (IH1 & IH2 & IH3 & IH4); [congruence|done|].
  split; [done|]. split; [congruence|]. split; congruence.
Qed.

Lemma store_needs_login_witness :
  app.logged_in
    (app.serve examples.plain_hash examples.no_row examples.not_a_string
       examples.intruder (app.no_session, examples.psalm_db)).1 = false
  ∧ database.verses
      (app.serve examples.plain_hash examples.no_row examples.not_a_string
         examples.intruder (app.no_session, examples.psalm_db)).2
    = database.verses examples.psalm_db.
Proof.
  destruct (store_needs_login examples.plain_hash examples.no_row
              examples.not_a_string examples.intruder
              app.no_session examples.psalm_db) as (H1 & H2 & _).
  - reflexivity.
  - repeat (constructor; [vm_compute; tauto|]). constructor.
  - split; [exact H1|exact H2].
Defined.

(** X9.  A login answers 200 exactly when the body has the two members
    and [verify_admin] returns for them an id other than 0; the session
    then holds this id and [admin_check] reports the client as logged in.
    Any other login leaves the session as it was, logged in or not: it is
    answered 400 (the first test), or 401, or it raises the exception of
    the lines that read the body ([UnsupportedMediaType] or [BadRequest]
    from [get_json], [TypeError] from a body that is not an object) or of
    [verify_admin].  With two strings as members nothing raises.  After
    [admin_logout] the client is reported as logged out and [get_verses]
    answers 401. *)
Theorem session_lifecycle check select_other check_other data s d :
  ((∃ reply,
      (app.admin_login check select_other check_other data s d).1
      = Returned (reply, 200)) ↔
   ∃ username password i,
     app.credentials data = Returned (Some (username, password))
     ∧ app.verify_admin_values check select_other check_other
         username password d = Returned (Some i)
     ∧ i ≠ 0)
  ∧ (∀ username password i,
       app.credentials data = Returned (Some (username, password)) →
       app.verify_admin_values check select_other check_other
         username password d = Returned (Some i) →
       i ≠ 0 →
       app.admin_id
         (app.admin_login check select_other check_other data s d).2 = Some i
       ∧ app.admin_check
           (app.admin_login check select_other check_other data s d).2
         = (app.LoggedIn true, 200))
  ∧ ((¬ ∃ reply,
        (app.admin_login check select_other check_other data s d).1
        = Returned (reply, 200)) →
     (app.admin_login check select_other check_other data s d).2 = s
     ∧ ((∃ reply,
           (app.admin_login check select_other check_other data s d).1
           = Returned (reply, 400)
           ∧ app.credentials data = Returned None)
        ∨ (∃ reply,
             (app.admin_login check select_other check_other data s d).1
             = Returned (reply, 401))
        ∨ (∃ e,
             (app.admin_login check select_other check_other data s d).1
             = Raised e
             ∧ (app.credentials data = Raised e
                ∨ ∃ username password,
                    app.credentials data
                    = Returned (Some (username, password))
                    ∧ app.verify_admin_values check select_other
                        check_other username password d = Raised e))))
  ∧ (∀ e, app.credentials data = Raised e →
       e = UnsupportedMediaType ∨ e = BadRequest ∨ e = TypeError)
  ∧ (∀ username password,
       app.verify_admin_values check select_other check_other
         (app.JString username) (app.JString password) d
       = Returned (database.verify_admin check username password d))
  ∧ app.admin_check (app.admin_logout s).2 = (app.LoggedIn false, 200)
  ∧ app.get_verses (app.admin_logout s).2 d = app.unauthorized.
Proof.
  unfold app.admin_login.
  split; [|split; [|split; [|split; [|split; [|done]]]]].
  - destruct (app.credentials data) as [[[u p]|]|e]; simpl.
    + destruct (app.verify_admin_values _ _ _ u p d) as [[i|]|e] eqn:Hv;
        simpl.
      * destruct (decide (i = 0)) as [->|Hi]; simpl.
        -- split; [by intros [? [=]]|].
           intros (? & ? & i & [= <- <-] & Hv' & Hi). congruence.
        -- split; [|by eexists]. intros _. by exists u, p, i.
      * split; [by intros [? [=]]|].
        intros (? & ? & i & [= <- <-] & Hv' & _). congruence.
      * split; [by intros [? [=]]|].
        intros (? & ? & i & [= <- <-] & Hv' & _). congruence.
    + split; [by intros [? [=]]|]. by intros (? & ? & ? & [=] & _).
    + split; [by intros [? [=]]|]. by intros (? & ? & ? & [=] & _).
  - intros u p i -> Hv Hi. rewrite Hv. by rewrite decide_False.
  - destruct (app.credentials data) as [[[u p]|]|e]; simpl.
    + destruct (app.verify_admin_values _ _ _ u p d) as [[i|]|e] eqn:Hv;
        simpl.
      * destruct (decide (i = 0)); simpl.
        -- intros _. split; [done|]. right. left. by eexists.
        -- intros Hno. destruct Hno. by eexists.
      * intros _. split; [done|]. right. left. by eexists.
      * intros _. split; [done|]. right. right. exists e.
        split; [done|]. right. by exists u, p.
    + intros _. split; [done|]. left. by eexists.
    + intros _. split; [done|]. right. right. exists e. split; [done|].
      by left.
  - apply credentials_raises.
  - intros username password. apply verify_admin_values_strings.
Qed.

(** X10.  For a logged-in client, [POST /api/admin/verses] with a text or a
    reference that is empty once stripped is answered 400 and stores
    nothing; otherwise it is answered 200 with an id that was not in the
    table, under which the stripped text and reference are then found;
    the ledger is not touched.  A body that fails the first test (a falsy
    value, an object without one of the two members) is answered 400.
    The lines that read the body raise [UnsupportedMediaType] or
    [BadRequest] when [get_json] does, [TypeError] for a body that is not
    an object, and [AttributeError] for a member that is not a string,
    and nothing else; the database is then as it was. *)
Theorem add_verse_route text reference now s d :
  app.logged_in s = true →
  (pystr.strip text = [] ∨ pystr.strip reference = [] →
   ∃ message,
     app.add_verse (app.Verse (app.JString text) (app.JString reference))
       now s d
     = (Returned (app.Failure message, 400), d))
  ∧ (pystr.strip text ≠ [] → pystr.strip reference ≠ [] →
     ∃ verse_id message d',
       app.add_verse (app.Verse (app.JString text) (app.JString reference))
         now s d
       = (Returned (app.VerseAdded verse_id message, 200), d')
       ∧ (verse_id ∉ database.v_id <$> database.verses d)
       ∧ (database.sqlite_int verse_id →
          database.get_verse_by_id verse_id d'
          = Returned
              (Some {| database.d_id := verse_id;
                       database.d_text := pystr.strip text;
                       database.d_reference := pystr.strip reference;
                       database.d_created_at := None;
                       database.d_drawn_at := None |}))
       ∧ length (database.verses d') = S (length (database.verses d))
       ∧ database.user_draws d' = database.user_draws d)
  ∧ (∀ r,
       app.verse_fields r = Returned None →
       ∃ message,
         app.add_verse r now s d = (Returned (app.Failure message, 400), d))
  ∧ (∀ r e,
       app.verse_fields r = Raised e →
       app.add_verse r now s d = (Raised e, d)
       ∧ (e = UnsupportedMediaType ∨ e = BadRequest ∨ e = TypeError
          ∨ e = AttributeError))
  ∧ app.verse_fields app.NotJson = Raised UnsupportedMediaType
  ∧ app.verse_fields app.Malformed = Raised BadRequest
  ∧ (∀ data,
       app.truthy data = false →
       app.verse_fields (app.Json data) = Returned None)
  ∧ (∀ members,
       members ≠ [] →
       (lit "text" ∉ members.*1) ∨ (lit "reference" ∉ members.*1) →
       app.verse_fields (app.Json (app.JObject members)) = Returned None)
  ∧ (∀ v w,
       (∀ t, v ≠ app.JString t) ∨ (∀ t, w ≠ app.JString t) →
       app.verse_fields (app.Verse v w) = Raised AttributeError).
Proof.
  intros Hs. unfold app.add_verse. rewrite Hs. cbn [negb].
  split; [|split; [|split; [|split; [|split; [|split; [|split; [|split]]]]]]].
  - intros Hempty. rewrite verse_fields_Verse. simpl. eexists.
    destruct Hempty as [-> | ->]; simpl; [done|].
    by rewrite orb_true_r.
  - intros Ht Hr. rewrite verse_fields_Verse. simpl.
    rewrite (bool_decide_eq_false_2 (pystr.strip text = [])) by done.
    rewrite (bool_decide_eq_false_2 (pystr.strip reference = [])) by done.
    simpl. eexists _, _, _. split; [done|].
    split; [apply next_rowid_fresh|].
    split; [apply get_verse_by_id_added|].
    split; [|done]. simpl. rewrite length_app. simpl. lia.
  - intros r ->. by eexists.
  - intros r e Hr. rewrite Hr. split; [done|].
    by apply verse_fields_raises in Hr.
  - done.
  - done.
  - intros data Hd. unfold app.verse_fields. simpl.
    by rewrite missing_falsy.
  - intros members Hne Hout. unfold app.verse_fields. simpl.
    destruct Hout as [Hout|Hout].
    + rewrite (missing_member _ _ (lit "text")); [done..| |done].
      apply elem_of_cons. by left.
    + rewrite (missing_member _ _ (lit "reference")); [done..| |done].
      apply elem_of_cons. right. by apply list_elem_of_singleton.
  - intros v w Hvw. rewrite verse_fields_Verse.
    destruct v as [| | | |t| |]; simpl; try done;
      destruct w as [| | | |t'| |]; simpl; try done.
    destruct Hvw as [Hv|Hw]; [by destruct (Hv t)|by destruct (Hw t')].
Qed.

Lemma add_verse_route_witness :
  ∃ message,
    app.add_verse
      (app.Verse (app.JString (lit "  ")) (app.JString (lit "Jean 3:16")))
      examples.clock examples.admin_session examples.psalm_db
    = (Returned (app.Failure message, 400), examples.psalm_db).
Proof.
  destruct (add_verse_route (lit "  ") (lit "Jean 3:16") examples.clock
              examples.admin_session examples.psalm_db) as (H & _).
  - reflexivity.
  - apply H. left. reflexivity.
Defined.

(** X11.  For a logged-in client, [DELETE /api/admin/verses/<id>] with an
    id that is an integer of SQLite is answered 200 when the table has the
    id, and the id is then gone, so that the same request again is
    answered 404; it is answered 404 when the table does not have the id,
    and the database is then as before.  For an id beyond that range the
    route raises [OverflowError], which Flask answers with 500, and
    nothing is deleted.  The ledger is not touched in any case. *)
Theorem delete_verse_route i s d :
  app.logged_in s = true →
  (database.sqlite_int i →
   ((i ∈ database.v_id <$> database.verses d) →
    ∃ message message' d',
      app.delete_verse i s d
      = (Returned (app.SuccessMessage message, 200), d')
      ∧ database.get_verse_by_id i d' = Returned None
      ∧ database.user_draws d' = database.user_draws d
      ∧ app.delete_verse i s d'
        = (Returned (app.Failure message', 404), d'))
   ∧ ((i ∉ database.v_id <$> database.verses d) →
      ∃ message,
        app.delete_verse i s d = (Returned (app.Failure message, 404), d)))
  ∧ (¬ database.sqlite_int i →
     app.delete_verse i s d = (Raised OverflowError, d))
  ∧ database.user_draws (app.delete_verse i s d).2 = database.user_draws d.
Proof.
  intros Hs.
  assert (∀ d0, database.sqlite_int i →
            app.delete_verse i s d0 =
            if bool_decide (i ∈ database.v_id <$> database.verses d0)
            then
              (Returned
                 (app.SuccessMessage (lit "Verset supprim" ++ [app.e_acute]),
                  200), (database.delete_verse i d0).2)
            else
              (Returned
                 (app.Failure (lit "Verset non trouv" ++ [app.e_acute]),
                  404), (database.delete_verse i d0).2)) as Hroute.
  { intros d0 Hz. unfold app.delete_verse. rewrite Hs. simpl.
    pose proof (delete_verse_returns i d0 Hz) as Hr.
    destruct (database.delete_verse i d0) as [r d']. simpl in Hr.
    rewrite Hr. by destruct (bool_decide _). }
  split; [|split].
  - intros Hz. split.
    + intros Hin. rewrite Hroute, bool_decide_true by done.
      eexists _, _, _. split; [done|].
      split; [by apply get_verse_by_id_None, delete_verse_gone|].
      split; [apply delete_verse_user_draws|].
      rewrite Hroute, bool_decide_false by by try apply delete_verse_gone.
      by rewrite delete_verse_unchanged by by apply delete_verse_gone.
    + intros Hout. rewrite Hroute, bool_decide_false by done.
      rewrite delete_verse_unchanged by done. by eexists.
  - intros Hz. unfold app.delete_verse. rewrite Hs. simpl.
    by rewrite delete_verse_overflow.
  - destruct (delete_verse_route_db i s d) as [-> | ->]; [done|].
    apply delete_verse_user_draws.
Qed.

Lemma delete_verse_route_witness :
  (∃ message,
     app.delete_verse 7 examples.admin_session examples.psalm_db
     = (Returned (app.Failure message, 404), examples.psalm_db))
  ∧ app.delete_verse (2 ^ 63) examples.admin_session examples.psalm_db
    = (Raised OverflowError, examples.psalm_db).
Proof.
  destruct (delete_verse_route 7 examples.admin_session examples.psalm_db)
    as (H & _); [reflexivity|].
  destruct (delete_verse_route (2 ^ 63) examples.admin_session
              examples.psalm_db) as (_ & H' & _); [reflexivity|].
  split.
  - apply H; [by vm_compute|]. vm_compute. intros Hin.
    apply list_elem_of_singleton in Hin. discriminate.
  - apply H'. vm_compute. intros [_ Hlt]. discriminate.
Defined.

(** ** What a draw leaves behind *)

Section draw_facts.
Import database.

(** The answer of [draw_verse_for_user] and its effect, case by case. *)
Lemma draw_result_effect email g now d :
  match (draw_verse_for_user email g now d).1 with
  | Returned (Some r) =>
      if already_drawn r
      then (draw_verse_for_user email g now d).2 = d
           ∧ check_user_draw (identity email) d = Some (verse r)
      else ∃ v,
             v ∈ verses d ∧ verse r = dict_of_verse v
             ∧ (identity email ∉ ud_email <$> user_draws d)
             ∧ (draw_verse_for_user email g now d).2
               = with_draw d
                   {| ud_id := next_rowid (user_draws_seq d)
                                 (ud_id <$> user_draws d);
                      ud_email := identity email; ud_verse_id := v_id v;
                      ud_drawn_at := now |}
  | Returned None => (draw_verse_for_user email g now d).2 = d ∧ verses d = []
  | Raised e =>
      (draw_verse_for_user email g now d).2 = d ∧ e = IntegrityError
      ∧ identity email ∈ ud_email <$> user_draws d
  end.
Proof.
  unfold draw_verse_for_user. fold (identity email).
  destruct (check_user_draw (identity email) d) as [existing|] eqn:Hc;
    [done|].
  destruct (verses d) as [|v0 vs] eqn:Hv; [done|].
  destruct (choice_nonempty g (v0 :: vs)) as (c & Hin & ->); [done|].
  apply list_elem_of_lookup_2 in Hin.
  destruct (decide (identity email ∈ ud_email <$> user_draws d)).
  - by rewrite insert_user_draw_taken.
  - rewrite insert_user_draw_fresh by done. simpl. by exists c.
Qed.

Lemma check_user_draw_with_draw email d row :
  ud_email row ≠ pystr.lower email →
  check_user_draw email (with_draw d row) = check_user_draw email d.
Proof.
  intros Hne. unfold check_user_draw. simpl.
  rewrite filter_app, (filter_cons_False _ row []) by done.
  by rewrite filter_nil, app_nil_r.
Qed.

Lemma identity_idemp email : identity (identity email) = identity email.
Proof.
  unfold identity. by rewrite lower_normalized, strip_idemp.
Qed.

Lemma lstrip_length s : (length (pystr.lstrip s) ≤ length s)%nat.
Proof.
  induction s as [|c s IH]; [done|]. simpl.
  destruct (pystr.is_space c); simpl; lia.
Qed.

Lemma lstrip_same_length s :
  length (pystr.lstrip s) = length s → pystr.lstrip s = s.
Proof.
  destruct s as [|c s]; [done|]. simpl.
  destruct (pystr.is_space c); [|done].
  pose proof (lstrip_length s). lia.
Qed.

Lemma rstrip_length s : (length (pystr.rstrip s) ≤ length s)%nat.
Proof.
  unfold pystr.rstrip. rewrite length_reverse.
  etrans; [apply lstrip_length|]. by rewrite length_reverse.
Qed.

(** [strip()] returns its argument when it removes nothing. *)
Lemma strip_same_length s :
  length (pystr.strip s) = length s → pystr.strip s = s.
Proof.
  unfold pystr.strip. intros Hlen.
  pose proof (rstrip_length (pystr.lstrip s)).
  pose proof (lstrip_length s).
  assert (pystr.lstrip s = s) as Hl by (apply lstrip_same_length; lia).
  rewrite Hl in Hlen |- *. unfold pystr.rstrip in Hlen |- *.
  rewrite length_reverse in Hlen.
  rewrite lstrip_same_length by (by rewrite length_reverse).
  apply reverse_involutive.
Qed.

Lemma exec_normalized o d : normalized_ledger d → normalized_ledger (exec o d).
Proof.
  unfold normalized_ledger. intros Hd.
  destruct o as [h rows now|text reference now|i|email g now]; simpl.
  - by rewrite init_db_user_draws.
  - done.
  - by rewrite delete_verse_user_draws.
  - destruct (draw_effect email g now d) as [->|(row & -> & Hmail & _)];
      [done|].
    simpl. apply Forall_app. split; [done|]. apply Forall_singleton.
    rewrite Hmail. apply identity_idemp.
Qed.

End draw_facts.

(** X12.  [get_draw_stats] counts the rows of the two tables:
    [add_verse] raises [total_verses] by one; [delete_verse] leaves the
    counts when the id is absent or when it raises (an [int] that is not
    an integer of SQLite) and, with the primary key, lowers
    [total_verses] by one when the id is present; a draw raises
    [total_draws] by one when it answers with [already_drawn = False] and
    leaves the counts in every other case; and [GET /api/admin/verses]
    lists as many verses as [total_verses] says. *)
Theorem draw_stats_counts text reference now i email g s d :
  database.get_draw_stats (database.add_verse text reference now d).2
  = ((database.get_draw_stats d).1, S (database.get_draw_stats d).2)
  ∧ ((i ∉ database.v_id <$> database.verses d) →
     database.get_draw_stats (database.delete_verse i d).2
     = database.get_draw_stats d)
  ∧ (¬ database.sqlite_int i →
     database.get_draw_stats (database.delete_verse i d).2
     = database.get_draw_stats d)
  ∧ (database.sqlite_int i →
     NoDup (database.v_id <$> database.verses d) →
     i ∈ database.v_id <$> database.verses d →
     ((database.get_draw_stats (database.delete_verse i d).2).1,
      S (database.get_draw_stats (database.delete_verse i d).2).2)
     = database.get_draw_stats d)
  ∧ database.get_draw_stats (database.draw_verse_for_user email g now d).2
    = match (database.draw_verse_for_user email g now d).1 with
      | Returned (Some r) =>
          if database.already_drawn r
          then database.get_draw_stats d
          else (S (database.get_draw_stats d).1,
                (database.get_draw_stats d).2)
      | _ => database.get_draw_stats d
      end
  ∧ (app.logged_in s = true →
     ∃ verses,
       app.get_verses s d = (app.Verses verses (database.get_draw_stats d), 200)
       ∧ length verses = (database.get_draw_stats d).2).
Proof.
  split; [|split; [|split; [|split; [|split]]]].
  - unfold database.get_draw_stats. simpl. rewrite length_app. simpl.
    f_equal. lia.
  - intros Hout. by rewrite delete_verse_unchanged.
  - intros Hz. by rewrite delete_verse_overflow.
  - intros Hz Hnd (v & -> & Hv)%list_elem_of_fmap.
    rewrite delete_verse_in_range by done.
    unfold database.get_draw_stats. simpl. f_equal.
    pose proof (filter_app_complement
                  (λ x, database.v_id x = database.v_id v)
                  (database.verses d)) as Hperm.
    apply Permutation_length in Hperm. rewrite length_app in Hperm.
    rewrite (filter_key_unique database.v_id) in Hperm by done.
    simpl in Hperm. lia.
  - pose proof (draw_result_effect email g now d) as H.
    destruct (database.draw_verse_for_user email g now d) as [[[r|]|e] d'];
      simpl in *.
    + destruct (database.already_drawn r).
      * by destruct H as [-> _].
      * destruct H as (v & _ & _ & _ & ->).
        unfold database.get_draw_stats. simpl. rewrite length_app. simpl.
        f_equal. lia.
    + by destruct H as [-> _].
    + by destruct H as [-> _].
  - intros Hs. unfold app.get_verses. rewrite Hs. simpl.
    eexists. split; [done|].
    unfold database.get_all_verses.
    by rewrite length_fmap, merge_sort_Permutation.
Qed.

(** X13.  The draw route answers 200, 400 or 404, or it raises:
    [UnsupportedMediaType] or [BadRequest] from [get_json] (Flask answers
    them with 415 and 400), [TypeError] for a body that is not an object,
    [AttributeError] for an [email] member that is not a string, or
    [IntegrityError] from the insert; it never raises [IndexError],
    [KeyError] or [OverflowError].  The database is changed only by an
    answer 200 with [already_drawn = False], and then by one row at the
    end of the ledger that binds the identity to the returned verse; the
    verse and admin tables are never changed. *)
Theorem draw_verse_outcomes data g now d :
  match app.draw_verse data g now d with
  | (Returned r, d') =>
      (app.status r = 200 ∧ app.success r = true
       ∧ ∃ v, app.r_verse r = Some v
              ∧ ((app.r_already_drawn r = Some true ∧ d' = d)
                 ∨ (app.r_already_drawn r = Some false
                    ∧ ∃ email row,
                        app.requested_email data = Returned (Some email)
                        ∧ d' = database.with_draw d row
                        ∧ database.ud_email row = database.identity email
                        ∧ database.ud_verse_id row = database.d_id v
                        ∧ database.ud_drawn_at row = now)))
      ∨ (app.status r = 400 ∧ app.success r = false
         ∧ app.r_verse r = None ∧ d' = d)
      ∨ (app.status r = 404 ∧ app.success r = false
         ∧ app.r_verse r = None ∧ d' = d ∧ database.verses d = [])
  | (Raised e, d') =>
      d' = d
      ∧ (e = UnsupportedMediaType ∨ e = BadRequest ∨ e = TypeError
         ∨ e = AttributeError ∨ e = IntegrityError)
  end
  ∧ app.draw_verse app.NotJson g now d = (Raised UnsupportedMediaType, d)
  ∧ app.draw_verse app.Malformed g now d = (Raised BadRequest, d)
  ∧ (∀ v, app.truthy v = false →
       app.draw_verse (app.Json v) g now d
       = (Returned (app.failure 400 "Email requis"), d))
  ∧ (∀ v, (∀ s, v ≠ app.JString s) →
       app.draw_verse (app.Email v) g now d = (Raised AttributeError, d))
  ∧ database.verses (app.draw_verse data g now d).2 = database.verses d
  ∧ database.admin (app.draw_verse data g now d).2 = database.admin d.
Proof.
  split; [|split; [|split; [|split; [|split]]]].
  - unfold app.draw_verse.
    destruct (app.requested_email data) as [[email|]|e] eqn:Hdata; simpl.
    + destruct (app.is_valid_email _); simpl; [|right; by left].
      pose proof (draw_result_effect email g now d) as H.
      destruct (database.draw_verse_for_user _ g now d) as [[[r|]|e] d'];
        simpl in *.
      * left. split; [done|]. split; [done|]. exists (database.verse r).
        split; [done|]. destruct (database.already_drawn r).
        -- left. by destruct H as [-> _].
        -- right. split; [done|]. destruct H as (v & _ & Hr & _ & ->).
           eexists email, _. split; [done|]. split; [done|]. by rewrite Hr.
      * right. right. by destruct H as [-> ->].
      * destruct H as (-> & -> & _). split; [done|]. tauto.
    + right. by left.
    + split; [done|]. apply requested_email_raises in Hdata. tauto.
  - done.
  - done.
  - intros v Hv. unfold app.draw_verse, app.requested_email. simpl.
    by rewrite missing_falsy.
  - intros v Hv. unfold app.draw_verse.
    rewrite requested_email_Email. destruct v; try done. by destruct (Hv s).
  - destruct (draw_verse_effect data g now d) as [->|(row & ->)]; done.
Qed.

(** X14.  The operations keep the ledger normalised: when every address
    in the ledger is a fixed point of [lower().strip()], it is so after
    any sequence of operations, and every stored address is in lower case
    and has no white space around it.  [check_user_draw], which lowers
    its argument but does not strip it, therefore finds nothing for an
    address with white space around it. *)
Theorem ledger_normalized ops d email :
  database.normalized_ledger d →
  database.normalized_ledger (database.exec_all ops d)
  ∧ Forall (λ ud, pystr.lower (database.ud_email ud) = database.ud_email ud
                  ∧ pystr.strip (database.ud_email ud) = database.ud_email ud)
      (database.user_draws (database.exec_all ops d))
  ∧ (pystr.strip email ≠ email →
     database.check_user_draw email (database.exec_all ops d) = None).
Proof.
  intros Hd.
  assert (database.normalized_ledger (database.exec_all ops d)) as Hn.
  { revert d Hd. induction ops as [|o ops IH]; intros d Hd; [done|].
    simpl. by apply IH, exec_normalized. }
  assert (Forall (λ ud, pystr.lower (database.ud_email ud)
                        = database.ud_email ud
                        ∧ pystr.strip (database.ud_email ud)
                          = database.ud_email ud)
            (database.user_draws (database.exec_all ops d))) as Hfix.
  { eapply Forall_impl; [exact Hn|]. intros ud Hud. simpl in Hud.
    rewrite <-Hud. split; [apply identity_lower|].
    unfold database.identity. apply strip_idemp. }
  split; [done|]. split; [done|].
  intros Hpad.
  destruct (database.check_user_draw email _) as [r|] eqn:Hr; [|done].
  apply check_user_draw_inv in Hr as (ud & v & Hud & Hmail & _).
  rewrite Forall_forall in Hfix. destruct (Hfix ud Hud) as [_ Hs].
  destruct Hpad. apply strip_same_length.
  rewrite Hmail, <-lower_strip in Hs.
  apply (f_equal length) in Hs. unfold pystr.lower in Hs.
  by rewrite !length_fmap in Hs.
Qed.

Lemma ledger_normalized_witness :
  database.normalized_ledger examples.orphan_db
  ∧ (pystr.strip (lit " test@example.com") ≠ lit " test@example.com" →
     database.check_user_draw (lit " test@example.com") examples.orphan_db
     = None).
Proof.
  destruct (ledger_normalized
              [database.Draw (lit "test@example.com") 0 examples.clock;
               database.DeleteVerse 1]
              examples.two_verses_db (lit " test@example.com"))
    as (H1 & _ & H2).
  - constructor.
  - split; [exact H1|exact H2].
Defined.

(** X15.  An address that [is_valid_email] accepts has exactly one at
    sign, at least six characters (seven with the final line feed), and
    only ASCII characters. *)
Theorem valid_email_one_at s :
  app.is_valid_email s = true →
  length (filter (λ c, c = "@"%char) s) = 1%nat
  ∧ (6 ≤ length s)%nat
  ∧ Forall (λ c, (pystr.code c < 128)%nat) s.
Proof.
  assert (∀ (p : ascii → bool) l,
            (∀ c, p c = true → c ≠ "@"%char ∧ (pystr.code c < 128)%nat) →
            Forall (λ c, p c = true) l →
            filter (λ c, c = "@"%char) l = []
            ∧ Forall (λ c, (pystr.code c < 128)%nat) l) as Hclass.
  { intros p l Hp Hl. induction Hl as [|c l Hc _ [IH1 IH2]]; [done|].
    destruct (Hp c Hc) as [Hne Hlt].
    rewrite filter_cons_False by done. split; [done|by constructor]. }
  assert (∀ c, app.local_class c = true →
               c ≠ "@"%char ∧ (pystr.code c < 128)%nat) as Hlocal.
  { intros [[] [] [] [] [] [] [] []]; vm_compute; (done || (split; [done|lia])). }
  assert (∀ c, app.domain_class c = true →
               c ≠ "@"%char ∧ (pystr.code c < 128)%nat) as Hdomain.
  { intros [[] [] [] [] [] [] [] []]; vm_compute; (done || (split; [done|lia])). }
  assert (∀ c, app.letter c = true →
               c ≠ "@"%char ∧ (pystr.code c < 128)%nat) as Hletter.
  { intros [[] [] [] [] [] [] [] []]; vm_compute; (done || (split; [done|lia])). }
  assert (∀ t, app.email_shape t →
            length (filter (λ c, c = "@"%char) t) = 1%nat
            ∧ (6 ≤ length t)%nat
            ∧ Forall (λ c, (pystr.code c < 128)%nat) t) as Hshape.
  { intros t (local & host & tld & -> & Hl1 & Hl2 & Hh1 & Hh2 & Ht1 & Ht2).
    destruct (Hclass _ _ Hlocal Hl2) as [Fl Al].
    destruct (Hclass _ _ Hdomain Hh2) as [Fh Ah].
    destruct (Hclass _ _ Hletter Ht2) as [Ft At].
    unfold str in *.
    rewrite !filter_app, Fl, Fh, Ft. rewrite !length_app.
    split; [done|]. split.
    - destruct local; [done|]. destruct host; [done|]. simpl in *. lia.
    - rewrite !Forall_app.
      split; [done|]. split; [repeat constructor; vm_compute; lia|].
      split; [done|]. split; [repeat constructor; vm_compute; lia|done]. }
  intros [Hs|(s' & -> & Hs)]%is_valid_email_spec; [by apply Hshape|].
  destruct (Hshape s' Hs) as (H1 & H2 & H3). unfold str in *.
  rewrite filter_app, length_app, H1. split; [done|].
  split; [rewrite length_app; simpl; lia|].
  apply Forall_app. split; [done|]. apply Forall_singleton. vm_compute. lia.
Qed.

Lemma valid_email_one_at_witness :
  length (filter (λ c, c = "@"%char) (lit "test@example.com")) = 1%nat
  ∧ (6 ≤ length (lit "test@example.com"))%nat
  ∧ Forall (λ c, (pystr.code c < 128)%nat) (lit "test@example.com").
Proof.
  apply (valid_email_one_at (lit "test@example.com")). reflexivity.
Defined.

(** X16.  When [draw_verse_for_user] answers with [already_drawn = False],
    the ledger has one more row, at its end, with a new and larger id,
    the identity of the address, the id of the returned verse and the
    clock of the call; and the returned verse is the one
    [get_verse_by_id] finds under that id (an integer of SQLite, as the
    ids of a table are). *)
Theorem first_draw_row email g now d r d' :
  database.schema_ok d →
  database.draw_verse_for_user email g now d = (Returned (Some r), d') →
  database.already_drawn r = false →
  (database.sqlite_int (database.d_id (database.verse r)) →
   database.get_verse_by_id (database.d_id (database.verse r)) d'
   = Returned (Some (database.verse r)))
  ∧ ∃ row,
      database.user_draws d' = database.user_draws d ++ [row]
      ∧ database.ud_email row = database.identity email
      ∧ database.ud_verse_id row = database.d_id (database.verse r)
      ∧ database.ud_drawn_at row = now
      ∧ 0 < database.ud_id row
      ∧ Forall (λ ud, database.ud_id ud < database.ud_id row)
          (database.user_draws d).
Proof.
  intros Hok Hdraw Hnew.
  pose proof (draw_result_effect email g now d) as H.
  rewrite Hdraw in H. simpl in H. rewrite Hnew in H.
  destruct H as (v & Hv & Hr & _ & ->).
  pose proof (next_rowid_above (database.user_draws_seq d)
                (database.ud_id <$> database.user_draws d))
    as (_ & Hpos & Hall).
  split.
  - intros Hz. rewrite get_verse_by_id_in_range by done.
    rewrite Hr. unfold database.select_verse. simpl.
    rewrite (filter_key_unique database.v_id); [done|apply Hok|done].
  - eexists. split; [done|]. simpl. rewrite Hr.
    do 4 (split; [done|]). by rewrite Forall_fmap in Hall.
Qed.

Lemma first_draw_row_witness :
  database.get_verse_by_id 1
    (database.exec (database.Draw (lit "Test@Example.com") 0 examples.clock)
       examples.psalm_db)
  = Returned (Some (database.dict_of_verse examples.psalm_row)).
Proof.
  destruct (first_draw_row (lit "Test@Example.com") 0 examples.clock
              examples.psalm_db
              {| database.verse := database.dict_of_verse examples.psalm_row;
                 database.already_drawn := false |}
              (database.exec
                 (database.Draw (lit "Test@Example.com") 0 examples.clock)
                 examples.psalm_db)) as (H & _).
  - apply schema_ok_examples.
  - reflexivity.
  - reflexivity.
  - apply H. by vm_compute.
Defined.

(** X17.  Draws of different identities do not interfere: after a draw
    for one identity, [check_user_draw] and [draw_verse_for_user] answer
    for any other identity as they would have answered before it. *)
Theorem draws_do_not_interfere email g now email' g' now' d :
  database.identity email ≠ database.identity email' →
  database.check_user_draw (database.identity email')
    (database.draw_verse_for_user email g now d).2
  = database.check_user_draw (database.identity email') d
  ∧ (database.draw_verse_for_user email' g' now'
       (database.draw_verse_for_user email g now d).2).1
    = (database.draw_verse_for_user email' g' now' d).1.
Proof.
  intros Hne.
  destruct (draw_effect email g now d) as [->|(row & -> & Hmail & _)];
    [done|].
  assert (database.check_user_draw (database.identity email')
            (database.with_draw d row)
          = database.check_user_draw (database.identity email') d) as Hcheck.
  { apply check_user_draw_with_draw. by rewrite identity_lower, Hmail. }
  split; [done|].
  unfold database.draw_verse_for_user. fold (database.identity email').
  rewrite Hcheck.
  destruct (database.check_user_draw _ d); [done|].
  change (database.verses (database.with_draw d row))
    with (database.verses d).
  destruct (database.verses d) as [|v0 vs]; [done|].
  destruct (random.choice g' (v0 :: vs)) as [chosen|err]; [|done].
  destruct (decide (database.identity email'
                      ∈ database.ud_email <$> database.user_draws d))
    as [Hin|Hout].
  - rewrite !insert_user_draw_taken; [done|done|].
    simpl. rewrite fmap_app. apply elem_of_app. by left.
  - rewrite !insert_user_draw_fresh; [done|done|].
    simpl. rewrite fmap_app.
    intros [?|Hin%list_elem_of_singleton]%elem_of_app; [done|].
    simpl in Hin. congruence.
Qed.

Lemma draws_do_not_interfere_witness :
  database.check_user_draw (database.identity (lit "b@c.de"))
    (database.draw_verse_for_user (lit "a@b.co") 0 examples.clock
       examples.two_verses_db).2
  = database.check_user_draw (database.identity (lit "b@c.de"))
      examples.two_verses_db.
Proof.
  apply (draws_do_not_interfere (lit "a@b.co") 0 examples.clock
           (lit "b@c.de") 1 examples.clock examples.two_verses_db).
  vm_compute. discriminate.
Defined.

(** ** The sample verses *)

Section sample_facts.
Import database.

(** The largest rowid the verse table ever held. *)
Lemma foldr_max_snoc (l : list Z) x :
  foldr Z.max 0 (l ++ [x]) = Z.max (foldr Z.max 0 l) (Z.max x 0).
Proof. induction l as [|y l IH]; simpl; [lia|]. rewrite IH. lia. Qed.

Lemma insert_verses_numbered rows now d :
  verses (insert_verses rows now d) =
    verses d ++
    imap (λ k tr,
            {| v_id := Z.max (verses_seq d) (foldr Z.max 0 (v_id <$> verses d))
                       + 1 + Z.of_nat k;
               v_text := tr.1; v_reference := tr.2; v_created_at := now |})
      rows.
Proof.
  revert d. induction rows as [|[text reference] rows IH]; intros d.
  - simpl. by rewrite app_nil_r.
  - change (insert_verses ((text, reference) :: rows) now d)
      with (insert_verses rows now (insert_verse text reference now d).2).
    rewrite IH. simpl. rewrite <-(assoc_L (++)). f_equal. simpl. f_equal.
    + f_equal. unfold next_rowid. lia.
    + apply imap_ext. intros k [t r] _. simpl. f_equal.
      rewrite fmap_app, list_fmap_singleton.
      rewrite (foldr_max_snoc (v_id <$> verses d)). simpl.
      pose proof (next_rowid_above (verses_seq d) (v_id <$> verses d))
        as (_ & _ & Hall).
      unfold next_rowid in *.
      assert (0 ≤ foldr Z.max 0 (v_id <$> verses d))
        by (clear; induction (v_id <$> verses d); simpl; lia).
      lia.
Qed.

End sample_facts.

(** X18.  On a database with an empty verse table [init_db] inserts all
    the sample verses, in the order of the list and with their text and
    reference, under consecutive ids that start one above the sequence
    entry of the table (at 1 on a new database). *)
Theorem init_db_samples h samples now d :
  database.verses d = [] →
  database.verses (database.init_db h samples now d).2 =
    imap (λ k tr,
            {| database.v_id := Z.max (database.verses_seq d) 0 + 1 + Z.of_nat k;
               database.v_text := tr.1; database.v_reference := tr.2;
               database.v_created_at := now |})
      samples.
Proof.
  intros Hv. unfold database.init_db.
  destruct (decide (length (database.admin d) = 0%nat)) as [Ha|Ha].
  - apply length_zero_iff_nil in Ha.
    unfold database.insert_admin. rewrite Ha. simpl. rewrite Hv. simpl.
    by rewrite insert_verses_numbered.
  - rewrite Hv. simpl. by rewrite insert_verses_numbered, Hv.
Qed.

Lemma init_db_samples_witness :
  database.verses examples.psalm_db = [examples.psalm_row].
Proof.
  apply (init_db_samples (lit "pbkdf2")
           [(examples.psalm_text, lit "Psaume 23:1")] examples.clock
           database.empty_db).
  reflexivity.
Defined.

(** ** Requests for different identities *)

Section crowd_facts.
Import database concurrent.

Lemma served_unfinished vs d e t :
  served vs d e t → ¬ finished t →
  pending e vs t ∧ e ∉ ud_email <$> user_draws d.
Proof. destruct t; simpl; tauto. Qed.

(** A row for another identity does not change how a request stands. *)
Lemma served_other_row vs d row e t :
  ud_email row ≠ e → served vs d e t → served vs (with_draw d row) e t.
Proof.
  intros Hne.
  assert (e ∉ ud_email <$> user_draws d →
          e ∉ ud_email <$> user_draws (with_draw d row)) as Hout.
  { intros Hout. simpl. rewrite fmap_app.
    intros [?|Hin%list_elem_of_singleton]%elem_of_app; [done|].
    simpl in Hin. congruence. }
  destruct t as [email|email|email chosen|r]; simpl;
    [intros [? ?]; (split; [done|by apply Hout])..|].
  intros (w & row' & Hw & Hrow & Hmail & Hvid & ->).
  exists w, row'. split; [done|].
  split; [simpl; apply elem_of_app; by left|done].
Qed.

Lemma served_others vs d row e es ts :
  ud_email row = e → e ∉ es →
  Forall2 (served vs d) es ts → Forall2 (served vs (with_draw d row)) es ts.
Proof.
  intros Hmail Hout H. induction H as [|e' t es ts Hs _ IH]; [constructor|].
  apply not_elem_of_cons in Hout as [Hne Hout].
  constructor; [|by apply IH]. apply served_other_row; [congruence|done].
Qed.

(** One statement of the request for [e]. *)
Lemma served_step d0 d e g now t t' d' :
  verses d = verses d0 → verses d0 ≠ [] → schema_ok d →
  served (verses d0) d e t → ¬ finished t →
  thread_step g now t d = (t', d') →
  verses d' = verses d0 ∧ schema_ok d' ∧ served (verses d0) d' e t'
  ∧ ((d' = d ∧ ¬ finished t')
     ∨ (∃ row, d' = with_draw d row ∧ ud_email row = e ∧ finished t')).
Proof.
  intros Hv Hne Hok Hs Hf.
  destruct (served_unfinished _ _ _ _ Hs Hf) as [Hp Hout].
  destruct t as [email|email|email chosen|r]; simpl in Hp |- *; [| | |done].
  - fold (identity email). rewrite Hp.
    rewrite check_user_draw_no_row
      by (by rewrite <-Hp, identity_lower, Hp).
    intros [= <- <-]. split; [done|]. split; [done|].
    split; [done|]. left. split; [done|]. simpl. tauto.
  - subst email. rewrite Hv.
    destruct (choice_nonempty g (verses d0) Hne) as (c & Hc & ->).
    apply list_elem_of_lookup_2 in Hc.
    destruct (verses d0); [done|]. intros [= <- <-].
    split; [done|]. split; [done|]. split; [done|].
    left. split; [done|]. simpl. tauto.
  - destruct Hp as [-> Hc]. rewrite insert_user_draw_fresh by done.
    intros [= <- <-]. split; [done|]. split.
    { apply with_draw_ok; [done|done|]. apply next_rowid_fresh. }
    split.
    + exists chosen. eexists. split; [done|].
      split; [simpl; apply elem_of_app; right; by apply list_elem_of_singleton|].
      done.
    + right. eexists. split; [done|]. split; [done|]. simpl. tauto.
Qed.

Lemma crowd_inv_step es d0 c c' :
  NoDup es → verses d0 ≠ [] →
  crowd_inv es d0 c → step c c' → crowd_inv es d0 c'.
Proof.
  intros Hnd Hne (Hv & Hok & Hall & Hlen) Hstep.
  destruct Hstep as [ts1 t ts2 d g now t' d' Hf Ht]. simpl in *.
  apply Forall2_app_inv_r in Hall as (es1 & es' & H1 & H2 & ->).
  apply Forall2_cons_inv_r in H2 as (e & es2 & Hs & H2 & ->).
  apply NoDup_app in Hnd as (_ & Hdisj & [He2 _]%NoDup_cons).
  assert (e ∉ es1) as He1 by (intros Hin; apply (Hdisj e Hin); by left).
  destruct (served_step d0 d e g now t t' d' Hv Hne Hok Hs Hf Ht)
    as (Hv' & Hok' & Hs' & [[-> Hf']|(row & -> & Hmail & Hf')]).
  - split; [done|]. split; [done|]. split.
    + apply Forall2_app; [done|]. by constructor.
    + simpl. rewrite filter_app, filter_cons_False in Hlen by done.
      by rewrite filter_app, filter_cons_False.
  - split; [done|]. split; [done|]. split.
    + apply Forall2_app; [by apply (served_others _ _ _ e)|].
      constructor; [done|by apply (served_others _ _ _ e)].
    + simpl. rewrite filter_app, filter_cons_False in Hlen by done.
      rewrite filter_app, filter_cons_True by done.
      rewrite !length_app in *. simpl. lia.
Qed.

Lemma crowd_inv_rtc es d0 c c' :
  NoDup es → verses d0 ≠ [] →
  crowd_inv es d0 c → rtc step c c' → crowd_inv es d0 c'.
Proof.
  intros Hnd Hne Hinv Hrun.
  induction Hrun as [|c1 c2 c3 Hstep _ IH]; [done|].
  apply IH. by eapply crowd_inv_step.
Qed.

Lemma crowd_inv_start d0 emails :
  schema_ok d0 →
  Forall (λ email, identity email ∉ ud_email <$> user_draws d0) emails →
  crowd_inv (identity <$> emails) d0 (Start <$> emails, d0).
Proof.
  intros Hok Hnew. split; [done|]. split; [done|]. simpl. split.
  - apply Forall2_fmap, Forall_Forall2_diag.
    eapply Forall_impl; [exact Hnew|]. by intros email Hout.
  - assert (filter finished (Start <$> emails) = []) as ->; [|simpl; lia].
    clear. induction emails as [|email emails IH]; [done|].
    simpl. by rewrite filter_cons_False by (simpl; tauto).
Qed.

End crowd_facts.

(** X19.  Requests for addresses with different identities, none in the
    ledger, served at the same time on a store that is not empty: however
    their statements interleave, once all have finished every request has
    answered with a verse of the store and [already_drawn = False], its
    identity has exactly one ledger row, bound to that verse, and the
    ledger has grown by one row per request.  No request raises. *)
Theorem concurrent_distinct_draws emails d0 ts d :
  database.schema_ok d0 →
  database.verses d0 ≠ [] →
  NoDup (database.identity <$> emails) →
  Forall (λ email, database.identity email
                     ∉ database.ud_email <$> database.user_draws d0) emails →
  rtc concurrent.step (concurrent.Start <$> emails, d0) (ts, d) →
  Forall concurrent.finished ts →
  Forall2
    (λ email t,
       ∃ w row,
         w ∈ database.verses d0
         ∧ database.draws_of (database.identity email) d = [row]
         ∧ database.ud_verse_id row = database.v_id w
         ∧ t = concurrent.Finished
                 (Returned (Some {| database.verse := database.dict_of_verse w;
                                    database.already_drawn := false |})))
    emails ts
  ∧ length (database.user_draws d)
    = (length (database.user_draws d0) + length emails)%nat.
Proof.
  intros Hok Hne Hnd Hnew Hrun Hfin.
  pose proof (crowd_inv_rtc _ d0 _ _ Hnd Hne
                (crowd_inv_start d0 emails Hok Hnew) Hrun)
    as (Hv & Hok' & Hall & Hlen).
  simpl in *. split.
  - rewrite Forall2_fmap_l in Hall.
    apply Forall2_same_length_lookup. split; [by eapply Forall2_length|].
    intros i email t Hi Ht.
    eapply Forall2_lookup_lr in Hall as Hs; [|exact Hi|exact Ht].
    rewrite Forall_forall in Hfin.
    specialize (Hfin t (list_elem_of_lookup_2 _ _ _ Ht)).
    destruct t as [| | |r]; [done..|]. simpl in Hs.
    destruct Hs as (w & row & Hw & Hrow & Hmail & Hvid & ->).
    exists w, row. split; [done|]. split; [|done].
    unfold database.draws_of. rewrite <-Hmail.
    apply (filter_key_unique database.ud_email); [apply Hok'|done].
  - rewrite Hlen. f_equal.
    rewrite filter_keep_all by done.
    apply Forall2_length in Hall. by rewrite length_fmap in Hall.
Qed.

Lemma concurrent_distinct_draws_witness :
  length
    (database.user_draws
       (concurrent.run examples.crowd_schedule
          (concurrent.Start <$> examples.crowd, examples.two_verses_db)).2)
  = (length (database.user_draws examples.two_verses_db)
     + length examples.crowd)%nat.
Proof.
  destruct (concurrent_distinct_draws examples.crowd examples.two_verses_db
              (concurrent.run examples.crowd_schedule
                 (concurrent.Start <$> examples.crowd,
                  examples.two_verses_db)).1
              (concurrent.run examples.crowd_schedule
                 (concurrent.Start <$> examples.crowd,
                  examples.two_verses_db)).2) as (_ & H).
  - apply schema_ok_examples.
  - discriminate.
  - vm_compute. repeat constructor; intros Hin;
      repeat (apply elem_of_cons in Hin as [Hin|Hin]; [discriminate|]);
      by apply elem_of_nil in Hin.
  - repeat constructor; vm_compute; by intros ?%elem_of_nil.
  - rewrite <-surjective_pairing. by apply valid_run.
  - vm_compute. by repeat constructor.
  - exact H.
Defined.

(** ** Adding, listing and deleting together *)

(** X20.  Deleting the verse that [add_verse] has just added returns
    [True] and gives back the verse table, the ledger and the admin table
    as they were; only the sequence entry of the table keeps the id, so
    that the id is not issued again.  (The id is an integer of SQLite, as
    the ids of a table are.) *)
Theorem add_then_delete text reference now d :
  (database.sqlite_int (database.add_verse text reference now d).1 →
   (database.delete_verse (database.add_verse text reference now d).1
      (database.add_verse text reference now d).2).1 = Returned true
   ∧ database.verses
       (database.delete_verse (database.add_verse text reference now d).1
          (database.add_verse text reference now d).2).2
     = database.verses d)
  ∧ database.verses_seq
      (database.delete_verse (database.add_verse text reference now d).1
         (database.add_verse text reference now d).2).2
    = (database.add_verse text reference now d).1
  ∧ database.user_draws
      (database.delete_verse (database.add_verse text reference now d).1
         (database.add_verse text reference now d).2).2
    = database.user_draws d
  ∧ database.admin
      (database.delete_verse (database.add_verse text reference now d).1
         (database.add_verse text reference now d).2).2
    = database.admin d.
Proof.
  split; [|split; [|split]].
  - intros Hz. split.
    + apply delete_verse_present; [done|]. simpl. rewrite fmap_app.
      apply elem_of_app. right. by apply list_elem_of_singleton.
    + rewrite delete_verse_in_range by done. simpl.
      rewrite filter_app, filter_cons_False, filter_nil, app_nil_r
        by (simpl; by intros Hne).
      apply filter_keep_all, Forall_forall. intros v Hv Heq.
      apply (next_rowid_fresh (database.verses_seq d)
               (database.v_id <$> database.verses d)).
      rewrite <-Heq. by apply list_elem_of_fmap_2.
  - by rewrite delete_verse_verses_seq.
  - by rewrite delete_verse_user_draws.
  - by rewrite delete_verse_admin.
Qed.

(** X21.  The verse [add_verse] has just added is the first entry of
    [get_all_verses]: the list starts with the newest verse. *)
Theorem newest_verse_first text reference now d :
  head (database.get_all_verses (database.add_verse text reference now d).2)
  = Some {| database.d_id := (database.add_verse text reference now d).1;
            database.d_text := text; database.d_reference := reference;
            database.d_created_at := Some now;
            database.d_drawn_at := None |}.
Proof.
  set (row := {| database.v_id := (database.add_verse text reference now d).1;
                 database.v_text := text; database.v_reference := reference;
                 database.v_created_at := now |}).
  assert (database.verses (database.add_verse text reference now d).2
          = database.verses d ++ [row]) as Hv by done.
  pose proof (next_rowid_above (database.verses_seq d)
                (database.v_id <$> database.verses d)) as (_ & _ & Hall).
  rewrite Forall_fmap, Forall_forall in Hall.
  unfold database.get_all_verses. rewrite Hv.
  pose proof (@StronglySorted_merge_sort _ database.id_desc _
                id_desc_transitive id_desc_total
                (database.verses d ++ [row])) as Hsorted.
  pose proof (merge_sort_Permutation database.id_desc
                (database.verses d ++ [row])) as Hperm.
  destruct (merge_sort database.id_desc (database.verses d ++ [row]))
    as [|v l] eqn:Hl.
  - apply Permutation_nil_l in Hperm. by destruct (database.verses d).
  - assert (v = row) as ->; [|done].
    assert (v ∈ database.verses d ++ [row]) as Hin
      by (rewrite <-Hperm; by left).
    apply elem_of_app in Hin as [Hin|Hin%list_elem_of_singleton];
      [|by subst].
    assert (row ∈ v :: l) as Hrow
      by (rewrite Hperm; apply elem_of_app; right;
          by apply list_elem_of_singleton).
    apply StronglySorted_inv in Hsorted as [_ Hhd].
    rewrite Forall_forall in Hhd.
    specialize (Hall v Hin). simpl in Hall.
    apply elem_of_cons in Hrow as [Heq|Hrow].
    + subst v. simpl in Hall.
      change (database.v_id row)
        with (database.next_rowid (database.verses_seq d)
                (database.v_id <$> database.verses d)) in Hall. lia.
    + specialize (Hhd row Hrow). unfold database.id_desc in Hhd.
      change (database.v_id row)
        with (database.next_rowid (database.verses_seq d)
                (database.v_id <$> database.verses d)) in Hhd. lia.
Qed.
